(** * The exploration / reflection loop of [scripts/self_explorer_figma.py]

    A shallow embedding of [run_exploration]: the [while] loop that, each
    round, lists the elements of the current screen, asks the model for an
    action, performs it through the browser driver, asks the model to judge
    the outcome and records documentation.

    The variables of the Python function ([round_count], [doc_count],
    [useless_list], [last_act], [task_complete]) are the fields of a state
    record; the documentation files under [docs_dir] are a finite map in the
    same record (the file of a uid, read back with [ast.literal_eval], is a
    map from action kind to text), and the calls made to the model and to
    the driver are appended to a log.  The body of the loop is written in a
    state-and-exception monad: a Python exception raised by one of the
    loop's own statements (unpacking, indexing, arithmetic on a string,
    dictionary lookup) is an [Exc] result, which the
    [try ... except Exception] around the function turns into the error
    dictionary.

    The collaborators (driver, model client, parsers of [model.py], node
    snapshot) are represented by the values they return, supplied round by
    round by an environment; a collaborator that raises is outside the
    model.  Screenshots, the files of the task directory, log files and the
    pauses between requests have no part in the control flow and are left
    out.  [round_body] and [session] also leave out the filling of the
    prompt templates and the opening of the documentation file: they are
    the loop for texts that [re.sub] takes as replacements and files that
    can be opened.  [round_io] and [session_io] are the loop with these
    statements, [re.sub] and [open] being represented by what they do with
    a text and with the file of a uid.

    Two more parts of the program are embedded beside the loop.
    [get_figma_file_data] is a function on a disk (a finite map from paths
    to file contents) and a log of the requests sent, with the Figma
    service as an environment.  The handlers of [self_explorer_server.py]
    are functions on a record of the module's globals
    ([exploration_thread], [stop_event], [init_data]); [init_exploration]
    and [Thread.is_alive] are represented by what they return, and requests
    are handled one at a time. *)

From Stdlib Require Import ZArith QArith Ascii String List Lia.
From stdpp Require Import base gmap sets list strings.
Import ListNotations.

Local Open Scope string_scope.
Local Open Scope Z_scope.

(** ** Python values and exceptions *)

(** The entries of the lists returned by [parse_explore_rsp] and
    [parse_reflect_rsp]: strings and integers. *)
Inductive pyval : Type :=
  | PStr (s : string)
  | PInt (n : Z).

#[global] Instance pyval_eq_dec : EqDecision pyval.
Proof. solve_decision. Defined.

(** Truth value of a Python object in an [if]. *)
Definition truthy (v : pyval) : bool :=
  match v with
  | PStr s => negb (String.eqb s "")
  | PInt n => negb (n =? 0)
  end.

(** [a == b] on Python values. *)
Definition py_eq (a b : pyval) : bool := bool_decide (a = b).

Inductive exn : Type :=
  | IndexError
  | ValueError
  | TypeError
  | KeyError (k : string)
  | ReError            (* re.error *)
  | OSError.

Inductive result (A : Type) : Type :=
  | Val (a : A)
  | Exc (e : exn).
Arguments Val {A} a.
Arguments Exc {A} e.

(** [l[i]] with Python's negative indices. *)
Definition py_index {A : Type} (l : list A) (i : Z) : result A :=
  let n := Z.of_nat (length l) in
  let j := if i <? 0 then n + i else i in
  if (0 <=? j) && (j <? n)
  then match l !! Z.to_nat j with
       | Some a => Val a
       | None => Exc IndexError
       end
  else Exc IndexError.

(** [l[:-1]]. *)
Definition py_init {A : Type} (l : list A) : list A := removelast l.

(** [_, b = l]. *)
Definition unpack2 {A : Type} (l : list A) : result (A * A) :=
  match l with
  | [a; b] => Val (a, b)
  | _ => Exc ValueError
  end.

(** [_, b, c = l]. *)
Definition unpack3 {A : Type} (l : list A) : result (A * A * A) :=
  match l with
  | [a; b; c] => Val (a, b, c)
  | _ => Exc ValueError
  end.

(** The operand of [area - 1]: an integer, or a [TypeError] on a string. *)
Definition py_int_operand (v : pyval) : result Z :=
  match v with
  | PInt n => Val n
  | PStr _ => Exc TypeError
  end.

(** ** Data model *)

(** A [UIElement]: its [uid] and its [bbox], the pair of the top-left and
    bottom-right corners in screen pixels. *)
Record UIElement : Type := mkElem {
  uid : string;
  bbox : (Z * Z) * (Z * Z)
}.

(** Calls made to the collaborators, in the order the loop makes them. *)
Inductive call : Type :=
  | Decide                                        (* exploration prompt sent to the model *)
  | Tap (cx cy : Q)                               (* selenium_controller.tap *)
  | LongPress (cx cy : Q)                         (* selenium_controller.long_press *)
  | Swipe (cx cy : Q) (swipe_dir dist : pyval)    (* selenium_controller.swipe *)
  | Reflect                                       (* reflection prompt sent to the model *)
  | NavigateBack.                                 (* selenium_controller.back *)

(** The local variables of [run_exploration] that live across rounds, the
    documentation files ([docs_dir]: file of a uid, read back as a dict from
    action kind to text) and the log of collaborator calls. *)
Record state : Type := mkState {
  round_count : Z;
  doc_count : Z;
  useless_list : gset string;
  last_act : pyval;
  task_complete : bool;
  docs_dir : gmap string (gmap string pyval);
  calls : list call
}.

(** What the collaborators return during one round. *)
Record round_env : Type := mkRound {
  node_elems : list UIElement;     (* UIElement.process_node_data(node_data) *)
  explore_status : bool;           (* status of the exploration model call *)
  explore_res : list pyval;        (* parse_explore_rsp(rsp) *)
  gesture_ret : pyval;             (* ret of tap / long_press / swipe *)
  reflect_status : bool;           (* status of the reflection model call *)
  reflect_res : list pyval;        (* parse_reflect_rsp(rsp) *)
  back_ret : pyval                 (* ret of back *)
}.

(** The environment of a session: [stop_set n] is [stop_event.is_set()] as
    read at the head of the loop when [round_count = n] (false throughout
    when no [stop_event] is given); [rounds k] is what the collaborators
    return during round [k]. *)
Record env : Type := mkEnv {
  stop_set : Z → bool;
  rounds : Z → round_env
}.

(** Values of the result dictionary. *)
Inductive jval : Type :=
  | JStr (s : string)
  | JInt (n : Z)
  | JBool (b : bool)
  | JError (e : exn).   (* f"Error during exploration: {str(e)}" *)

(** How a round leaves the body of the [while]: by reaching its end or a
    [continue], or by [break]. *)
Inductive flow : Type :=
  | LoopContinue
  | LoopBreak.

(** A stage of the round either hands a value to the next stage or leaves
    the round. *)
Inductive ctl (A : Type) : Type :=
  | Proceed (a : A)
  | Leave (f : flow).
Arguments Proceed {A} a.
Arguments Leave {A} f.

(** ** The monad of the loop body *)

Definition M (A : Type) : Type := state → result A * state.

Definition ret {A : Type} (a : A) : M A := λ st, (Val a, st).

Definition bind {A B : Type} (m : M A) (k : A → M B) : M B :=
  λ st, match m st with
        | (Val a, st') => k a st'
        | (Exc e, st') => (Exc e, st')
        end.

Definition lift {A : Type} (r : result A) : M A := λ st, (r, st).

Definition get : M state := λ st, (Val st, st).

Definition modify (f : state → state) : M unit := λ st, (Val tt, f st).

Notation "x <~ m ;; k" := (bind m (λ x, k))
  (at level 100, m at next level, right associativity, only parsing).
Notation "m ;;; k" := (bind m (λ _, k))
  (at level 100, right associativity, only parsing).

Definition set_round_count (n : Z) (st : state) : state :=
  mkState n (doc_count st) (useless_list st) (last_act st)
          (task_complete st) (docs_dir st) (calls st).
Definition set_doc_count (n : Z) (st : state) : state :=
  mkState (round_count st) n (useless_list st) (last_act st)
          (task_complete st) (docs_dir st) (calls st).
Definition set_useless_list (u : gset string) (st : state) : state :=
  mkState (round_count st) (doc_count st) u (last_act st)
          (task_complete st) (docs_dir st) (calls st).
Definition set_last_act (v : pyval) (st : state) : state :=
  mkState (round_count st) (doc_count st) (useless_list st) v
          (task_complete st) (docs_dir st) (calls st).
Definition set_task_complete (b : bool) (st : state) : state :=
  mkState (round_count st) (doc_count st) (useless_list st) (last_act st)
          b (docs_dir st) (calls st).
Definition set_docs_dir (d : gmap string (gmap string pyval)) (st : state) : state :=
  mkState (round_count st) (doc_count st) (useless_list st) (last_act st)
          (task_complete st) d (calls st).
Definition log (c : call) (st : state) : state :=
  mkState (round_count st) (doc_count st) (useless_list st) (last_act st)
          (task_complete st) (docs_dir st) (calls st ++ [c]).

(** [useless_list.add(resource_id); last_act = "None"]. *)
Definition mark_useless (resource_id : string) (st : state) : state :=
  set_last_act (PStr "None")
    (set_useless_list ({[resource_id]} ∪ useless_list st) st).

(** The dictionary written for an element that has no file yet. *)
Definition fresh_doc_content : gmap string pyval :=
  <["tap" := PStr ""]> (<["text" := PStr ""]> (<["v_swipe" := PStr ""]>
    (<["h_swipe" := PStr ""]> (<["long_press" := PStr ""]> ∅)))).

(** The text held for a uid and an action kind, if the file and the key
    exist. *)
Definition doc_slot (st : state) (resource_id act_name : string)
  : option pyval :=
  docs_dir st !! resource_id ≫= λ doc_content, doc_content !! act_name.


Definition dict_get (key : string) (d : list (string * jval)) : option jval :=
  snd <$> List.find (λ p, String.eqb p.1 key) d.


(** The calls that are gestures on the canvas, with their point. *)
Definition gesture_point (c : call) : option (Q * Q) :=
  match c with
  | Tap cx cy | LongPress cx cy | Swipe cx cy _ _ => Some (cx, cy)
  | _ => None
  end.

(** ** The design-file cache ([get_figma_file_data], lines 55-75) *)

(** What a file under [root_dir] holds: the [json.dump] of a value, or a
    text that [json.load] refuses. *)
Inductive file_content (json : Type) : Type :=
  | JsonText (j : json)
  | NotJson.
Arguments JsonText {json} j.
Arguments NotJson {json}.

(** What the Figma API answers: the status code and [response.json()]
    ([None] when it raises). *)
Record http_response (json : Type) : Type := mkResponse {
  status_code : Z;
  body : option json
}.
Arguments mkResponse {json} status_code body.
Arguments status_code {json} h.
Arguments body {json} h.

(** The outside of [get_figma_file_data]: [requests.get] on a url with a
    token ([None] when it raises), and whether a path can be opened for
    writing. *)
Record figma_service (json : Type) : Type := mkService {
  http_get : string → string → option (http_response json);
  can_write : string → bool
}.
Arguments mkService {json} http_get can_write.
Arguments http_get {json} f url token.
Arguments can_write {json} f path.

(** The files on disk and the requests sent so far (url and token).  The
    disk is keyed by paths: two paths are taken to name two files, which
    holds for the entries of one directory named without a slash. *)
Record disk (json : Type) : Type := mkDisk {
  files : gmap string (file_content json);
  requests : list (string * string)
}.
Arguments mkDisk {json} files requests.
Arguments files {json} d.
Arguments requests {json} d.

Inductive failure : Type :=
  | DecodeError        (* json.load or response.json() raised *)
  | ConnectionError    (* requests.get raised *)
  | WriteError.        (* open(data_path, "w") raised *)

(** How a call ends: with the file data, with [sys.exit(code)], or with an
    exception. *)
Inductive fetched (json : Type) : Type :=
  | Returned (file : json)
  | Exited (code : Z)
  | Raised (what : failure).
Arguments Returned {json} file.
Arguments Exited {json} code.
Arguments Raised {json} what.

Fixpoint ends_with_slash (s : string) : bool :=
  match s with
  | EmptyString => false
  | String c EmptyString => Ascii.eqb c "/"%char
  | String _ rest => ends_with_slash rest
  end.

(** [os.path.join(a, b)] on a POSIX system. *)
Definition path_join (a b : string) : string :=
  if String.prefix "/" b then b
  else if String.eqb a "" || ends_with_slash a then String.append a b
  else String.append a (String.append "/" b).

Definition figma_url (file_key : string) : string :=
  String.append "https://api.figma.com/v1/files/" file_key.

(** The text has no slash: as a file name it stands for an entry of the
    directory it is joined to, as the file keys do that line 105 cuts out
    of the URL. *)
Fixpoint no_slash (s : string) : bool :=
  match s with
  | EmptyString => true
  | String c rest => negb (Ascii.eqb c "/"%char) && no_slash rest
  end.

(** Line 56: where the data of a file key is kept. *)
Definition data_path (root_dir file_key : string) : string :=
  path_join root_dir (String.append file_key ".json").

Definition get_figma_file_data {json : Type} (service : figma_service json)
    (file_key token root_dir : string) (d : disk json)
  : fetched json * disk json :=
  let data_path := data_path root_dir file_key in
  match files d !! data_path with
  | Some (JsonText file) => (Returned file, d)
  | Some NotJson => (Raised DecodeError, d)
  | None =>
      let d1 := mkDisk (files d)
                       (requests d ++ [(figma_url file_key, token)]) in
      match http_get service (figma_url file_key) token with
      | None => (Raised ConnectionError, d1)
      | Some response =>
          if status_code response =? 200 then
            match body response with
            | None => (Raised DecodeError, d1)
            | Some file =>
                if can_write service data_path
                then (Returned file,
                      mkDisk (<[data_path := JsonText file]> (files d1))
                             (requests d1))
                else (Raised WriteError, d1)
            end
          else (Exited 1, d1)
      end
  end.

(** ** The control surface ([self_explorer_server.py]) *)

(** What [init_exploration] returns: the dictionary of lines 148-162, of
    which the server reads [task_dir], [report_log_path] and the presence of
    [selenium_controller], and [run_exploration] the canvas offset; or the
    error dictionary of line 166. *)
Inductive init_value : Type :=
  | InitData (task_dir report_log_path : string) (x y : Q)
  | InitError (message : string).

(** A [threading.Thread] with target [run_exploration] and its
    arguments. *)
Record thread : Type := mkThread {
  thread_init_data : init_value;
  thread_task_desc : string;
  thread_persona_desc : string
}.

(** The globals of the module, and what the handlers have done to the
    outside: the threads started, and the dictionaries whose browser was
    told to quit. *)
Record server : Type := mkServer {
  exploration_thread : option thread;
  stop_event : bool;
  init_data : option init_value;
  started : list thread;
  closed : list init_value
}.

(** The module as loaded (lines 16-18). *)
Definition server_start : server := mkServer None false None [] [].

(** A response: the HTTP code and the fields of the JSON body. *)
Record reply : Type := mkReply {
  code : Z;
  fields : list (string * string)
}.

Definition status_reply (code : Z) (status message : string) : reply :=
  mkReply code [("status", status); ("message", message)].

(** A handler returns a reply, or an exception leaves it (a key missing
    from the request). *)
Inductive handled : Type :=
  | Replied (r : reply)
  | Unhandled (key : string).

(** [s.replace(" ", "")]. *)
Fixpoint remove_spaces (s : string) : string :=
  match s with
  | EmptyString => EmptyString
  | String c rest =>
      if Ascii.eqb c " "%char then remove_spaces rest
      else String c (remove_spaces rest)
  end.

(** Lines 20-40, [/init].  [init] stands for [init_exploration]. *)
Definition initialize
    (init : string → string → option string → string → init_value)
    (data : gmap string string) (s : server) : handled * server :=
  match data !! "app" with
  | None => (Unhandled "app", s)
  | Some app_name =>
      let app_name := remove_spaces app_name in
      match data !! "url" with
      | None => (Unhandled "url", s)
      | Some url =>
          let password := data !! "password" in
          let root_dir := default "./" (data !! "root_dir") in
          let v := init app_name url password root_dir in
          let s' := mkServer (exploration_thread s) (stop_event s) (Some v)
                             (started s) (closed s) in
          match v with
          | InitError message =>
              (Replied (status_reply 200 "error" message), s')
          | InitData _ _ _ _ =>
              (Replied (status_reply 200 "success" "Initialization completed"),
               s')
          end
      end
  end.

(** Lines 42-72, [/explore].  [alive] is what
    [exploration_thread.is_alive()] answers if it is asked. *)
Definition explore_request (data : gmap string string) (alive : bool)
    (s : server) : handled * server :=
  if bool_decide (is_Some (exploration_thread s)) && alive then
    (Replied (status_reply 200 "error" "Exploration already in progress"), s)
  else
    match init_data s with
    | None =>
        (Replied (status_reply 200 "error" "Initialization not completed"), s)
    | Some v =>
        match data !! "task_desc" with
        | None => (Unhandled "task_desc", s)
        | Some task_desc =>
            let persona_desc := default "" (data !! "persona_desc") in
            let t := mkThread v task_desc persona_desc in
            (Replied (status_reply 200 "success" "Exploration started"),
             mkServer (Some t) false (init_data s) (started s ++ [t])
                      (closed s))
        end
    end.

(** Lines 74-114, [/stop_exploration].  [alive] and [alive_after_join] are
    the answers of [is_alive()] before and after the [join] of ten
    seconds; [has_driver] is [hasattr(selenium_controller, "driver")]. *)
Definition stop_exploration (alive alive_after_join has_driver : bool)
    (s : server) : handled * server :=
  let s1 := mkServer (exploration_thread s) true (init_data s) (started s)
                     (closed s) in
  if bool_decide (is_Some (exploration_thread s)) && alive
     && alive_after_join then
    (Replied (status_reply 500 "error"
       "An unexpected error occurred: Exploration thread did not terminate in time"),
     s1)
  else
    let closed' :=
      match init_data s with
      | Some (InitData task_dir report_log_path x y) =>
          if has_driver
          then (closed s ++ [InitData task_dir report_log_path x y])%list
          else closed s
      | _ => closed s
      end in
    (Replied (status_reply 200 "success"
       "Exploration stopped and resources cleaned up"),
     mkServer None true None (started s) closed').

(** Lines 116-123, [/exploration_status]. *)
Definition exploration_status (alive : bool) (s : server) : handled * server :=
  if bool_decide (is_Some (exploration_thread s)) && alive then
    (Replied (status_reply 200 "in_progress" "Exploration is running"), s)
  else
    (Replied (status_reply 200 "idle" "No exploration in progress"), s).

(** Lines 125-138, [/get_report].  [read] gives the text of a file that
    exists. *)
Definition get_report (read : string → option string) (s : server)
  : handled * server :=
  match init_data s with
  | Some (InitData _ report_log_path _ _) =>
      match read report_log_path with
      | None => (Replied (status_reply 404 "error" "Report file not found"), s)
      | Some report_content =>
          (Replied (mkReply 200 [("status", "success");
                                 ("content", report_content)]), s)
      end
  | _ => (Replied (status_reply 404 "error" "Report not available"), s)
  end.

(** A request with what the outside answers while it is handled. *)
Inductive request : Type :=
  | PostInit (init : string → string → option string → string → init_value)
             (data : gmap string string)
  | PostExplore (data : gmap string string) (alive : bool)
  | PostStop (alive alive_after_join has_driver : bool)
  | GetStatus (alive : bool)
  | GetReport (read : string → option string).

Definition handle (r : request) (s : server) : handled * server :=
  match r with
  | PostInit init data => initialize init data s
  | PostExplore data alive => explore_request data alive s
  | PostStop alive alive_after_join has_driver =>
      stop_exploration alive alive_after_join has_driver s
  | GetStatus alive => exploration_status alive s
  | GetReport read => get_report read s
  end.

(** The requests of a list handled one after the other. *)
Fixpoint serve (rs : list request) (s : server) : list handled * server :=
  match rs with
  | [] => ([], s)
  | r :: rs' =>
      let '(h, s1) := handle r s in
      let '(hs, s2) := serve rs' s1 in
      (h :: hs, s2)
  end.

(** The request told the handler that the registered thread has ended. *)
Definition saw_thread_ended (r : request) : bool :=
  match r with
  | PostExplore _ alive => negb alive
  | PostStop alive alive_after_join _ => negb (alive && alive_after_join)
  | _ => false
  end.

(** The request is an [/init] that comes back with a browser: the keys are
    there and [init_exploration] returns its dictionary. *)
Definition opens_browser (r : request) : bool :=
  match r with
  | PostInit init data =>
      match data !! "app", data !! "url" with
      | Some app_name, Some url =>
          match init (remove_spaces app_name) url (data !! "password")
                     (default "./" (data !! "root_dir")) with
          | InitData _ _ _ _ => true
          | InitError _ => false
          end
      | _, _ => false
      end
  | _ => false
  end.

Fixpoint browsers_opened (rs : list request) : nat :=
  match rs with
  | [] => 0
  | r :: rs' =>
      ((if opens_browser r then 1 else 0) + browsers_opened rs')%nat
  end.

(** The server holds a dictionary with a browser. *)
Definition holds_browser (s : server) : nat :=
  match init_data s with
  | Some (InitData _ _ _ _) => 1
  | _ => 0
  end.

(** What every reachable state of the server satisfies. *)
Definition server_invariant (s : server) : Prop :=
  (exploration_thread s = None ∨ exploration_thread s = last (started s))
  ∧ (is_Some (exploration_thread s) → is_Some (init_data s)).

(** ** What the loop meets besides its collaborators *)

(** The task description, what [re.sub] does with a text given as the
    replacement (it returns, or raises on a text that it cannot read as a
    template; which of the two depends on the text alone), and what
    [open(doc_path, "w")] does for the documentation file of a uid. *)
Record host : Type := mkHost {
  task_desc : pyval;
  re_sub : pyval → result unit;
  open_doc : string → result unit
}.

(** ** Sample sessions *)

Definition settings_screen : list UIElement :=
  [mkElem "menu" ((0, 0), (8, 8));
   mkElem "settings" ((10, 10), (30, 30));
   mkElem "help" ((40, 10), (60, 30))].

(** The element "settings" of the sample screen. *)
Definition settings_elem : UIElement := mkElem "settings" ((10, 10), (30, 30)).

(** A round in which the model answers [decision] and [verdict]. *)
Definition sample_round (decision verdict : list pyval) : round_env :=
  mkRound settings_screen true decision (PStr "OK") true verdict (PStr "OK").

Definition tap_settings : list pyval :=
  [PStr "tap"; PInt 2; PStr "tapped the settings icon"].

Definition verdict_success : list pyval :=
  [PStr "SUCCESS"; PStr "the panel opened"; PStr "opens settings panel"].

Definition never_stop : Z → bool := λ _, false.

(** Every round taps element 2 and is judged a success. *)
Definition E_tap : env :=
  mkEnv never_stop (λ _, sample_round tap_settings verdict_success).

(** Round 1 taps element 2; from round 2 on the model answers [later]. *)
Definition tap_then (later : list pyval) : env :=
  mkEnv never_stop
    (λ k, if k =? 1 then sample_round tap_settings verdict_success
          else sample_round later verdict_success).

Definition E_finish : env := tap_then [PStr "FINISH"].

Definition E_text : env :=
  tap_then [PStr "text"; PStr "hello"; PStr "typed hello"].

(** Index 4 on the three elements of the screen. *)
Definition E_out_of_range : env :=
  tap_then [PStr "tap"; PInt 4; PStr "tapped element 4"].

(** A swipe on index 0. *)
Definition swipe_zero : list pyval :=
  [PStr "swipe"; PInt 0; PStr "up"; PStr "medium"; PStr "swiped up"].

Definition E_swipe_zero : env :=
  mkEnv never_stop (λ _, sample_round swipe_zero verdict_success).



(** The stop request arrives while round 2 runs. *)
Definition E_stop : env :=
  mkEnv (λ n, 2 <=? n) (λ _, sample_round tap_settings verdict_success).

(** Round 1 taps element 2 and the reflection finds it ineffective. *)
Definition round_ineffective : round_env :=
  sample_round tap_settings [PStr "INEFFECTIVE"; PStr "nothing happened"].

(** A documentation file that already describes the tap on "settings". *)
Definition docs_settings : gmap string (gmap string pyval) :=
  {[ "settings" := <["tap" := PStr "opens settings panel"]> fresh_doc_content ]}.

(** A documentation file for "settings" that this program did not write:
    it has no key at all. *)
Definition docs_foreign : gmap string (gmap string pyval) :=
  {[ "settings" := ∅ ]}.

(** Every round taps element 2 of a snapshot without elements. *)
Definition E_empty_screen : env :=
  mkEnv never_stop
    (λ _, mkRound [] true tap_settings (PStr "OK") true verdict_success
                  (PStr "OK")).

(** The model answers with an empty decision. *)
Definition E_empty_decision : env :=
  mkEnv never_stop (λ _, sample_round [] verdict_success).

(** A service that answers every request with the same document, one that
    refuses every request, and one that cannot be reached. *)
Definition service_ok : figma_service string :=
  mkService (λ _ _, Some (mkResponse 200 (Some "design document")))
            (λ _, true).

Definition service_refuses : figma_service string :=
  mkService (λ _ _, Some (mkResponse 403 None)) (λ _, true).

Definition service_down : figma_service string :=
  mkService (λ _ _, None) (λ _, false).

Definition empty_disk : disk string := mkDisk ∅ [].

(** The body of an [/init] request and of an [/explore] request. *)
Definition init_body : gmap string string :=
  <["app" := "My App"]> {[ "url" := "https://www.figma.com/proto/abc/App" ]}.

Definition explore_body : gmap string string :=
  {[ "task_desc" := "open the settings" ]}.

(** An [init_exploration] that fails and one that returns. *)
Definition init_fails
  : string → string → option string → string → init_value :=
  λ _ _ _ _, InitError "Error during initialization: no such window".

Definition sample_init : init_value :=
  InitData "./apps/MyApp/demos/t" "./apps/MyApp/demos/t/log_report_t.md"
           100 50.

Definition init_returns
  : string → string → option string → string → init_value :=
  λ _ _ _ _, sample_init.

Definition sample_thread : thread :=
  mkThread sample_init "open the settings" "".

(** The server after an [/init] that returned and an [/explore]. *)
Definition server_running : server :=
  mkServer (Some sample_thread) false (Some sample_init) [sample_thread] [].

(** [re.sub] as far as the samples need it.  A text is taken if every
    backslash in it stands before one of the letters a, b, f, n, r, t, v,
    before another backslash, or before a character that is neither a
    letter nor a digit; a text with any other backslash is refused.  (The
    numeric and group escapes, which [re] also reads, do not occur in the
    samples.)  A replacement that is no string is a [TypeError]. *)
Definition is_letter (c : ascii) : bool :=
  let n := nat_of_ascii c in
  ((65 <=? n) && (n <=? 90) || (97 <=? n) && (n <=? 122))%nat.

Definition is_digit (c : ascii) : bool :=
  let n := nat_of_ascii c in ((48 <=? n) && (n <=? 57))%nat.

Definition known_escape (c : ascii) : bool :=
  bool_decide (c ∈ ["a"; "b"; "f"; "n"; "r"; "t"; "v"]%char).

Fixpoint template_ok (s : string) : bool :=
  match s with
  | EmptyString => true
  | String c rest =>
      if Ascii.eqb c "\"%char then
        match rest with
        | EmptyString => false
        | String d rest' =>
            if is_letter d then known_escape d && template_ok rest'
            else negb (is_digit d) && template_ok rest'
        end
      else template_ok rest
  end.

Definition sample_re_sub (v : pyval) : result unit :=
  match v with
  | PStr s => if template_ok s then Val tt else Exc ReError
  | PInt _ => Exc TypeError
  end.

(** The task is given in plain words and every file can be opened. *)
Definition host_plain : host :=
  mkHost (PStr "open the settings") sample_re_sub (λ _, Val tt).

(** The task description names a Windows path. *)
Definition host_path_task : host :=
  mkHost (PStr "open C:\dir") sample_re_sub (λ _, Val tt).

(** The decision whose last-action text names a Windows path. *)
Definition tap_path : list pyval :=
  [PStr "tap"; PInt 2; PStr "typed C:\dir"].

(** ** The stages of a round *)

Section Session.

Variable MAX_ROUNDS : Z.   (* configs["MAX_ROUNDS"] *)
Variables x y : Q.         (* init_data["x"], init_data["y"]: the canvas offset *)

(** Lines 266-270: the elements of the screen that are not in
    [useless_list], in the order of the snapshot. *)
Definition elem_list (useless : gset string) (elems : list UIElement)
  : list UIElement :=
  filter (λ elem, uid elem ∉ useless) elems.

(** Lines 321-329: the centre of the box, moved by the canvas offset.
    Python's [/] on the integer sum is exact rational division. *)
Definition center (elem : UIElement) : Q * Q :=
  let '(tl, br) := bbox elem in
  ((inject_Z (tl.1 + br.1) / 2 + x)%Q, (inject_Z (tl.2 + br.2) / 2 + y)%Q).

Definition is_error (v : pyval) : bool := py_eq v (PStr "ERROR").

(** Lines 339-371: the gesture sent to the driver. *)
Definition gesture (e : round_env) (act_name : pyval) (res : list pyval)
    (center_x center_y : Q) : M (ctl unit) :=
  if py_eq act_name (PStr "tap") then
    modify (log (Tap center_x center_y)) ;;;
    if is_error (gesture_ret e) then ret (Leave LoopBreak) else ret (Proceed tt)
  else if py_eq act_name (PStr "long_press") then
    modify (log (LongPress center_x center_y)) ;;;
    if is_error (gesture_ret e) then ret (Leave LoopBreak) else ret (Proceed tt)
  else if py_eq act_name (PStr "swipe") then
    r <~ lift (unpack3 res) ;;
    let swipe_dir := r.1.2 in
    let dist := r.2 in
    modify (log (Swipe center_x center_y swipe_dir dist)) ;;;
    if is_error (gesture_ret e) then ret (Leave LoopBreak) else ret (Proceed tt)
  else ret (Proceed tt).

(** Lines 299-387: ask the model what to do and do it.  A round that goes
    on to the reflection hands over [act_name], [res] and the integer
    [area]. *)
Definition explore (e : round_env) (elems : list UIElement)
  : M (ctl (pyval * list pyval * Z)) :=
  modify (log Decide) ;;;
  if explore_status e then
    let res := explore_res e in
    act_name <~ lift (py_index res 0) ;;
    last <~ lift (py_index res (-1)) ;;
    modify (set_last_act last) ;;;
    let res := py_init res in
    if py_eq act_name (PStr "FINISH") then
      modify (set_task_complete true) ;;; ret (Leave LoopBreak)
    else if py_eq act_name (PStr "tap") || py_eq act_name (PStr "long_press")
            || py_eq act_name (PStr "swipe") then
      r <~ lift (unpack2 res) ;;
      area <~ lift (py_int_operand r.2) ;;
      elem <~ lift (py_index elems (area - 1)) ;;
      let c := center elem in
      g <~ gesture e act_name res c.1 c.2 ;;
      match g with
      | Leave f => ret (Leave f)
      | Proceed _ => ret (Proceed (act_name, res, area))
      end
    else ret (Leave LoopBreak)
  else ret (Leave LoopBreak).

(** Lines 406-433: the action kind named in the reflection prompt and used
    as the key of the documentation. *)
Definition reflect_action (act_name : pyval) (res : list pyval)
  : M (ctl string) :=
  if py_eq act_name (PStr "tap") then ret (Proceed "tap")
  else if py_eq act_name (PStr "text") then ret (Leave LoopContinue)
  else if py_eq act_name (PStr "long_press") then ret (Proceed "long_press")
  else if py_eq act_name (PStr "swipe") then
    swipe_dir <~ lift (py_index res 2) ;;
    if py_eq swipe_dir (PStr "up") || py_eq swipe_dir (PStr "down")
    then ret (Proceed "v_swipe")
    else if py_eq swipe_dir (PStr "left") || py_eq swipe_dir (PStr "right")
    then ret (Proceed "h_swipe")
    else ret (Proceed "swipe")
  else ret (Leave LoopBreak).

(** Lines 474-499: write [doc] in the slot [act_name] of the file of
    [resource_id], unless the slot already holds a text. *)
Definition document (resource_id act_name : string) (doc : pyval) : M flow :=
  st <~ get ;;
  let write (doc_content : gmap string pyval) : M flow :=
    modify (set_docs_dir
              (<[resource_id := <[act_name := doc]> doc_content]> (docs_dir st))) ;;;
    modify (λ s, set_doc_count (doc_count s + 1) s) ;;;
    ret LoopContinue in
  match docs_dir st !! resource_id with
  | Some doc_content =>
      match doc_content !! act_name with
      | Some old => if truthy old then ret LoopContinue else write doc_content
      | None => lift (Exc (KeyError act_name))
      end
  | None => write fresh_doc_content
  end.

(** Lines 438-505: ask the model to judge the action and act on the
    verdict.  [area] is the integer handed over by the first stage, so
    [int(area)] is [area].  When the call fails, [rsp] is the error text
    (the one line 386 prints after a failed first call), and line 504
    indexes it with a string: [rsp["error"]] raises [TypeError]. *)
Definition reflect (e : round_env) (elems : list UIElement)
    (act_name : string) (area : Z) : M flow :=
  modify (log Reflect) ;;;
  if reflect_status e then
    elem <~ lift (py_index elems (area - 1)) ;;
    let resource_id := uid elem in
    let res := reflect_res e in
    decision <~ lift (py_index res 0) ;;
    if py_eq decision (PStr "ERROR") then ret LoopBreak
    else if py_eq decision (PStr "INEFFECTIVE") then
      modify (mark_useless resource_id) ;;; ret LoopContinue
    else if py_eq decision (PStr "BACK") || py_eq decision (PStr "CONTINUE")
            || py_eq decision (PStr "SUCCESS") then
      c <~ (if py_eq decision (PStr "BACK") || py_eq decision (PStr "CONTINUE")
            then
              modify (mark_useless resource_id) ;;;
              if py_eq decision (PStr "BACK") then
                modify (log NavigateBack) ;;;
                if is_error (back_ret e) then ret (Leave LoopBreak)
                else ret (Proceed tt)
              else ret (Proceed tt)
            else ret (Proceed tt)) ;;
      match c with
      | Leave f => ret f
      | Proceed _ =>
          doc <~ lift (py_index res (-1)) ;;
          document resource_id act_name doc
      end
    else ret LoopBreak
  else lift (Exc TypeError).

(** Lines 237-507: one round, entered with [round_count] already
    incremented. *)
Definition round_body (e : round_env) : M flow :=
  st <~ get ;;
  let elems := elem_list (useless_list st) (node_elems e) in
  c <~ explore e elems ;;
  match c with
  | Leave f => ret f
  | Proceed (act_name, res, area) =>
      c' <~ reflect_action act_name res ;;
      match c' with
      | Leave f => ret f
      | Proceed act_name' => reflect e elems act_name' area
      end
  end.

(** ** The loop and the result *)

(** Lines 232-236 and the round: one pass through the body of the
    [while]. *)
Definition iteration (E : env) : M flow :=
  st <~ get ;;
  if stop_set E (round_count st) then ret LoopBreak
  else
    modify (set_round_count (round_count st + 1)) ;;;
    round_body (rounds E (round_count st + 1)).

(** Line 231: [while round_count < configs["MAX_ROUNDS"]].  The fuel bounds
    the number of passes; [session] gives as many as the condition can
    allow. *)
Fixpoint loop (fuel : nat) (E : env) (st : state) : result unit * state :=
  match fuel with
  | O => (Val tt, st)
  | S fuel' =>
      if round_count st <? MAX_ROUNDS then
        match iteration E st with
        | (Val LoopContinue, st') => loop fuel' E st'
        | (Val LoopBreak, st') => (Val tt, st')
        | (Exc e, st') => (Exc e, st')
        end
      else (Val tt, st)
  end.

(** Lines 207-211: the variables before the first round; [docs] are the
    documentation files already under [docs_dir]. *)
Definition init_state (docs : gmap string (gmap string pyval)) : state :=
  mkState 0 0 ∅ (PStr "None") false docs [].

Definition session (E : env) (docs : gmap string (gmap string pyval))
  : result unit * state :=
  loop (Z.to_nat MAX_ROUNDS) E (init_state docs).

(** Lines 531-536: the dictionary returned after the loop. *)
Definition report (st : state) : list (string * jval) :=
  [("status", JStr (if task_complete st then "success" else "incomplete"));
   ("task_complete", JBool (task_complete st));
   ("rounds", JInt (round_count st));
   ("docs_generated", JInt (doc_count st))].

(** Lines 538-543: the result, after the loop or from the [except]
    clause. *)
Definition conclude (o : result unit * state) : list (string * jval) :=
  match o with
  | (Val _, st) => report st
  | (Exc e, _) => [("status", JStr "error"); ("message", JError e)]
  end.

Definition run_exploration (E : env) (docs : gmap string (gmap string pyval))
  : list (string * jval) :=
  conclude (session E docs).

(** ** The loop with its prompts and its files

    The round once more, now with the statements that fill the prompt
    templates and open the documentation file.  Where [re.sub] takes the
    texts and the file opens, a round of [round_io] is the round of
    [round_body]. *)

(** Lines 290-295 and 434-436: the task description, then the last
    action, are filled into the prompt.  ([str(area)], filled in before
    them at line 434, is a numeral, which [re.sub] takes as it is.) *)
Definition render (h : host) : M unit :=
  lift (re_sub h (task_desc h)) ;;;
  st <~ get ;;
  lift (re_sub h (last_act st)).

(** Lines 474-499, with the [open] of line 493 before the counter. *)
Definition document_io (h : host) (resource_id act_name : string)
    (doc : pyval) : M flow :=
  st <~ get ;;
  let write (doc_content : gmap string pyval) : M flow :=
    lift (open_doc h resource_id) ;;;
    modify (set_docs_dir
              (<[resource_id := <[act_name := doc]> doc_content]> (docs_dir st))) ;;;
    modify (λ s, set_doc_count (doc_count s + 1) s) ;;;
    ret LoopContinue in
  match docs_dir st !! resource_id with
  | Some doc_content =>
      match doc_content !! act_name with
      | Some old => if truthy old then ret LoopContinue else write doc_content
      | None => lift (Exc (KeyError act_name))
      end
  | None => write fresh_doc_content
  end.

(** Lines 438-505, writing through [document_io]. *)
Definition reflect_io (h : host) (e : round_env) (elems : list UIElement)
    (act_name : string) (area : Z) : M flow :=
  modify (log Reflect) ;;;
  if reflect_status e then
    elem <~ lift (py_index elems (area - 1)) ;;
    let resource_id := uid elem in
    let res := reflect_res e in
    decision <~ lift (py_index res 0) ;;
    if py_eq decision (PStr "ERROR") then ret LoopBreak
    else if py_eq decision (PStr "INEFFECTIVE") then
      modify (mark_useless resource_id) ;;; ret LoopContinue
    else if py_eq decision (PStr "BACK") || py_eq decision (PStr "CONTINUE")
            || py_eq decision (PStr "SUCCESS") then
      c <~ (if py_eq decision (PStr "BACK") || py_eq decision (PStr "CONTINUE")
            then
              modify (mark_useless resource_id) ;;;
              if py_eq decision (PStr "BACK") then
                modify (log NavigateBack) ;;;
                if is_error (back_ret e) then ret (Leave LoopBreak)
                else ret (Proceed tt)
              else ret (Proceed tt)
            else ret (Proceed tt)) ;;
      match c with
      | Leave f => ret f
      | Proceed _ =>
          doc <~ lift (py_index res (-1)) ;;
          document_io h resource_id act_name doc
      end
    else ret LoopBreak
  else lift (Exc TypeError).

(** Lines 237-507: the prompt of the first stage is filled before the
    model is asked (lines 290-295), the prompt of the reflection after the
    gesture and before the second call (lines 434-436). *)
Definition round_io (h : host) (e : round_env) : M flow :=
  st <~ get ;;
  let elems := elem_list (useless_list st) (node_elems e) in
  render h ;;;
  c <~ explore e elems ;;
  match c with
  | Leave f => ret f
  | Proceed (act_name, res, area) =>
      c' <~ reflect_action act_name res ;;
      match c' with
      | Leave f => ret f
      | Proceed act_name' =>
          render h ;;; reflect_io h e elems act_name' area
      end
  end.

Definition iteration_io (h : host) (E : env) : M flow :=
  st <~ get ;;
  if stop_set E (round_count st) then ret LoopBreak
  else
    modify (set_round_count (round_count st + 1)) ;;;
    round_io h (rounds E (round_count st + 1)).

Fixpoint loop_io (h : host) (fuel : nat) (E : env) (st : state)
  : result unit * state :=
  match fuel with
  | O => (Val tt, st)
  | S fuel' =>
      if round_count st <? MAX_ROUNDS then
        match iteration_io h E st with
        | (Val LoopContinue, st') => loop_io h fuel' E st'
        | (Val LoopBreak, st') => (Val tt, st')
        | (Exc e, st') => (Exc e, st')
        end
      else (Val tt, st)
  end.

Definition session_io (h : host) (E : env)
    (docs : gmap string (gmap string pyval)) : result unit * state :=
  loop_io h (Z.to_nat MAX_ROUNDS) E (init_state docs).

Definition run_exploration_io (h : host) (E : env)
    (docs : gmap string (gmap string pyval)) : list (string * jval) :=
  conclude (session_io h E docs).

(** ** Vocabulary of the properties *)

(** [reach E st st']: started at the loop head in [st], the loop is again at
    its head in [st'] after some rounds that all ran to their end. *)
Inductive reach (E : env) : state → state → Prop :=
  | reach_refl st : reach E st st
  | reach_round st st' st'' :
      reach E st st' →
      round_count st' < MAX_ROUNDS →
      iteration E st' = (Val LoopContinue, st'') →
      reach E st st''.

(** The round entered from the loop head [st]: its number and the state in
    which its body starts. *)
Definition next_round (st : state) : Z := round_count st + 1.
Definition enter (st : state) : state := set_round_count (next_round st) st.

(** The model decided the action [kind] (a tap or a long press) on the
    element number [area], which is [elem] in this round's list. *)
Definition acts_on (e : round_env) (st : state) (kind : string) (area : Z)
    (elem : UIElement) : Prop :=
  explore_status e = true ∧
  (kind = "tap" ∨ kind = "long_press") ∧
  (∃ last, explore_res e = [PStr kind; PInt area; last]) ∧
  py_index (elem_list (useless_list st) (node_elems e)) (area - 1) = Val elem.

(** The gesture went through and the reflection returned [verdict]. *)
Definition judged (e : round_env) (verdict : string) : Prop :=
  is_error (gesture_ret e) = false ∧
  reflect_status e = true ∧
  py_index (reflect_res e) 0 = Val (PStr verdict).

(** The state after the model's answer has been read: the call is logged
    and [last_act] is the last entry of the answer. *)
Definition decided (last : pyval) (st : state) : state :=
  set_last_act last (log Decide st).

(** The call that carries out a tap or a long press at a point. *)
Definition performed (kind : string) (p : Q * Q) : call :=
  if String.eqb kind "tap" then Tap p.1 p.2 else LongPress p.1 p.2.

(** The calls made during a round. *)
Definition round_calls (e : round_env) (st : state) : list call :=
  drop (length (calls st)) (calls (round_body e st).2).

(** The calls made during a round of [round_io]. *)
Definition round_calls_io (h : host) (e : round_env) (st : state)
  : list call :=
  drop (length (calls st)) (calls (round_io h e st).2).

(** [re.sub] takes the text. *)
Definition accepts (h : host) (v : pyval) : Prop := re_sub h v = Val tt.

(** The log is extended by calls that are no gestures. *)
Definition no_gesture (st st' : state) : Prop :=
  ∃ l, calls st' = (calls st ++ l)%list ∧
       Forall (λ c, gesture_point c = None) l.





(** The head of the loop after the first pass. *)
Definition first_head (E : env) (docs : gmap string (gmap string pyval))
  : state :=
  (iteration E (init_state docs)).2.

(** The reflection call succeeded and its verdict is BACK. *)
Definition answers_back (e : round_env) : bool :=
  reflect_status e &&
  match py_index (reflect_res e) 0 with
  | Val decision => py_eq decision (PStr "BACK")
  | Exc _ => false
  end.

(** The calls that follow the prompt in a round that acts on an element. *)
Definition calls_after_gesture (e : round_env) : list call :=
  if is_error (gesture_ret e) then []
  else if answers_back e then [Reflect; NavigateBack]
  else [Reflect].

(** The state after lines 493-496: [doc] written in the slot [act_name] of
    [doc_content], the file saved, and the counter incremented. *)
Definition written (resource_id act_name : string) (doc : pyval)
    (doc_content : gmap string pyval) (st : state) : state :=
  set_doc_count (doc_count st + 1)
    (set_docs_dir
       (<[resource_id := <[act_name := doc]> doc_content]> (docs_dir st)) st).

(** The keys of line 486-492. *)
Definition fixed_keys : list string :=
  ["tap"; "text"; "v_swipe"; "h_swipe"; "long_press"].

(** Documentation files as this program writes them: every file has the
    five fixed keys. *)
Definition well_formed (docs : gmap string (gmap string pyval)) : Prop :=
  ∀ r doc_content, docs !! r = Some doc_content →
  ∀ k, k ∈ fixed_keys → is_Some (doc_content !! k).

(** Files and keys are kept, and the counter does not go down. *)
Definition docs_grow (st st' : state) : Prop :=
  doc_count st ≤ doc_count st' ∧
  ∀ r doc_content, docs_dir st !! r = Some doc_content →
  ∃ doc_content', docs_dir st' !! r = Some doc_content' ∧
                  dom doc_content ⊆ dom doc_content'.

Definition well_formed_kept (st st' : state) : Prop :=
  well_formed (docs_dir st) → well_formed (docs_dir st').

(** Counting the calls of one sort in a log. *)
Definition is_decide (c : call) : bool :=
  match c with Decide => true | _ => false end.
Definition is_gesture (c : call) : bool :=
  match c with Tap _ _ | LongPress _ _ | Swipe _ _ _ _ => true | _ => false end.
Definition is_reflect (c : call) : bool :=
  match c with Reflect => true | _ => false end.
Definition is_back (c : call) : bool :=
  match c with NavigateBack => true | _ => false end.

Definition count_calls (p : call → bool) (l : list call) : nat :=
  length (List.filter p l).

(** One prompt per round counted, and no call without the one before it. *)
Definition calls_counted (st : state) : Prop :=
  Z.of_nat (count_calls is_decide (calls st)) = round_count st ∧
  (count_calls is_back (calls st) ≤ count_calls is_reflect (calls st))%nat ∧
  (count_calls is_reflect (calls st) ≤ count_calls is_gesture (calls st))%nat ∧
  (count_calls is_gesture (calls st) ≤ count_calls is_decide (calls st))%nat.

(** *** Relations between the state before and after a step *)

(** [keeps R m]: running [m] takes a state to an [R]-related one, whether
    it returns or raises. *)
Definition keeps {A : Type} (R : state → state → Prop) (m : M A) : Prop :=
  ∀ st, R st (m st).2.

(** The round counter is not touched inside a round. *)
Definition same_round (st st' : state) : Prop :=
  round_count st' = round_count st.

(** [useless_list] only grows. *)
Definition useless_grows (st st' : state) : Prop :=
  useless_list st ⊆ useless_list st'.

(** A slot of the documentation that holds [old] still holds it. *)
Definition slot_kept (resource_id act_name : string) (old : pyval)
    (st st' : state) : Prop :=
  doc_slot st resource_id act_name = Some old →
  doc_slot st' resource_id act_name = Some old.

(** The log of calls is only extended. *)
Definition calls_extended (st st' : state) : Prop :=
  calls st `prefix_of` calls st'.

(** The flag is set at most by a FINISH decision of the round [e]. *)
Definition complete_by (e : round_env) (st st' : state) : Prop :=
  task_complete st' = true →
  task_complete st = true ∨
  (explore_status e = true ∧ py_index (explore_res e) 0 = Val (PStr "FINISH")).

(** ** Properties *)

(** *** Python lists *)

Lemma py_index_out_of_range {A : Type} (l : list A) (i : Z) :
  Z.of_nat (length l) ≤ i ∨ i < - Z.of_nat (length l) →
  py_index l i = Exc IndexError.
Proof.
  intros H. unfold py_index.
  destruct (i <? 0) eqn:Hi; [apply Z.ltb_lt in Hi | apply Z.ltb_ge in Hi].
  - replace (0 <=? _) with false by (symmetry; apply Z.leb_gt; lia). reflexivity.
  - replace (i <? _) with false by (symmetry; apply Z.ltb_ge; lia).
    rewrite andb_false_r. reflexivity.
Qed.

Lemma py_index_in_range {A : Type} (l : list A) (i : Z) :
  - Z.of_nat (length l) ≤ i < Z.of_nat (length l) →
  ∃ a, py_index l i = Val a.
Proof.
  intros H. unfold py_index.
  set (j := if i <? 0 then _ else _).
  assert (Hj : 0 ≤ j < Z.of_nat (length l)).
  { subst j. destruct (i <? 0) eqn:Hi;
      [apply Z.ltb_lt in Hi | apply Z.ltb_ge in Hi]; lia. }
  replace (0 <=? j) with true by (symmetry; apply Z.leb_le; lia).
  replace (j <? _) with true by (symmetry; apply Z.ltb_lt; lia).
  simpl. destruct (lookup_lt_is_Some_2 l (Z.to_nat j)) as [a Ha]; [lia|].
  rewrite Ha. eauto.
Qed.

(** Index [-1] is the last entry. *)
Lemma py_index_last {A : Type} (l : list A) (a : A) :
  py_index (l ++ [a]) (-1) = Val a.
Proof.
  unfold py_index. rewrite length_app. simpl.
  replace (-1 <? 0) with true by reflexivity.
  replace (0 <=? _) with true by (symmetry; apply Z.leb_le; lia).
  replace (_ <? _) with true by (symmetry; apply Z.ltb_lt; lia).
  simpl.
  replace (Z.to_nat _) with (length l + 0)%nat by lia.
  rewrite lookup_app_r by lia.
  replace (length l + 0 - length l)%nat with 0%nat by lia. reflexivity.
Qed.

Lemma py_index_head {A : Type} (a : A) (l : list A) :
  py_index (a :: l) 0 = Val a.
Proof.
  unfold py_index. simpl length.
  replace (0 <? 0) with false by reflexivity.
  replace (0 <=? 0) with true by reflexivity.
  replace (0 <? _) with true by (symmetry; apply Z.ltb_lt; lia).
  reflexivity.
Qed.

Lemma py_index_nonempty_last {A : Type} (a : A) (l : list A) :
  ∃ b, py_index (a :: l) (-1) = Val b.
Proof.
  apply py_index_in_range. simpl length. lia.
Qed.

(** No list fits both unpackings. *)
Lemma unpack2_then_unpack3 {A : Type} (l : list A) (p : A * A) :
  unpack2 l = Val p → unpack3 l = Exc ValueError.
Proof.
  destruct l as [|a [|b [|c l]]]; simpl; try discriminate. reflexivity.
Qed.

Lemma py_eq_true (a b : pyval) : py_eq a b = true ↔ a = b.
Proof. unfold py_eq. apply bool_decide_eq_true. Qed.

Lemma py_eq_false (a b : pyval) : py_eq a b = false ↔ a ≠ b.
Proof. unfold py_eq. apply bool_decide_eq_false. Qed.

Lemma py_eq_refl (a : pyval) : py_eq a a = true.
Proof. by apply py_eq_true. Qed.

(** *** Relations kept by every step of the loop body *)

Section Keeps.

Context (R : state → state → Prop) `{!PreOrder R}.

Lemma keeps_ret {A : Type} (a : A) : keeps R (ret a).
Proof. intros st. reflexivity. Qed.

Lemma keeps_lift {A : Type} (r : result A) : keeps R (lift r).
Proof. intros st. reflexivity. Qed.

Lemma keeps_get : keeps R get.
Proof. intros st. reflexivity. Qed.

Lemma keeps_modify (f : state → state) :
  (∀ st, R st (f st)) → keeps R (modify f).
Proof. intros H st. apply H. Qed.

Lemma keeps_bind {A B : Type} (m : M A) (k : A → M B) :
  keeps R m → (∀ a, keeps R (k a)) → keeps R (bind m k).
Proof.
  intros Hm Hk st. unfold bind.
  specialize (Hm st). destruct (m st) as [[a|e] st1]; simpl in *.
  - etransitivity; [exact Hm | apply Hk].
  - exact Hm.
Qed.

(** After [lift r] the continuation runs on the value of [r] only. *)
Lemma keeps_bind_lift {A B : Type} (r : result A) (k : A → M B) :
  (∀ a, r = Val a → keeps R (k a)) → keeps R (bind (lift r) k).
Proof.
  intros Hk st. unfold bind, lift.
  destruct r as [a|ex]; simpl; [by apply Hk | reflexivity].
Qed.

End Keeps.

Ltac keeps_step :=
  lazymatch goal with
  | |- keeps ?R (ret _) => apply (keeps_ret R)
  | |- keeps ?R (lift _) => apply (keeps_lift R)
  | |- keeps ?R get => apply (keeps_get R)
  | |- keeps ?R (bind (lift _) _) => apply (keeps_bind_lift R); intros ? ?
  | |- keeps ?R (bind _ _) => apply (keeps_bind R); [ | intros ? ]
  | |- keeps ?R (modify _) => apply (keeps_modify R); intros ?
  | |- keeps _ (if ?b then _ else _) => destruct b eqn:?
  | |- keeps _ (match ?c with _ => _ end) => destruct c eqn:?
  end.

#[local] Instance same_round_preorder : PreOrder same_round.
Proof. split; unfold same_round; [intros ?|intros ? ? ?]; congruence. Qed.

#[local] Instance useless_grows_preorder : PreOrder useless_grows.
Proof. split; unfold useless_grows; [intros ?|intros ? ? ?]; set_solver. Qed.

#[local] Instance slot_kept_preorder r a o : PreOrder (slot_kept r a o).
Proof. split; unfold slot_kept; [intros ?|intros ? ? ?]; auto. Qed.

#[local] Instance calls_extended_preorder : PreOrder calls_extended.
Proof.
  split; unfold calls_extended; [intros ?|intros ? ? ?]; [done|].
  intros; etransitivity; eauto.
Qed.

Lemma document_same_round r a d : keeps same_round (document r a d).
Proof.
  unfold document. cbv zeta.
  repeat keeps_step; reflexivity.
Qed.

Lemma round_body_same_round e : keeps same_round (round_body e).
Proof.
  unfold round_body, explore, gesture, reflect_action, reflect.
  repeat first [ apply document_same_round | keeps_step ]; reflexivity.
Qed.

Lemma document_useless_grows r a d : keeps useless_grows (document r a d).
Proof.
  unfold document. cbv zeta.
  repeat keeps_step; unfold useless_grows; simpl; set_solver.
Qed.

Lemma round_body_useless_grows e : keeps useless_grows (round_body e).
Proof.
  unfold round_body, explore, gesture, reflect_action, reflect.
  repeat first [ apply document_useless_grows | keeps_step ];
    unfold useless_grows; simpl; set_solver.
Qed.

Lemma document_calls_extended r a d : keeps calls_extended (document r a d).
Proof.
  unfold document. cbv zeta.
  repeat keeps_step; unfold calls_extended; simpl; reflexivity.
Qed.

Lemma round_body_calls_extended e : keeps calls_extended (round_body e).
Proof.
  unfold round_body, explore, gesture, reflect_action, reflect.
  repeat first [ apply document_calls_extended | keeps_step ];
    unfold calls_extended; simpl; first [ reflexivity | by apply prefix_app_r ].
Qed.

(** The write of lines 477-496 never replaces a text that is there. *)
Lemma document_slot_kept r a d r' a' old :
  truthy old = true → keeps (slot_kept r' a' old) (document r a d).
Proof.
  intros Hold st Hslot. revert Hslot.
  unfold document, doc_slot, bind, get, modify, ret, lift. cbv zeta.
  destruct (docs_dir st !! r) as [doc_content|] eqn:Hfile.
  - destruct (doc_content !! a) as [old0|] eqn:Hkey; simpl; [|done].
    destruct (truthy old0) eqn:Hold0; simpl; [done|].
    destruct (decide (r = r')) as [<-|Hr].
    + rewrite Hfile, lookup_insert_eq. simpl.
      destruct (decide (a = a')) as [<-|Ha].
      * rewrite Hkey. intros [= ->]. congruence.
      * by rewrite lookup_insert_ne.
    + by rewrite lookup_insert_ne.
  - simpl. destruct (decide (r = r')) as [<-|Hr].
    + by rewrite Hfile.
    + by rewrite lookup_insert_ne.
Qed.

Lemma round_body_slot_kept e r a old :
  truthy old = true → keeps (slot_kept r a old) (round_body e).
Proof.
  intros Hold.
  unfold round_body, explore, gesture, reflect_action, reflect.
  repeat first [ by apply document_slot_kept | keeps_step ];
    unfold slot_kept; simpl; auto.
Qed.

(** *** From the round to the loop *)

Lemma iteration_keeps (R : state → state → Prop) `{!PreOrder R} E :
  (∀ n st, R st (set_round_count n st)) →
  (∀ e, keeps R (round_body e)) →
  keeps R (iteration E).
Proof.
  intros Hn Hbody. unfold iteration.
  repeat first [ apply Hbody | keeps_step ]; apply Hn.
Qed.

Lemma loop_keeps (R : state → state → Prop) `{!PreOrder R} E :
  keeps R (iteration E) → ∀ fuel st, R st (loop fuel E st).2.
Proof.
  intros Hit fuel. induction fuel as [|fuel IH]; intros st; simpl.
  - reflexivity.
  - destruct (round_count st <? MAX_ROUNDS); [|reflexivity].
    specialize (Hit st).
    destruct (iteration E st) as [[[]|ex] st1]; simpl in *; auto.
    etransitivity; [exact Hit | apply IH].
Qed.

Lemma loop_useless_grows E fuel st :
  useless_list st ⊆ useless_list (loop fuel E st).2.
Proof.
  apply (loop_keeps useless_grows), (iteration_keeps useless_grows);
    [by unfold useless_grows | apply round_body_useless_grows].
Qed.

Lemma loop_slot_kept E fuel st r a old :
  truthy old = true →
  doc_slot st r a = Some old →
  doc_slot (loop fuel E st).2 r a = Some old.
Proof.
  intros Hold.
  apply (loop_keeps (slot_kept r a old)), (iteration_keeps (slot_kept r a old));
    [by unfold slot_kept | intros e; by apply round_body_slot_kept].
Qed.

(** A pass that goes on to the next one has run a round: the counter went
    up by one. *)
Lemma iteration_round_count E st f st' :
  iteration E st = (Val f, st') →
  (stop_set E (round_count st) = true ∧ f = LoopBreak ∧ st' = st) ∨
  (stop_set E (round_count st) = false ∧
   round_body (rounds E (next_round st)) (enter st) = (Val f, st') ∧
   round_count st' = round_count st + 1).
Proof.
  unfold iteration, bind, get, modify, ret. simpl.
  destruct (stop_set E (round_count st)).
  - intros [= <- <-]. left. auto.
  - intros H. right. split; [done|]. split; [exact H|].
    pose proof (round_body_same_round (rounds E (round_count st + 1))
                  (set_round_count (round_count st + 1) st)) as Hrc.
    unfold same_round in Hrc. rewrite H in Hrc. exact Hrc.
Qed.

Lemma iteration_continue E st st' :
  iteration E st = (Val LoopContinue, st') →
  stop_set E (round_count st) = false ∧
  round_body (rounds E (next_round st)) (enter st) = (Val LoopContinue, st') ∧
  round_count st' = round_count st + 1.
Proof.
  intros H. apply iteration_round_count in H as [(_ & [=] & _)|H]. exact H.
Qed.

(** X3.  The fuel given by [session] is never what ends the loop: with any
    larger amount the loop does the same, so the [while] always ends. *)
Lemma loop_fuel E fuel st :
  (Z.to_nat (MAX_ROUNDS - round_count st) ≤ fuel)%nat →
  loop fuel E st = loop (Z.to_nat (MAX_ROUNDS - round_count st)) E st.
Proof.
  revert st. induction fuel as [|fuel IH]; intros st Hfuel.
  - by replace (Z.to_nat _) with 0%nat by lia.
  - destruct (Z.to_nat (MAX_ROUNDS - round_count st)) as [|n] eqn:Hn; simpl.
    + replace (round_count st <? MAX_ROUNDS) with false; [done|].
      symmetry. apply Z.ltb_ge. lia.
    + destruct (round_count st <? MAX_ROUNDS); [|done].
      destruct (iteration E st) as [[[]|ex] st1] eqn:Hit; try done.
      apply iteration_continue in Hit as (_ & _ & Hrc).
      rewrite IH by lia. f_equal. lia.
Qed.

(** One pass of the loop, unfolded at a head below the maximum. *)
Lemma loop_unfold E st :
  round_count st < MAX_ROUNDS →
  loop (Z.to_nat (MAX_ROUNDS - round_count st)) E st =
  match iteration E st with
  | (Val LoopContinue, st') =>
      loop (Z.to_nat (MAX_ROUNDS - round_count st')) E st'
  | (Val LoopBreak, st') => (Val tt, st')
  | (Exc ex, st') => (Exc ex, st')
  end.
Proof.
  intros Hlt.
  destruct (Z.to_nat (MAX_ROUNDS - round_count st)) as [|n] eqn:Hn; [lia|].
  simpl. replace (round_count st <? MAX_ROUNDS) with true
    by (symmetry; apply Z.ltb_lt; lia).
  destruct (iteration E st) as [[[]|ex] st1] eqn:Hit; try done.
  apply iteration_continue in Hit as (_ & _ & Hrc).
  f_equal. lia.
Qed.

(** A head that the loop reaches is where the rest of the session starts. *)
Lemma loop_reach E st st' :
  reach E st st' →
  loop (Z.to_nat (MAX_ROUNDS - round_count st)) E st =
  loop (Z.to_nat (MAX_ROUNDS - round_count st')) E st'.
Proof.
  induction 1 as [|st st' st'' Hreach IH Hlt Hit]; [done|].
  rewrite IH, loop_unfold by done. by rewrite Hit.
Qed.

Lemma session_reach E docs st :
  reach E (init_state docs) st →
  session E docs = loop (Z.to_nat (MAX_ROUNDS - round_count st)) E st.
Proof.
  intros H. apply loop_reach in H. rewrite <- H.
  unfold session. simpl. f_equal. lia.
Qed.

(** What holds at every head the loop reaches. *)
Lemma reach_round_count E st st' :
  reach E st st' →
  round_count st ≤ round_count st' ∧
  (round_count st ≤ MAX_ROUNDS → round_count st' ≤ MAX_ROUNDS).
Proof.
  induction 1 as [|st st' st'' Hreach IH Hlt Hit]; [lia|].
  apply iteration_continue in Hit as (_ & _ & Hrc). lia.
Qed.

Lemma reach_useless_grows E st st' :
  reach E st st' → useless_list st ⊆ useless_list st'.
Proof.
  induction 1 as [|st st' st'' Hreach IH Hlt Hit]; [done|].
  etransitivity; [exact IH|].
  pose proof (iteration_keeps useless_grows E (λ _ _, reflexivity _)
                round_body_useless_grows st') as H.
  by rewrite Hit in H.
Qed.

(** *** What a round does, decision by decision *)

Ltac py_eq_eval :=
  repeat match goal with
  | |- context [py_eq ?a ?a] => rewrite (py_eq_refl a)
  | |- context [py_eq ?a ?b] =>
      let H := fresh in
      assert (H : py_eq a b = false) by (apply py_eq_false; congruence);
      rewrite H; clear H
  end.

Ltac run_round :=
  unfold round_body, explore, gesture, reflect_action, reflect,
         bind, ret, lift, get, modify; simpl.


(** Lines 316-318: FINISH. *)
Lemma round_finish e st rest :
  explore_status e = true →
  explore_res e = PStr "FINISH" :: rest →
  ∃ last,
    py_index (explore_res e) (-1) = Val last ∧
    round_body e st =
      (Val LoopBreak, set_task_complete true (decided last st)).
Proof.
  intros Hs Hres.
  destruct (py_index_nonempty_last (PStr "FINISH") rest) as [last Hlast].
  exists last. rewrite Hres. split; [done|].
  run_round. rewrite Hs, Hres, py_index_head, Hlast. by py_eq_eval.
Qed.

(** Lines 382-383: an action that is none of tap, long_press and swipe
    leaves the loop; the branch of line 412 is never reached. *)
Lemma round_other_action e st act rest :
  explore_status e = true →
  explore_res e = act :: rest →
  act ≠ PStr "FINISH" → act ≠ PStr "tap" →
  act ≠ PStr "long_press" → act ≠ PStr "swipe" →
  ∃ last,
    py_index (explore_res e) (-1) = Val last ∧
    round_body e st = (Val LoopBreak, decided last st).
Proof.
  intros Hs Hres H1 H2 H3 H4.
  destruct (py_index_nonempty_last act rest) as [last Hlast].
  exists last. rewrite Hres. split; [done|].
  run_round. rewrite Hs, Hres, py_index_head, Hlast.
  apply py_eq_false in H1, H2, H3, H4. by rewrite H1, H2, H3, H4.
Qed.

(** Lines 319-381 for a tap or a long press whose element resolves: the
    gesture is sent to the centre of the element; a driver error leaves the
    loop, otherwise the round goes on to the reflection. *)
Lemma round_acts_on e st kind area elem :
  acts_on e st kind area elem →
  ∃ last,
    explore_res e = [PStr kind; PInt area; last] ∧
    round_body e st =
      let st1 := log (performed kind (center elem)) (decided last st) in
      if is_error (gesture_ret e) then (Val LoopBreak, st1)
      else reflect e (elem_list (useless_list st) (node_elems e)) kind area st1.
Proof.
  intros (Hs & Hkind & [last Hres] & Helem).
  exists last. split; [done|].
  unfold round_body, explore, gesture, reflect_action,
         bind, ret, lift, get, modify.
  rewrite Hs, Hres, py_index_head.
  change [PStr kind; PInt area; last] with ([PStr kind; PInt area] ++ [last])%list.
  rewrite py_index_last. simpl.
  destruct Hkind as [-> | ->]; py_eq_eval; simpl; rewrite Helem;
    destruct (is_error (gesture_ret e)); reflexivity.
Qed.

(** The documentation step on a slot that holds a text does nothing. *)
Lemma document_skip r a d st old :
  doc_slot st r a = Some old → truthy old = true →
  document r a d st = (Val LoopContinue, st).
Proof.
  unfold doc_slot, document, bind, get, ret. cbv zeta.
  destruct (docs_dir st !! r) as [doc_content|]; simpl; [|done].
  intros -> ->. reflexivity.
Qed.

(** The documentation step on a slot that is empty, or on an element that
    has no file, writes the text and counts it. *)
Lemma document_write r a d st :
  (docs_dir st !! r = None ∨
   ∃ old, doc_slot st r a = Some old ∧ truthy old = false) →
  ∃ st', document r a d st = (Val LoopContinue, st') ∧
         doc_slot st' r a = Some d ∧
         doc_count st' = doc_count st + 1 ∧
         useless_list st' = useless_list st ∧
         calls st' = calls st.
Proof.
  unfold doc_slot, document, bind, get, ret, modify. cbv zeta.
  intros [Hnone | (old & Hslot & Hold)].
  - rewrite Hnone. eexists; split; [reflexivity|]. simpl.
    rewrite lookup_insert_eq. simpl. by rewrite lookup_insert_eq.
  - destruct (docs_dir st !! r) as [doc_content|]; simpl in *; [|done].
    rewrite Hslot, Hold. eexists; split; [reflexivity|]. simpl.
    rewrite lookup_insert_eq. simpl. by rewrite lookup_insert_eq.
Qed.

(** [document] touches nothing but the files and their count. *)
Lemma document_frame r a d st :
  useless_list (document r a d st).2 = useless_list st ∧
  last_act (document r a d st).2 = last_act st ∧
  calls (document r a d st).2 = calls st.
Proof.
  unfold document, bind, get, ret, modify, lift. cbv zeta.
  destruct (docs_dir st !! r) as [doc_content|]; simpl; [|done].
  destruct (doc_content !! a) as [old|]; simpl; [|done].
  by destruct (truthy old).
Qed.

Section Reflection.

Variables (e : round_env) (elems : list UIElement) (kind : string)
          (area : Z) (elem : UIElement) (verdict : string).
Hypothesis Hstatus : reflect_status e = true.
Hypothesis Helem : py_index elems (area - 1) = Val elem.
Hypothesis Hverdict : py_index (reflect_res e) 0 = Val (PStr verdict).

Lemma reflect_res_last : ∃ doc, py_index (reflect_res e) (-1) = Val doc.
Proof.
  destruct (reflect_res e) as [|v l] eqn:Hres; [discriminate|].
  apply py_index_nonempty_last.
Qed.


Lemma reflect_ineffective st :
  verdict = "INEFFECTIVE" →
  reflect e elems kind area st =
    (Val LoopContinue, mark_useless (uid elem) (log Reflect st)).
Proof.
  intros Hv. unfold reflect, bind, ret, lift, modify.
  rewrite Hstatus, Helem, Hverdict, Hv. by py_eq_eval.
Qed.

Lemma reflect_back st :
  verdict = "BACK" →
  ∃ doc, py_index (reflect_res e) (-1) = Val doc ∧
  reflect e elems kind area st =
    let st1 := log NavigateBack (mark_useless (uid elem) (log Reflect st)) in
    if is_error (back_ret e) then (Val LoopBreak, st1)
    else document (uid elem) kind doc st1.
Proof.
  intros Hv. destruct reflect_res_last as [doc Hdoc]. exists doc.
  split; [done|].
  unfold reflect, bind, ret, lift, modify.
  rewrite Hstatus, Helem, Hverdict, Hv. py_eq_eval. simpl.
  destruct (is_error (back_ret e)); [done|]. by rewrite Hdoc.
Qed.

Lemma reflect_continue st :
  verdict = "CONTINUE" →
  ∃ doc, py_index (reflect_res e) (-1) = Val doc ∧
  reflect e elems kind area st =
    document (uid elem) kind doc (mark_useless (uid elem) (log Reflect st)).
Proof.
  intros Hv. destruct reflect_res_last as [doc Hdoc]. exists doc.
  split; [done|].
  unfold reflect, bind, ret, lift, modify.
  rewrite Hstatus, Helem, Hverdict, Hv. py_eq_eval. simpl. by rewrite Hdoc.
Qed.

Lemma reflect_success st :
  verdict = "SUCCESS" →
  ∃ doc, py_index (reflect_res e) (-1) = Val doc ∧
  reflect e elems kind area st =
    document (uid elem) kind doc (log Reflect st).
Proof.
  intros Hv. destruct reflect_res_last as [doc Hdoc]. exists doc.
  split; [done|].
  unfold reflect, bind, ret, lift, modify.
  rewrite Hstatus, Helem, Hverdict, Hv. py_eq_eval. simpl. by rewrite Hdoc.
Qed.

End Reflection.

(** *** The task-complete flag *)

#[local] Instance complete_by_preorder e : PreOrder (complete_by e).
Proof.
  split; unfold complete_by; [intros ?; auto|intros s1 s2 s3 H12 H23 H].
  destruct (H23 H); auto.
Qed.

Lemma document_complete_by e r a d : keeps (complete_by e) (document r a d).
Proof.
  unfold document. cbv zeta.
  repeat keeps_step; unfold complete_by; auto.
Qed.

(** Only a FINISH decision sets the flag. *)
Lemma round_task_complete e : keeps (complete_by e) (round_body e).
Proof.
  unfold round_body, explore, gesture, reflect_action, reflect.
  repeat first [ apply document_complete_by | keeps_step ];
    unfold complete_by; simpl; auto.
  intros _. right. split; [done|].
  match goal with H : py_eq _ (PStr "FINISH") = true |- _ =>
    apply py_eq_true in H; subst end.
  done.
Qed.

(** A round that goes on to the next one has not set the flag. *)
Lemma round_continue_incomplete e st st' :
  task_complete st = false →
  round_body e st = (Val LoopContinue, st') →
  task_complete st' = false.
Proof.
  intros Htc Hround.
  destruct (task_complete st') eqn:Htc'; [|done].
  pose proof (round_task_complete e st) as H. unfold complete_by in H.
  rewrite Hround in H. destruct (H Htc') as [H1|[Hs Hact]]; [congruence|].
  destruct (explore_res e) as [|act rest] eqn:Hres; [discriminate|].
  rewrite py_index_head in Hact. injection Hact as ->.
  destruct (round_finish e st rest Hs Hres) as (last & _ & Hfin).
  congruence.
Qed.

Lemma reach_incomplete E docs st :
  reach E (init_state docs) st → task_complete st = false.
Proof.
  remember (init_state docs) as st0 eqn:Hst0.
  induction 1 as [|st st' st'' Hreach IH Hlt Hit]; [by subst|].
  apply iteration_continue in Hit as (_ & Hround & _).
  eapply round_continue_incomplete; [|exact Hround]. by apply IH.
Qed.

(** *** The session from a head that the loop reaches *)

(** The session is decided by the round entered from a reached head when
    that round leaves the loop or raises. *)
Lemma session_last_round E docs st :
  reach E (init_state docs) st →
  round_count st < MAX_ROUNDS →
  stop_set E (round_count st) = false →
  match round_body (rounds E (next_round st)) (enter st) with
  | (Val LoopBreak, st') => session E docs = (Val tt, st')
  | (Exc ex, st') => session E docs = (Exc ex, st')
  | (Val LoopContinue, st') => reach E (init_state docs) st'
  end.
Proof.
  intros Hreach Hlt Hstop.
  assert (Hit : iteration E st =
                round_body (rounds E (next_round st)) (enter st)).
  { unfold iteration, bind, get, modify. simpl. by rewrite Hstop. }
  destruct (round_body _ _) as [[[]|ex] st'] eqn:Hround.
  - eapply reach_round; eauto.
  - rewrite (session_reach E docs st Hreach), loop_unfold by done.
    by rewrite Hit.
  - rewrite (session_reach E docs st Hreach), loop_unfold by done.
    by rewrite Hit.
Qed.

Lemma run_exploration_report E docs st :
  session E docs = (Val tt, st) → run_exploration E docs = report st.
Proof. unfold run_exploration. by intros ->. Qed.

Lemma run_exploration_error E docs ex st :
  session E docs = (Exc ex, st) →
  run_exploration E docs = [("status", JStr "error"); ("message", JError ex)].
Proof. unfold run_exploration. by intros ->. Qed.

(** *** FINISH, text and unresolved indices *)

(** C4.  When the model answers FINISH in the round entered from a head
    that the loop has reached, the session ends there: the round counter is
    the number of that round, [task_complete] is set, the exploration
    prompt is the only call of the round (no gesture, no reflection), and
    the result reports the status "success". *)
Theorem C4_finish_ends_session E docs st rest :
  reach E (init_state docs) st →
  round_count st < MAX_ROUNDS →
  stop_set E (round_count st) = false →
  explore_status (rounds E (next_round st)) = true →
  explore_res (rounds E (next_round st)) = PStr "FINISH" :: rest →
  ∃ st',
    session E docs = (Val tt, st') ∧
    round_count st' = next_round st ∧
    task_complete st' = true ∧
    calls st' = (calls st ++ [Decide])%list ∧
    docs_dir st' = docs_dir st ∧
    run_exploration E docs =
      [("status", JStr "success"); ("task_complete", JBool true);
       ("rounds", JInt (next_round st));
       ("docs_generated", JInt (doc_count st))].
Proof.
  intros Hreach Hlt Hstop Hs Hres.
  pose proof (session_last_round E docs st Hreach Hlt Hstop) as Hlast.
  destruct (round_finish _ (enter st) rest Hs Hres) as (last & _ & Hround).
  rewrite Hround in Hlast.
  eexists. split; [exact Hlast|].
  repeat split. by rewrite (run_exploration_report _ _ _ Hlast).
Qed.

(** C1, as the code has it.  A [text] decision takes the [else: break] of
    line 382: the session ends in that round with the status "incomplete".
    The exploration prompt is the only call of the round (no reflection)
    and no documentation is written, but the loop does not go on to the
    next round: the [continue] of line 413 is never reached. *)
Theorem C1_text_decision_ends_session E docs st rest :
  reach E (init_state docs) st →
  round_count st < MAX_ROUNDS →
  stop_set E (round_count st) = false →
  explore_status (rounds E (next_round st)) = true →
  explore_res (rounds E (next_round st)) = PStr "text" :: rest →
  ∃ st',
    session E docs = (Val tt, st') ∧
    round_count st' = next_round st ∧
    task_complete st' = false ∧
    calls st' = (calls st ++ [Decide])%list ∧
    docs_dir st' = docs_dir st ∧
    run_exploration E docs =
      [("status", JStr "incomplete"); ("task_complete", JBool false);
       ("rounds", JInt (next_round st));
       ("docs_generated", JInt (doc_count st))].
Proof.
  intros Hreach Hlt Hstop Hs Hres.
  pose proof (session_last_round E docs st Hreach Hlt Hstop) as Hlast.
  pose proof (reach_incomplete E docs st Hreach) as Htc.
  destruct (round_other_action _ (enter st) _ rest Hs Hres)
    as (last & _ & Hround); try congruence.
  rewrite Hround in Hlast. eexists. split; [exact Hlast|].
  repeat split; [done|].
  rewrite (run_exploration_report _ _ _ Hlast). unfold report. simpl.
  by rewrite Htc.
Qed.

(** An index that Python's list indexing refuses, or a wrong number of
    fields, raises in the round before any gesture. *)
Lemma round_index_out_of_range e st kind area rest :
  explore_status e = true →
  explore_res e = PStr kind :: PInt area :: rest →
  kind = "tap" ∨ kind = "long_press" ∨ kind = "swipe" →
  (let n := Z.of_nat (length (elem_list (useless_list st) (node_elems e))) in
   n < area ∨ area ≤ - n) →
  ∃ ex last, round_body e st = (Exc ex, decided last st).
Proof.
  intros Hs Hres Hkind Hrange.
  destruct (py_index_nonempty_last (PStr kind) (PInt area :: rest))
    as [last Hlast].
  assert (Hidx : py_index (elem_list (useless_list st) (node_elems e))
                   (area - 1) = Exc IndexError).
  { apply py_index_out_of_range. simpl in Hrange. lia. }
  unfold round_body, explore, bind, ret, lift, get, modify.
  rewrite Hs, Hres, py_index_head, Hlast.
  assert (Hact : py_eq (PStr kind) (PStr "FINISH") = false).
  { apply py_eq_false. destruct Hkind as [->|[->| ->]]; congruence. }
  assert (Hin : py_eq (PStr kind) (PStr "tap")
                || py_eq (PStr kind) (PStr "long_press")
                || py_eq (PStr kind) (PStr "swipe") = true).
  { destruct Hkind as [->|[->| ->]]; py_eq_eval; reflexivity. }
  rewrite Hact, Hin.
  destruct rest as [|v [|w rest]]; simpl.
  - eauto.
  - unfold decided in *. simpl in *. rewrite Hidx. eauto.
  - destruct rest; simpl; eauto.
Qed.

(** C5.  A tap, long_press or swipe decision whose element index Python's
    indexing does not resolve in the round's element list (an index above
    the length of the list, or at most minus the length) raises inside the
    round: the session ends there without a gesture and without another
    round, and the result has the status "error". *)
Theorem C5_unresolved_index_is_error E docs st kind area rest :
  reach E (init_state docs) st →
  round_count st < MAX_ROUNDS →
  stop_set E (round_count st) = false →
  explore_status (rounds E (next_round st)) = true →
  explore_res (rounds E (next_round st)) = PStr kind :: PInt area :: rest →
  kind = "tap" ∨ kind = "long_press" ∨ kind = "swipe" →
  (let n := Z.of_nat (length (elem_list (useless_list st)
                                (node_elems (rounds E (next_round st))))) in
   n < area ∨ area ≤ - n) →
  ∃ ex st',
    session E docs = (Exc ex, st') ∧
    round_count st' = next_round st ∧
    calls st' = (calls st ++ [Decide])%list ∧
    run_exploration E docs =
      [("status", JStr "error"); ("message", JError ex)].
Proof.
  intros Hreach Hlt Hstop Hs Hres Hkind Hrange.
  pose proof (session_last_round E docs st Hreach Hlt Hstop) as Hlast.
  destruct (round_index_out_of_range _ (enter st) kind area rest Hs Hres
              Hkind Hrange) as (ex & last & Hround).
  rewrite Hround in Hlast. exists ex. eexists. split; [exact Hlast|].
  repeat split. by rewrite (run_exploration_error _ _ _ _ Hlast).
Qed.

(** *** Swipe decisions and index 0 *)

(** X1.  Line 320 wants two fields in [res] and line 358 wants three: a
    swipe decision raises before the driver is called, whatever its fields;
    the prompt is the only call of the round. *)
Lemma round_swipe_raises e st rest :
  explore_status e = true →
  explore_res e = PStr "swipe" :: rest →
  ∃ ex last, round_body e st = (Exc ex, decided last st).
Proof.
  intros Hs Hres.
  destruct (py_index_nonempty_last (PStr "swipe") rest) as [last Hlast].
  unfold round_body, explore, gesture, bind, ret, lift, get, modify.
  rewrite Hs, Hres, py_index_head, Hlast. py_eq_eval. simpl orb. cbv iota.
  destruct rest as [|v [|w [|u rest]]]; simpl; eauto.
  destruct v as [s0|n]; simpl; eauto.
  destruct (py_index (elem_list _ _) _); simpl; eauto.
Qed.

(** With index 0 the element looked up is the last of the list. *)
Lemma index_zero_is_last (elems : list UIElement) (elem : UIElement) :
  py_index (elems ++ [elem]) (0 - 1) = Val elem.
Proof. apply py_index_last. Qed.

Lemma reflect_calls_extended e elems kind area :
  keeps calls_extended (reflect e elems kind area).
Proof.
  unfold reflect.
  repeat first [ apply document_calls_extended | keeps_step ];
    unfold calls_extended; simpl;
    first [ reflexivity | by apply prefix_app_r ].
Qed.

(** The calls of a round that acts on an element begin with the prompt and
    the gesture at the centre of that element. *)
Lemma round_acts_on_calls e st kind area elem :
  acts_on e st kind area elem →
  (calls st ++ [Decide; performed kind (center elem)])%list
    `prefix_of` calls (round_body e st).2.
Proof.
  intros Hacts.
  destruct (round_acts_on e st kind area elem Hacts) as (last & _ & Hround).
  rewrite Hround. cbv zeta.
  destruct (is_error (gesture_ret e)).
  - simpl. by rewrite <- app_assoc.
  - set (st1 := log _ _).
    etransitivity; [|apply reflect_calls_extended].
    subst st1. simpl. by rewrite <- app_assoc.
Qed.

(** X2.  A tap or long press with index 0 is carried out on the last
    element of the round's list: [elem_list[0 - 1]] is Python's last entry. *)
Lemma round_index_zero e st kind elems elem last :
  explore_status e = true →
  kind = "tap" ∨ kind = "long_press" →
  explore_res e = [PStr kind; PInt 0; last] →
  elem_list (useless_list st) (node_elems e) = (elems ++ [elem])%list →
  (calls st ++ [Decide; performed kind (center elem)])%list
    `prefix_of` calls (round_body e st).2.
Proof.
  intros Hs Hkind Hres Hlist.
  apply (round_acts_on_calls e st kind 0 elem).
  split; [done|]. split; [done|]. split; [eauto|].
  rewrite Hlist. apply index_zero_is_last.
Qed.

(** *** Documentation *)

(** A round whose action falls on a slot that already holds a text leaves
    the files and the counter as they are. *)
Lemma reflect_documented e elems kind area elem st old :
  py_index elems (area - 1) = Val elem →
  doc_slot st (uid elem) kind = Some old →
  truthy old = true →
  docs_dir (reflect e elems kind area st).2 = docs_dir st ∧
  doc_count (reflect e elems kind area st).2 = doc_count st.
Proof.
  intros Helem Hslot Hold.
  unfold reflect, bind, ret, lift, modify. rewrite Helem.
  repeat match goal with
         | |- context [if ?b then _ else _] => destruct b eqn:?
         | |- context [match py_index ?l ?i with _ => _ end] =>
             destruct (py_index l i) eqn:?
         end; simpl; try done;
    (erewrite document_skip; [done | exact Hslot | exact Hold]).
Qed.

Lemma round_documented e st kind area elem old :
  acts_on e st kind area elem →
  doc_slot st (uid elem) kind = Some old →
  truthy old = true →
  docs_dir (round_body e st).2 = docs_dir st ∧
  doc_count (round_body e st).2 = doc_count st.
Proof.
  intros Hacts Hslot Hold.
  pose proof Hacts as (_ & _ & _ & Helem).
  destruct (round_acts_on e st kind area elem Hacts) as (last & _ & Hround).
  rewrite Hround. cbv zeta.
  destruct (is_error (gesture_ret e)); [done|].
  set (st1 := log _ _).
  assert (Hslot1 : doc_slot st1 (uid elem) kind = Some old) by exact Hslot.
  by destruct (reflect_documented e _ kind area elem st1 old Helem Hslot1 Hold)
    as [-> ->].
Qed.

(** C2.  Once the slot of a uid and an action kind holds a non-empty text,
    (1) the text is still there when the loop ends, however many rounds
    follow; (2) a later round that acts on the same element with the same
    action kind leaves the documentation files and the documentation
    counter unchanged, whatever the verdict and the new text; (3) the write
    itself is skipped. *)
Theorem C2_documented_slot_is_not_rewritten resource_id act_name old st :
  doc_slot st resource_id act_name = Some old →
  truthy old = true →
  (∀ E fuel, doc_slot (loop fuel E st).2 resource_id act_name = Some old) ∧
  (∀ e area elem,
     acts_on e st act_name area elem → uid elem = resource_id →
     docs_dir (round_body e st).2 = docs_dir st ∧
     doc_count (round_body e st).2 = doc_count st) ∧
  (∀ doc, document resource_id act_name doc st = (Val LoopContinue, st)).
Proof.
  intros Hslot Hold. split; [|split].
  - intros E fuel. by apply loop_slot_kept.
  - intros e area elem Hacts <-.
    by apply (round_documented e st act_name area elem old).
  - intros doc. by apply (document_skip _ _ _ _ old).
Qed.

(** *** The uninteresting set *)

Lemma round_marks_useless e st kind area elem verdict :
  acts_on e st kind area elem →
  judged e verdict →
  verdict = "INEFFECTIVE" ∨ verdict = "BACK" ∨ verdict = "CONTINUE" →
  uid elem ∈ useless_list (round_body e st).2.
Proof.
  intros Hacts (Hok & Hstatus & Hverdict) Hv.
  pose proof Hacts as (_ & _ & _ & Helem).
  destruct (round_acts_on e st kind area elem Hacts) as (last & _ & Hround).
  rewrite Hround, Hok. cbv zeta. set (st1 := log _ _).
  destruct Hv as [Hv|[Hv|Hv]].
  - rewrite (reflect_ineffective e _ kind area elem verdict Hstatus Helem
               Hverdict st1 Hv).
    simpl. set_solver.
  - destruct (reflect_back e _ kind area elem verdict Hstatus Helem
                Hverdict st1 Hv) as (doc & _ & ->).
    cbv zeta. destruct (is_error (back_ret e)).
    + simpl. set_solver.
    + destruct (document_frame (uid elem) kind doc
                  (log NavigateBack (mark_useless (uid elem) (log Reflect st1))))
        as (-> & _). simpl. set_solver.
  - destruct (reflect_continue e _ kind area elem verdict Hstatus Helem
                Hverdict st1 Hv) as (doc & _ & ->).
    destruct (document_frame (uid elem) kind doc
                (mark_useless (uid elem) (log Reflect st1))) as (-> & _).
    simpl. set_solver.
Qed.

Lemma round_success_keeps_useless e st kind area elem :
  acts_on e st kind area elem →
  judged e "SUCCESS" →
  useless_list (round_body e st).2 = useless_list st.
Proof.
  intros Hacts (Hok & Hstatus & Hverdict).
  pose proof Hacts as (_ & _ & _ & Helem).
  destruct (round_acts_on e st kind area elem Hacts) as (last & _ & Hround).
  rewrite Hround, Hok. cbv zeta. set (st1 := log _ _).
  destruct (reflect_success e _ kind area elem "SUCCESS" Hstatus Helem
              Hverdict st1 eq_refl) as (doc & _ & ->).
  by destruct (document_frame (uid elem) kind doc (log Reflect st1))
    as (-> & _).
Qed.

Lemma elem_list_excludes useless elems elem :
  elem ∈ elem_list useless elems → (uid elem ∉ useless) ∧ (elem ∈ elems).
Proof. unfold elem_list. by rewrite list_elem_of_filter. Qed.

(** C3.  (1) A verdict INEFFECTIVE, BACK or CONTINUE on the element acted
    on puts its uid in [useless_list]; (2) a verdict SUCCESS leaves
    [useless_list] as it was; (3, 4) no round and no run of the loop
    removes a uid from it; (5) whatever the set holds at some head of the
    loop is absent from the element list of every round entered from that
    head or a later one. *)
Theorem C3_useless_list_is_append_only_and_filters E :
  (∀ e st kind area elem verdict,
     acts_on e st kind area elem → judged e verdict →
     verdict = "INEFFECTIVE" ∨ verdict = "BACK" ∨ verdict = "CONTINUE" →
     uid elem ∈ useless_list (round_body e st).2) ∧
  (∀ e st kind area elem,
     acts_on e st kind area elem → judged e "SUCCESS" →
     useless_list (round_body e st).2 = useless_list st) ∧
  (∀ e st, useless_list st ⊆ useless_list (round_body e st).2) ∧
  (∀ fuel st, useless_list st ⊆ useless_list (loop fuel E st).2) ∧
  (∀ st st' e elem,
     reach E st st' →
     elem ∈ elem_list (useless_list (enter st')) (node_elems e) →
     uid elem ∉ useless_list st).
Proof.
  repeat split.
  - intros. by eapply round_marks_useless.
  - intros e st kind area elem Hacts Hj.
    by apply (round_success_keeps_useless e st kind area elem).
  - intros e st. apply round_body_useless_grows.
  - intros fuel st. apply loop_useless_grows.
  - intros st st' e elem Hreach Hin.
    apply elem_list_excludes in Hin as [Hnotin _]. simpl in Hnotin.
    apply reach_useless_grows in Hreach. set_solver.
Qed.

(** *** The round counter and the stop request *)

(** A pass that starts a round has counted it, however the round ends. *)
Lemma iteration_starts_round E st :
  stop_set E (round_count st) = false →
  iteration E st = round_body (rounds E (next_round st)) (enter st) ∧
  round_count (iteration E st).2 = round_count st + 1.
Proof.
  intros Hstop.
  assert (Hit : iteration E st =
                round_body (rounds E (next_round st)) (enter st)).
  { unfold iteration, bind, get, modify. simpl. by rewrite Hstop. }
  split; [done|]. rewrite Hit.
  apply (round_body_same_round (rounds E (next_round st)) (enter st)).
Qed.

Lemma iteration_stopped E st :
  stop_set E (round_count st) = true →
  iteration E st = (Val LoopBreak, st).
Proof.
  intros Hstop. unfold iteration, bind, get, ret. simpl. by rewrite Hstop.
Qed.

Lemma iteration_round_bounds E st :
  round_count st ≤ round_count (iteration E st).2 ≤ round_count st + 1.
Proof.
  destruct (stop_set E (round_count st)) eqn:Hstop.
  - rewrite iteration_stopped by done. simpl. lia.
  - destruct (iteration_starts_round E st Hstop) as [_ ->]. lia.
Qed.

Lemma loop_round_bounds E fuel st :
  round_count st ≤ MAX_ROUNDS →
  round_count st ≤ round_count (loop fuel E st).2 ≤ MAX_ROUNDS.
Proof.
  revert st. induction fuel as [|fuel IH]; intros st Hle; simpl; [lia|].
  destruct (round_count st <? MAX_ROUNDS) eqn:Hlt; simpl; [|lia].
  apply Z.ltb_lt in Hlt.
  pose proof (iteration_round_bounds E st) as Hb.
  destruct (iteration E st) as [[[]|ex] st1]; simpl in *; try lia.
  specialize (IH st1). lia.
Qed.

(** Without a FINISH decision the flag stays as it is. *)
Lemma loop_no_finish E fuel st :
  (∀ k, py_index (explore_res (rounds E k)) 0 ≠ Val (PStr "FINISH")) →
  task_complete st = false →
  task_complete (loop fuel E st).2 = false.
Proof.
  intros Hno. revert st. induction fuel as [|fuel IH]; intros st Htc; simpl;
    [done|].
  destruct (round_count st <? MAX_ROUNDS); [|done].
  assert (Hit : task_complete (iteration E st).2 = false).
  { destruct (stop_set E (round_count st)) eqn:Hstop.
    - by rewrite iteration_stopped.
    - destruct (iteration_starts_round E st Hstop) as [-> _].
      destruct (task_complete (round_body _ _).2) eqn:Htc'; [|done].
      destruct (round_task_complete _ _ Htc') as [H|[_ H]].
      + simpl in H. congruence.
      + by apply Hno in H. }
  destruct (iteration E st) as [[[]|ex] st1]; simpl in *; auto.
Qed.

(** C8.  With a maximum that is not negative: (1) the counter starts at 0;
    (2) a pass of the loop that starts a round adds exactly 1 to it, and
    (3) nothing inside the round changes it; (4) at every head the loop
    reaches and (5) when the session ends the counter lies between 0 and
    the maximum; (6) when the loop ends with the counter at the maximum and
    no round has decided FINISH, the result has the status "incomplete"
    and [task_complete] false. *)
Theorem C8_round_counter E docs :
  0 ≤ MAX_ROUNDS →
  round_count (init_state docs) = 0 ∧
  (∀ st, stop_set E (round_count st) = false →
         round_count (iteration E st).2 = round_count st + 1) ∧
  (∀ e st, round_count (round_body e st).2 = round_count st) ∧
  (∀ st, reach E (init_state docs) st → 0 ≤ round_count st ≤ MAX_ROUNDS) ∧
  0 ≤ round_count (session E docs).2 ≤ MAX_ROUNDS ∧
  (∀ st,
     session E docs = (Val tt, st) →
     round_count st = MAX_ROUNDS →
     (∀ k, py_index (explore_res (rounds E k)) 0 ≠ Val (PStr "FINISH")) →
     run_exploration E docs =
       [("status", JStr "incomplete"); ("task_complete", JBool false);
        ("rounds", JInt MAX_ROUNDS);
        ("docs_generated", JInt (doc_count st))]).
Proof.
  intros Hmax. split; [done|]. split; [|split; [|split; [|split]]].
  - intros st Hstop. by destruct (iteration_starts_round E st Hstop).
  - intros e st. apply round_body_same_round.
  - intros st Hreach. apply reach_round_count in Hreach. simpl in Hreach. lia.
  - pose proof (loop_round_bounds E (Z.to_nat MAX_ROUNDS) (init_state docs))
      as H. simpl in H. unfold session. lia.
  - intros st Hsession Hrc Hno.
    rewrite (run_exploration_report _ _ _ Hsession). unfold report.
    pose proof (loop_no_finish E (Z.to_nat MAX_ROUNDS) (init_state docs) Hno
                  eq_refl) as Htc.
    unfold session in Hsession. rewrite Hsession in Htc. simpl in Htc.
    by rewrite Htc, Hrc.
Qed.

(** C7.  A stop request that is raised while round [k] runs is read at the
    head of the loop only: the session ends with exactly what round [k]
    produced (its whole state if it ran to its end or left the loop, its
    exception if it raised), the counter is [k], and a result that reports
    rounds reports [k]. *)
Theorem C7_stop_waits_for_the_round E docs st :
  reach E (init_state docs) st →
  round_count st < MAX_ROUNDS →
  stop_set E (round_count st) = false →
  stop_set E (next_round st) = true →
  let o := round_body (rounds E (next_round st)) (enter st) in
  session E docs =
    (match o.1 with Val _ => Val tt | Exc ex => Exc ex end, o.2) ∧
  round_count o.2 = next_round st ∧
  (∀ f, o.1 = Val f →
        dict_get "rounds" (run_exploration E docs) =
          Some (JInt (next_round st))).
Proof.
  intros Hreach Hlt Hstop Hnext o.
  assert (Hrc : round_count o.2 = next_round st).
  { apply (round_body_same_round (rounds E (next_round st)) (enter st)). }
  assert (Hsession : session E docs =
            (match o.1 with Val _ => Val tt | Exc ex => Exc ex end, o.2)).
  { pose proof (session_last_round E docs st Hreach Hlt Hstop) as Hlast.
    fold o in Hlast. destruct o as [[[]|ex] st'] eqn:Ho; simpl in *; try done.
    rewrite (session_reach E docs st' Hlast).
    destruct (Z.to_nat (MAX_ROUNDS - round_count st')) as [|n] eqn:Hn;
      simpl; [done|].
    destruct (round_count st' <? MAX_ROUNDS); [|done].
    rewrite iteration_stopped; [done|]. by rewrite Hrc. }
  split; [done|]. split; [done|].
  intros f Hf. unfold run_exploration. rewrite Hsession, Hf.
  unfold conclude, report, dict_get. simpl. by rewrite Hrc.
Qed.

(** *** The interaction point *)

#[local] Instance no_gesture_preorder : PreOrder no_gesture.
Proof.
  split.
  - intros st. exists []. split; [by rewrite app_nil_r | constructor].
  - intros s1 s2 s3 (l1 & H1 & F1) (l2 & H2 & F2).
    exists (l1 ++ l2)%list. split.
    + by rewrite H2, H1, app_assoc.
    + by apply Forall_app.
Qed.

Lemma no_gesture_log c st :
  gesture_point c = None → no_gesture st (log c st).
Proof. intros H. exists [c]. split; [done|]. by constructor. Qed.

Lemma no_gesture_same st st' : calls st' = calls st → no_gesture st st'.
Proof. intros H. exists []. split; [by rewrite app_nil_r | constructor]. Qed.

Lemma document_no_gesture r a d : keeps no_gesture (document r a d).
Proof.
  unfold document. cbv zeta.
  repeat keeps_step; by apply no_gesture_same.
Qed.

Lemma reflect_no_gesture e elems kind area :
  keeps no_gesture (reflect e elems kind area).
Proof.
  unfold reflect.
  repeat first [ apply document_no_gesture | keeps_step ];
    first [ by apply no_gesture_log | by apply no_gesture_same ].
Qed.

Lemma reflect_action_no_gesture act res : keeps no_gesture (reflect_action act res).
Proof. unfold reflect_action. repeat keeps_step. Qed.

(** What the first stage of a round logs: the prompt, and after it a
    gesture only when a tap or long press resolves to an element, at the
    centre of that element. *)
Lemma explore_calls e elems st :
  calls (explore e elems st).2 = (calls st ++ [Decide])%list ∨
  ∃ kind area elem last,
    explore_status e = true ∧
    (kind = "tap" ∨ kind = "long_press") ∧
    explore_res e = [PStr kind; PInt area; last] ∧
    py_index elems (area - 1) = Val elem ∧
    calls (explore e elems st).2 =
      (calls st ++ [Decide; performed kind (center elem)])%list.
Proof.
  unfold explore, gesture, bind, ret, lift, modify.
  destruct (explore_status e) eqn:Hs; [|by left].
  destruct (explore_res e) as [|act [|b [|c [|d rest]]]] eqn:Hres.
  - by left.
  - rewrite py_index_head.
    destruct (py_index_nonempty_last act []) as [last ->].
    destruct (py_eq act (PStr "FINISH")); [by left|].
    destruct (_ || _); by left.
  - rewrite py_index_head.
    destruct (py_index_nonempty_last act [b]) as [last ->].
    destruct (py_eq act (PStr "FINISH")); [by left|].
    destruct (_ || _); by left.
  - rewrite py_index_head.
    change [act; b; c] with ([act; b] ++ [c])%list.
    rewrite py_index_last.
    change (py_init ([act; b] ++ [c])%list) with [act; b].
    destruct (py_eq act (PStr "FINISH")); [by left|].
    destruct (py_eq act (PStr "tap")) eqn:Htap.
    + apply py_eq_true in Htap as ->. simpl.
      destruct b as [s0|area]; simpl; [by left|].
      destruct (py_index elems (area - 1)) as [elem|ex] eqn:Helem;
        simpl; [|by left].
      right. exists "tap", area, elem, c.
      repeat split; auto.
      destruct (is_error (gesture_ret e)); simpl; by rewrite <- app_assoc.
    + destruct (py_eq act (PStr "long_press")) eqn:Hlong.
      * apply py_eq_true in Hlong as ->. simpl.
        destruct b as [s0|area]; simpl; [by left|].
        destruct (py_index elems (area - 1)) as [elem|ex] eqn:Helem;
          simpl; [|by left].
        right. exists "long_press", area, elem, c.
        repeat split; auto.
        destruct (is_error (gesture_ret e)); simpl; by rewrite <- app_assoc.
      * destruct (py_eq act (PStr "swipe")); simpl; [|by left].
        destruct b as [s0|area]; simpl; [by left|].
        destruct (py_index elems (area - 1)); simpl; by left.
  - rewrite py_index_head.
    destruct (py_index_nonempty_last act (b :: c :: d :: rest)) as [last ->].
    destruct (py_eq act (PStr "FINISH")); [by left|].
    destruct (_ || _); [|by left].
    simpl. destruct rest; by left.
Qed.

(** The calls of a round: the prompt, then the gesture of a tap or long
    press that resolved, then calls that are no gestures. *)
Lemma round_calls_shape e st :
  ∃ l, Forall (λ c, gesture_point c = None) l ∧
    (round_calls e st = Decide :: l ∨
     ∃ kind area elem,
       acts_on e st kind area elem ∧
       round_calls e st = Decide :: performed kind (center elem) :: l).
Proof.
  unfold round_calls.
  set (elems := elem_list (useless_list st) (node_elems e)).
  assert (Hrest : no_gesture (explore e elems st).2 (round_body e st).2).
  { unfold round_body, bind, get, ret. simpl. fold elems.
    destruct (explore e elems st) as [[[[[act res] area]|f]|ex] st1];
      simpl; try reflexivity.
    pose proof (reflect_action_no_gesture act res st1) as H1.
    destruct (reflect_action act res st1) as [[[kind|f]|ex] st2];
      simpl in *; try done.
    etransitivity; [exact H1|]. apply reflect_no_gesture. }
  destruct Hrest as (l & Hcalls & Hl). exists l. split; [done|].
  destruct (explore_calls e elems st)
    as [He|(kind & area & elem & last & Hs & Hkind & Hres & Helem & He)];
    rewrite Hcalls, He, <- app_assoc, drop_app_length.
  - by left.
  - right. exists kind, area, elem. split; [|done].
    split; [done|]. split; [done|]. split; [eauto|done].
Qed.

Lemma performed_point kind p :
  kind = "tap" ∨ kind = "long_press" →
  gesture_point (performed kind p) = Some p.
Proof.
  intros [-> | ->]; unfold performed; simpl; by destruct p.
Qed.

(** C9.  (1) Every gesture that a round sends to the driver, whether tap,
    long press or swipe, is sent to [center] of the element that the index
    of the model's decision resolves to in the round's element list; (2) a
    tap or long press that resolves to an element sends exactly one
    gesture, at that point;
    (3) [center] of a box with corners (x1, y1) and (x2, y2) is
    ((x1 + x2) / 2 + x, (y1 + y2) / 2 + y) for the canvas offset (x, y);
    (4) for the box ((10, 10), (30, 30)) it is (20 + x, 20 + y). *)
Theorem C9_interaction_point_is_offset_center e st :
  (∀ c p,
     c ∈ round_calls e st → gesture_point c = Some p →
     ∃ kind area last elem,
       explore_res e = [PStr kind; PInt area; last] ∧
       py_index (elem_list (useless_list st) (node_elems e)) (area - 1)
         = Val elem ∧
       p = center elem) ∧
  (∀ kind area elem,
     acts_on e st kind area elem →
     ∃ l, round_calls e st = Decide :: performed kind (center elem) :: l ∧
          gesture_point (performed kind (center elem)) = Some (center elem) ∧
          Forall (λ c, gesture_point c = None) l) ∧
  (∀ elem x1 y1 x2 y2,
     bbox elem = ((x1, y1), (x2, y2)) →
     center elem = ((inject_Z (x1 + x2) / 2 + x)%Q,
                    (inject_Z (y1 + y2) / 2 + y)%Q)) ∧
  (∀ elem,
     bbox elem = ((10, 10), (30, 30)) →
     ((center elem).1 == 20 + x)%Q ∧ ((center elem).2 == 20 + y)%Q).
Proof.
  destruct (round_calls_shape e st) as (l & Hl & Hshape).
  split; [|split; [|split]].
  - intros c p Hin Hp.
    assert (Hnot : c ∉ Decide :: l).
    { intros [->|Hc]%elem_of_cons; [done|].
      rewrite Forall_forall in Hl. apply Hl in Hc. congruence. }
    destruct Hshape as [Hcalls|(kind & area & elem & Hacts & Hcalls)].
    + by rewrite Hcalls in Hin.
    + rewrite Hcalls in Hin.
      apply elem_of_cons in Hin as [->|Hin]; [done|].
      apply elem_of_cons in Hin as [->|Hin].
      * destruct Hacts as (_ & Hkind & [last Hres] & Helem).
        exists kind, area, last, elem. split; [done|]. split; [done|].
        rewrite performed_point in Hp by done. congruence.
      * exfalso. apply Hnot. by right.
  - intros kind area elem Hacts.
    pose proof Hacts as (_ & Hkind & _ & Helem).
    assert (Hmine : ∃ k, round_calls e st =
                         Decide :: performed kind (center elem) :: k).
    { destruct (round_acts_on_calls e st kind area elem Hacts) as [k Hk].
      exists k. unfold round_calls.
      by rewrite Hk, <- !app_assoc, drop_app_length. }
    destruct Hmine as [k Hmine].
    destruct Hshape as [Hcalls|(kind' & area' & elem' & Hacts' & Hcalls)];
      rewrite Hmine in Hcalls.
    + injection Hcalls as <-.
      apply Forall_cons in Hl as [Hl _].
      rewrite performed_point in Hl by done. done.
    + injection Hcalls as _ ->.
      exists l. split; [done|]. split; [by apply performed_point | done].
  - intros elem x1 y1 x2 y2 Hbox. unfold center. by rewrite Hbox.
  - intros elem Hbox. unfold center. rewrite Hbox. simpl.
    assert (H : (inject_Z (10 + 30) / 2 == 20)%Q) by reflexivity.
    split; rewrite H; reflexivity.
Qed.

(** *** Fatal rounds and the result *)

Ltac no_action :=
  left; simpl; repeat split; first [ done | intros; discriminate ].

(** Indexing raises nothing but [IndexError]. *)
Lemma py_index_raises {A : Type} (l : list A) (i : Z) (ex : exn) :
  py_index l i = Exc ex → ex = IndexError.
Proof.
  unfold py_index. destruct (_ && _); [|congruence].
  destruct (l !! _); congruence.
Qed.

(** The first stage either carries out a tap or long press on an element,
    or it makes the prompt its only call, hands nothing to the reflection,
    and leaves the documentation, its counter and [useless_list] alone. *)
Lemma explore_cases e elems st :
  (calls (explore e elems st).2 = (calls st ++ [Decide])%list ∧
   docs_dir (explore e elems st).2 = docs_dir st ∧
   doc_count (explore e elems st).2 = doc_count st ∧
   useless_list (explore e elems st).2 = useless_list st ∧
   (∀ a, (explore e elems st).1 ≠ Val (Proceed a)) ∧
   (∀ k, (explore e elems st).1 ≠ Exc (KeyError k))) ∨
  ∃ kind area elem last,
    explore_status e = true ∧
    (kind = "tap" ∨ kind = "long_press") ∧
    explore_res e = [PStr kind; PInt area; last] ∧
    py_index elems (area - 1) = Val elem.
Proof.
  unfold explore, gesture, bind, ret, lift, modify.
  destruct (explore_status e) eqn:Hs; [|no_action].
  destruct (explore_res e) as [|act [|b [|c [|d rest]]]] eqn:Hres.
  - no_action.
  - rewrite py_index_head.
    destruct (py_index_nonempty_last act []) as [last ->].
    destruct (py_eq act (PStr "FINISH")); [no_action|].
    destruct (_ || _); no_action.
  - rewrite py_index_head.
    destruct (py_index_nonempty_last act [b]) as [last ->].
    destruct (py_eq act (PStr "FINISH")); [no_action|].
    destruct (_ || _); no_action.
  - rewrite py_index_head.
    change [act; b; c] with ([act; b] ++ [c])%list.
    rewrite py_index_last.
    change (py_init ([act; b] ++ [c])%list) with [act; b].
    destruct (py_eq act (PStr "FINISH")); [no_action|].
    destruct (py_eq act (PStr "tap")) eqn:Htap.
    + apply py_eq_true in Htap as ->. simpl.
      destruct b as [s0|area]; simpl; [no_action|].
      destruct (py_index elems (area - 1)) as [elem|ex] eqn:Helem;
        simpl; [|apply py_index_raises in Helem as ->; no_action].
      right. exists "tap", area, elem, c. auto.
    + destruct (py_eq act (PStr "long_press")) eqn:Hlong.
      * apply py_eq_true in Hlong as ->. simpl.
        destruct b as [s0|area]; simpl; [no_action|].
        destruct (py_index elems (area - 1)) as [elem|ex] eqn:Helem;
          simpl; [|apply py_index_raises in Helem as ->; no_action].
        right. exists "long_press", area, elem, c. auto.
      * destruct (py_eq act (PStr "swipe")); simpl; [|no_action].
        destruct b as [s0|area]; simpl; [no_action|].
        destruct (py_index elems (area - 1)) as [elem|ex] eqn:Helem; simpl;
          [|apply py_index_raises in Helem as ->]; no_action.
  - rewrite py_index_head.
    destruct (py_index_nonempty_last act (b :: c :: d :: rest)) as [last ->].
    destruct (py_eq act (PStr "FINISH")); [no_action|].
    destruct (_ || _); [|no_action].
    simpl. destruct rest; no_action.
Qed.










(** Every result carries a status, one of the three. *)
Lemma run_exploration_status E docs :
  ∃ status, dict_get "status" (run_exploration E docs) = Some (JStr status) ∧
            (status = "success" ∨ status = "incomplete" ∨ status = "error").
Proof.
  unfold run_exploration, conclude, report, dict_get.
  destruct (session E docs) as [[[]|ex] st]; simpl.
  - destruct (task_complete st); eauto.
  - eauto.
Qed.

Lemma reach_first_head E docs :
  0 < MAX_ROUNDS →
  (iteration E (init_state docs)).1 = Val LoopContinue →
  reach E (init_state docs) (first_head E docs).
Proof.
  intros Hmax H. eapply reach_round; [apply reach_refl | done |].
  unfold first_head.
  destruct (iteration E (init_state docs)) as [r s]. simpl in *. by subst.
Qed.

(** *** The calls of a round, exactly *)

(** Either a tap or long press of the round resolves to an element, or the
    round makes the prompt its only call, touches neither the
    documentation nor [useless_list], and raises no [KeyError]. *)
Lemma round_cases e st :
  (round_calls e st = [Decide] ∧
   docs_dir (round_body e st).2 = docs_dir st ∧
   doc_count (round_body e st).2 = doc_count st ∧
   useless_list (round_body e st).2 = useless_list st ∧
   (∀ k, (round_body e st).1 ≠ Exc (KeyError k))) ∨
  (∃ kind area elem, acts_on e st kind area elem).
Proof.
  unfold round_calls.
  set (elems := elem_list (useless_list st) (node_elems e)).
  destruct (explore_cases e elems st)
    as [(Hcalls & Hdocs & Hcount & Huseless & Hproceed & Hkey)
       |(kind & area & elem & last & Hs & Hkind & Hres & Helem)].
  - left. unfold round_body, bind, get, ret. simpl. fold elems.
    destruct (explore e elems st) as [[[a|f]|ex] st1]; simpl in *.
    + by destruct (Hproceed a).
    + rewrite Hcalls, drop_app_length. repeat split; auto.
    + rewrite Hcalls, drop_app_length. repeat split; auto.
      intros k [= ->]. by destruct (Hkey k).
  - right. exists kind, area, elem. repeat split; eauto.
Qed.

Lemma reflect_calls e elems kind area elem st :
  py_index elems (area - 1) = Val elem →
  calls (reflect e elems kind area st).2 =
    (calls st ++ (if answers_back e then [Reflect; NavigateBack]
                  else [Reflect]))%list.
Proof.
  intros Helem. unfold answers_back, reflect, bind, ret, lift, modify.
  rewrite Helem.
  destruct (reflect_status e); simpl; [|done].
  destruct (py_index (reflect_res e) 0) as [decision|ex]; simpl; [|done].
  destruct (decide (decision = PStr "BACK")) as [->|Hne].
  - py_eq_eval. simpl.
    destruct (is_error (back_ret e)); simpl; [by rewrite <- app_assoc|].
    destruct (py_index (reflect_res e) (-1)) as [doc|ex]; simpl;
      [|by rewrite <- app_assoc].
    destruct (document_frame (uid elem) kind doc
                (log NavigateBack (mark_useless (uid elem) (log Reflect st))))
      as (_ & _ & ->).
    simpl. by rewrite <- app_assoc.
  - apply py_eq_false in Hne. rewrite Hne.
    repeat match goal with
           | |- context [if ?b then _ else _] => destruct b eqn:?
           | |- context [match py_index ?l ?i with _ => _ end] =>
               destruct (py_index l i) eqn:?
           end; simpl; try done;
      match goal with
      | |- context [document ?r ?a ?d ?s] =>
          destruct (document_frame r a d s) as (_ & _ & ->)
      end; done.
Qed.

(** The calls of a round that acts on an element: the prompt, the gesture
    at the centre of the element, and what [calls_after_gesture] lists. *)
Lemma round_calls_exact e st kind area elem :
  acts_on e st kind area elem →
  round_calls e st =
    Decide :: performed kind (center elem) :: calls_after_gesture e.
Proof.
  intros Hacts. pose proof Hacts as (_ & _ & _ & Helem).
  destruct (round_acts_on e st kind area elem Hacts) as (last & _ & Hround).
  unfold round_calls, calls_after_gesture. rewrite Hround. cbv zeta.
  destruct (is_error (gesture_ret e)).
  - simpl. by rewrite <- app_assoc, drop_app_length.
  - rewrite (reflect_calls e _ kind area elem _ Helem). simpl.
    by rewrite <- !app_assoc, drop_app_length.
Qed.


Ltac in_calls H :=
  repeat (apply elem_of_cons in H as [H|H]; [congruence|]);
  by apply elem_of_nil in H.

(** *** The round with its prompts and its files *)

Lemma render_state h st : (render h st).2 = st.
Proof.
  unfold render, bind, get, lift.
  destruct (re_sub h (task_desc h)); simpl; [|done].
  by destruct (re_sub h (last_act st)).
Qed.

Lemma render_accepts h st :
  accepts h (task_desc h) → accepts h (last_act st) →
  render h st = (Val tt, st).
Proof.
  unfold accepts, render, bind, get, lift. by intros -> ->.
Qed.

Lemma render_refuses h st ex :
  re_sub h (task_desc h) = Exc ex ∨
    (accepts h (task_desc h) ∧ re_sub h (last_act st) = Exc ex) →
  render h st = (Exc ex, st).
Proof.
  unfold accepts, render, bind, get, lift. by intros [->|[-> ->]].
Qed.

(** The prompt is filled, or the text that [re.sub] refuses is the task
    description or the last action. *)
Lemma render_cases h st :
  (accepts h (task_desc h) ∧ accepts h (last_act st) ∧
   render h st = (Val tt, st)) ∨
  ∃ ex, (re_sub h (task_desc h) = Exc ex ∨
         (accepts h (task_desc h) ∧ re_sub h (last_act st) = Exc ex)) ∧
        render h st = (Exc ex, st).
Proof.
  unfold accepts, render, bind, get, lift.
  destruct (re_sub h (task_desc h)) as [[]|ex]; simpl; [|right; eauto].
  destruct (re_sub h (last_act st)) as [[]|ex]; simpl; [left|right]; eauto.
Qed.

Lemma document_io_accepts h r a d st :
  open_doc h r = Val tt → document_io h r a d st = document r a d st.
Proof.
  intros H. unfold document_io, document, bind, get, ret, modify, lift.
  cbv zeta. rewrite H. done.
Qed.

(** When the file cannot be opened, a round that would have written ends
    with the exception of [open], before the dictionary and the counter
    change; a round that would not have written is not affected. *)
Lemma document_io_refused h r a d st ex :
  open_doc h r = Exc ex →
  document_io h r a d st =
    if doc_count (document r a d st).2 =? doc_count st
    then document r a d st else (Exc ex, st).
Proof.
  intros H. unfold document_io, document, bind, get, ret, modify, lift.
  cbv zeta. rewrite H.
  destruct (docs_dir st !! r) as [doc_content|]; simpl.
  - destruct (doc_content !! a) as [old|]; simpl;
      [|by rewrite Z.eqb_refl].
    destruct (truthy old); simpl; [by rewrite Z.eqb_refl|].
    by destruct (Z.eqb_spec (doc_count st + 1) (doc_count st)); [lia|].
  - by destruct (Z.eqb_spec (doc_count st + 1) (doc_count st)); [lia|].
Qed.

Lemma document_io_calls h r a d st :
  calls (document_io h r a d st).2 = calls st.
Proof.
  destruct (open_doc h r) as [[]|ex] eqn:H.
  - rewrite document_io_accepts by done.
    by destruct (document_frame r a d st) as (_ & _ & ->).
  - rewrite (document_io_refused h r a d st ex) by done.
    destruct (_ =? _); [|done].
    by destruct (document_frame r a d st) as (_ & _ & ->).
Qed.

Lemma reflect_io_accepts h e elems kind area elem st :
  py_index elems (area - 1) = Val elem →
  open_doc h (uid elem) = Val tt →
  reflect_io h e elems kind area st = reflect e elems kind area st.
Proof.
  intros Helem Hopen. unfold reflect_io, reflect, bind, ret, lift, modify.
  rewrite Helem.
  destruct (reflect_status e); simpl; [|done].
  destruct (py_index (reflect_res e) 0) as [decision|ex]; simpl; [|done].
  repeat match goal with
         | |- context [if ?b then _ else _] => destruct b eqn:?; simpl
         | |- context [match py_index ?l ?i with _ => _ end] =>
             destruct (py_index l i) eqn:?; simpl
         end; try done; by rewrite document_io_accepts.
Qed.

Lemma reflect_io_calls h e elems kind area elem st :
  py_index elems (area - 1) = Val elem →
  calls (reflect_io h e elems kind area st).2 =
    (calls st ++ (if answers_back e then [Reflect; NavigateBack]
                  else [Reflect]))%list.
Proof.
  intros Helem. unfold answers_back, reflect_io, bind, ret, lift, modify.
  rewrite Helem.
  destruct (reflect_status e); simpl; [|done].
  destruct (py_index (reflect_res e) 0) as [decision|ex]; simpl; [|done].
  destruct (decide (decision = PStr "BACK")) as [->|Hne].
  - py_eq_eval. simpl.
    destruct (is_error (back_ret e)); simpl; [by rewrite <- app_assoc|].
    destruct (py_index (reflect_res e) (-1)) as [doc|ex]; simpl;
      [|by rewrite <- app_assoc].
    rewrite document_io_calls. simpl. by rewrite <- app_assoc.
  - apply py_eq_false in Hne. rewrite Hne.
    repeat match goal with
           | |- context [if ?b then _ else _] => destruct b eqn:?
           | |- context [match py_index ?l ?i with _ => _ end] =>
               destruct (py_index l i) eqn:?
           end; simpl; try done; by rewrite document_io_calls.
Qed.

(** The first stage on a tap or long press that resolves to an element. *)
Lemma explore_acts_on e st kind area elem last :
  acts_on e st kind area elem →
  explore_res e = [PStr kind; PInt area; last] →
  explore e (elem_list (useless_list st) (node_elems e)) st =
    let st1 := log (performed kind (center elem)) (decided last st) in
    if is_error (gesture_ret e) then (Val (Leave LoopBreak), st1)
    else (Val (Proceed (PStr kind, [PStr kind; PInt area], area)), st1).
Proof.
  intros (Hs & Hkind & _ & Helem) Hres.
  unfold explore, gesture, bind, ret, lift, get, modify.
  rewrite Hs, Hres, py_index_head.
  change [PStr kind; PInt area; last] with ([PStr kind; PInt area] ++ [last])%list.
  rewrite py_index_last. simpl.
  destruct Hkind as [-> | ->]; py_eq_eval; simpl; rewrite Helem;
    destruct (is_error (gesture_ret e)); reflexivity.
Qed.

(** A prompt that cannot be filled ends the round before any call. *)
Lemma round_io_refused h e st ex :
  render h st = (Exc ex, st) → round_io h e st = (Exc ex, st).
Proof.
  intros H. unfold round_io, bind, get. cbv zeta. by rewrite H.
Qed.

Lemma round_io_no_action h e st :
  render h st = (Val tt, st) →
  (∀ a, (explore e (elem_list (useless_list st) (node_elems e)) st).1
        ≠ Val (Proceed a)) →
  round_io h e st = round_body e st.
Proof.
  intros H Hno. unfold round_io, round_body, bind, get, ret. cbv zeta.
  rewrite H. simpl.
  destruct (explore e _ st) as [[[a|f]|ex] st1]; simpl in *; [|done..].
  by destruct (Hno a).
Qed.

(** A round that acts on an element: after the gesture the prompt of the
    reflection is filled with the last-action text of the decision. *)
Lemma round_io_acts_on h e st kind area elem last :
  render h st = (Val tt, st) →
  acts_on e st kind area elem →
  explore_res e = [PStr kind; PInt area; last] →
  round_io h e st =
    let st1 := log (performed kind (center elem)) (decided last st) in
    if is_error (gesture_ret e) then (Val LoopBreak, st1)
    else match render h st1 with
         | (Val _, _) =>
             reflect_io h e (elem_list (useless_list st) (node_elems e))
                        kind area st1
         | (Exc ex, _) => (Exc ex, st1)
         end.
Proof.
  intros H Hacts Hres. pose proof Hacts as (_ & Hkind & _).
  unfold round_io, bind, get, ret. cbv zeta. rewrite H. simpl.
  rewrite (explore_acts_on e st kind area elem last Hacts Hres). cbv zeta.
  destruct (is_error (gesture_ret e)); simpl; [done|].
  set (st1 := log _ _).
  assert (reflect_action (PStr kind) [PStr kind; PInt area] st1
          = (Val (Proceed kind), st1)) as ->.
  { unfold reflect_action, ret. by destruct Hkind as [-> | ->]. }
  simpl. pose proof (render_state h st1) as Hst.
  destruct (render h st1) as [[[]|ex] st2]; simpl in *; by subst.
Qed.

(** The calls of a round that acts on an element. *)
Lemma round_calls_io_acts_on h e st kind area elem last :
  accepts h (task_desc h) → accepts h (last_act st) →
  acts_on e st kind area elem →
  explore_res e = [PStr kind; PInt area; last] →
  round_calls_io h e st =
    Decide :: performed kind (center elem) ::
      match re_sub h last with
      | Val _ => calls_after_gesture e
      | Exc _ => []
      end.
Proof.
  intros Ht Hl Hacts Hres. pose proof Hacts as (_ & _ & _ & Helem).
  unfold round_calls_io, calls_after_gesture.
  rewrite (round_io_acts_on h e st kind area elem last
             (render_accepts h st Ht Hl) Hacts Hres).
  cbv zeta. set (st1 := log _ _).
  assert (calls st1
          = (calls st ++ [Decide; performed kind (center elem)])%list)
    as Hst1.
  { unfold st1, decided. simpl. by rewrite <- app_assoc. }
  destruct (is_error (gesture_ret e)).
  { cbn [snd]. rewrite Hst1, drop_app_length. by destruct (re_sub h last). }
  destruct (render_cases h st1) as [(_ & Hl1 & ->)|(ex & Hre & ->)].
  - change (last_act st1) with last in Hl1. unfold accepts in Hl1.
    rewrite Hl1, (reflect_io_calls h e _ kind area elem _ Helem), Hst1.
    rewrite <- app_assoc. by rewrite drop_app_length.
  - destruct Hre as [Hre|[_ Hre]]; [unfold accepts in Ht; congruence|].
    change (last_act st1) with last in Hre.
    cbn [snd]. by rewrite Hre, Hst1, drop_app_length.
Qed.

(** The three ways a round of [round_io] goes: the prompt cannot be
    filled; the prompt is the only call; an element is acted on. *)
Lemma round_calls_io_cases h e st :
  (∃ ex,
     (re_sub h (task_desc h) = Exc ex ∨
      (accepts h (task_desc h) ∧ re_sub h (last_act st) = Exc ex)) ∧
     round_io h e st = (Exc ex, st) ∧ round_calls_io h e st = []) ∨
  (accepts h (task_desc h) ∧ accepts h (last_act st) ∧
   round_io h e st = round_body e st ∧
   round_calls_io h e st = [Decide]) ∨
  (accepts h (task_desc h) ∧ accepts h (last_act st) ∧
   ∃ kind area elem last,
     acts_on e st kind area elem ∧
     explore_res e = [PStr kind; PInt area; last] ∧
     round_calls_io h e st =
       Decide :: performed kind (center elem) ::
         match re_sub h last with
         | Val _ => calls_after_gesture e
         | Exc _ => []
         end).
Proof.
  set (elems := elem_list (useless_list st) (node_elems e)).
  destruct (render_cases h st) as [(Ht & Hl & Hr)|(ex & Hre & Hr)].
  - right.
    destruct (explore_cases e elems st)
      as [(Hcalls & _ & _ & _ & Hproceed & _)
         |(kind & area & elem & last & Hs & Hkind & Hres & Helem)].
    + left. split; [done|]. split; [done|].
      rewrite (round_io_no_action h e st Hr Hproceed).
      split; [done|].
      unfold round_calls_io.
      rewrite (round_io_no_action h e st Hr Hproceed).
      unfold round_body, bind, get, ret. simpl. fold elems.
      destruct (explore e elems st) as [[[a|f]|ex] st1]; simpl in *.
      * by destruct (Hproceed a).
      * by rewrite Hcalls, drop_app_length.
      * by rewrite Hcalls, drop_app_length.
    + right. split; [done|]. split; [done|].
      exists kind, area, elem, last.
      assert (acts_on e st kind area elem) as Hacts.
      { split; [done|]. split; [done|]. split; [by exists last|done]. }
      split; [done|]. split; [done|].
      by apply (round_calls_io_acts_on h e st kind area elem last).
  - left. exists ex. split; [done|].
    rewrite (round_io_refused h e st ex Hr). split; [done|].
    unfold round_calls_io. rewrite (round_io_refused h e st ex Hr). simpl.
    by rewrite drop_all.
Qed.

(** X4.  The calls of a round come in a fixed order.  (1) If [re.sub]
    refuses the task description or the last action when the prompt of the
    first stage is filled, the round raises before any call.  (2) If it
    takes them, either the exploration prompt is the only call, or a tap
    or long press resolves to an element; then the calls are the
    exploration prompt and the gesture at the centre of the element,
    followed, if the driver went through and [re.sub] takes the
    last-action text of the decision, by the reflection prompt and, on a
    BACK verdict only, the back navigation.  (3) The reflection is asked
    only after a gesture that went through and a last-action text that
    [re.sub] takes.  (4) The back navigation is called only after the
    reflection, on the verdict BACK. *)
Theorem round_call_protocol h e st :
  (∀ ex,
     re_sub h (task_desc h) = Exc ex ∨
       (accepts h (task_desc h) ∧ re_sub h (last_act st) = Exc ex) →
     round_io h e st = (Exc ex, st) ∧ round_calls_io h e st = []) ∧
  (accepts h (task_desc h) → accepts h (last_act st) →
   (round_calls_io h e st = [Decide] ∨
    ∃ kind area elem, acts_on e st kind area elem) ∧
   (∀ kind area elem last,
      acts_on e st kind area elem →
      explore_res e = [PStr kind; PInt area; last] →
      round_calls_io h e st =
        Decide :: performed kind (center elem) ::
          match re_sub h last with
          | Val _ => calls_after_gesture e
          | Exc _ => []
          end)) ∧
  (Reflect ∈ round_calls_io h e st →
   is_error (gesture_ret e) = false ∧
   ∃ kind area elem last,
     acts_on e st kind area elem ∧
     explore_res e = [PStr kind; PInt area; last] ∧ accepts h last) ∧
  (NavigateBack ∈ round_calls_io h e st →
   Reflect ∈ round_calls_io h e st ∧ reflect_status e = true ∧
   py_index (reflect_res e) 0 = Val (PStr "BACK")).
Proof.
  assert (Hperf : ∀ kind p, kind = "tap" ∨ kind = "long_press" →
            performed kind p ≠ NavigateBack ∧ performed kind p ≠ Reflect).
  { intros kind p [-> | ->]; split; discriminate. }
  assert (Hback : answers_back e = true →
            reflect_status e = true ∧
            py_index (reflect_res e) 0 = Val (PStr "BACK")).
  { unfold answers_back. destruct (reflect_status e); [|done]. simpl.
    destruct (py_index (reflect_res e) 0) as [d|ex]; [|done].
    intros ->%py_eq_true. done. }
  split; [|split; [|split]].
  - intros ex Hre. rewrite (round_io_refused h e st ex).
    + split; [done|]. unfold round_calls_io.
      rewrite (round_io_refused h e st ex); simpl;
        [by rewrite drop_all | by apply render_refuses].
    + by apply render_refuses.
  - intros Ht Hl. unfold accepts in Ht, Hl.
    split; [|intros kind area elem last Hacts Hres;
             by apply (round_calls_io_acts_on h e st kind area elem last)].
    destruct (round_calls_io_cases h e st)
      as [(ex & [Hre|[_ Hre]] & _)
         |[(_ & _ & _ & Hcalls)
          |(_ & _ & kind & area & elem & last & Hacts & _)]];
      [congruence|congruence|by left|right; eauto].
  - intros Hin.
    destruct (round_calls_io_cases h e st)
      as [(ex & _ & _ & Hcalls)
         |[(_ & _ & _ & Hcalls)
          |(_ & _ & kind & area & elem & last & Hacts & Hres & Hcalls)]];
      rewrite Hcalls in Hin; [in_calls Hin|in_calls Hin|].
    pose proof Hacts as (_ & Hkind & _).
    destruct (Hperf kind (center elem) Hkind) as [_ Hp].
    unfold calls_after_gesture in Hin.
    destruct (re_sub h last) as [[]|ex] eqn:Hlast; [|in_calls Hin].
    destruct (is_error (gesture_ret e)); [in_calls Hin|].
    split; [done|]. exists kind, area, elem, last. auto.
  - intros Hin.
    destruct (round_calls_io_cases h e st)
      as [(ex & _ & _ & Hcalls)
         |[(_ & _ & _ & Hcalls)
          |(_ & _ & kind & area & elem & last & Hacts & Hres & Hcalls)]];
      rewrite Hcalls in Hin |- *; [in_calls Hin|in_calls Hin|].
    pose proof Hacts as (_ & Hkind & _).
    destruct (Hperf kind (center elem) Hkind) as [Hp _].
    unfold calls_after_gesture in Hin |- *.
    destruct (re_sub h last) as [[]|ex] eqn:Hlast; [|in_calls Hin].
    destruct (is_error (gesture_ret e)); [in_calls Hin|].
    destruct (answers_back e) eqn:Hb; [|in_calls Hin].
    split; [set_solver|]. by apply Hback.
Qed.

(** X5.  The memory of the last action.  After a verdict INEFFECTIVE, BACK
    or CONTINUE on the element acted on, [last_act] is "None"; after a
    verdict SUCCESS it is the last entry of the model's decision. *)
Theorem last_act_after_verdict e st kind area elem verdict :
  acts_on e st kind area elem →
  judged e verdict →
  (verdict = "INEFFECTIVE" ∨ verdict = "BACK" ∨ verdict = "CONTINUE" →
   last_act (round_body e st).2 = PStr "None") ∧
  (verdict = "SUCCESS" →
   py_index (explore_res e) (-1) = Val (last_act (round_body e st).2)).
Proof.
  intros Hacts (Hok & Hstatus & Hverdict).
  pose proof Hacts as (_ & _ & _ & Helem).
  destruct (round_acts_on e st kind area elem Hacts) as (last & Hres & Hround).
  rewrite Hround, Hok. cbv zeta. set (st1 := log _ _).
  split.
  - intros [Hv|[Hv|Hv]].
    + by rewrite (reflect_ineffective e _ kind area elem verdict Hstatus Helem
                 Hverdict st1 Hv).
    + destruct (reflect_back e _ kind area elem verdict Hstatus Helem
                  Hverdict st1 Hv) as (doc & _ & ->).
      cbv zeta. destruct (is_error (back_ret e)); [done|].
      by destruct (document_frame (uid elem) kind doc
                  (log NavigateBack (mark_useless (uid elem) (log Reflect st1))))
        as (_ & -> & _).
    + destruct (reflect_continue e _ kind area elem verdict Hstatus Helem
                  Hverdict st1 Hv) as (doc & _ & ->).
      by destruct (document_frame (uid elem) kind doc
                  (mark_useless (uid elem) (log Reflect st1))) as (_ & -> & _).
  - intros Hv.
    destruct (reflect_success e _ kind area elem verdict Hstatus Helem
                Hverdict st1 Hv) as (doc & _ & ->).
    destruct (document_frame (uid elem) kind doc (log Reflect st1))
      as (_ & -> & _).
    rewrite Hres.
    change [PStr kind; PInt area; last]
      with ([PStr kind; PInt area] ++ [last])%list.
    by rewrite py_index_last.
Qed.

(** *** What the documentation step writes *)

Lemma document_new r a d st :
  docs_dir st !! r = None →
  document r a d st = (Val LoopContinue, written r a d fresh_doc_content st).
Proof.
  intros H. unfold document, bind, get, ret, modify. cbv zeta. by rewrite H.
Qed.

Lemma document_fill r a d st doc_content old :
  docs_dir st !! r = Some doc_content →
  doc_content !! a = Some old → truthy old = false →
  document r a d st = (Val LoopContinue, written r a d doc_content st).
Proof.
  intros H1 H2 H3. unfold document, bind, get, ret, modify. cbv zeta.
  by rewrite H1, H2, H3.
Qed.

Lemma document_missing_key r a d st doc_content :
  docs_dir st !! r = Some doc_content →
  doc_content !! a = None →
  document r a d st = (Exc (KeyError a), st).
Proof.
  intros H1 H2. unfold document, bind, get, lift. cbv zeta.
  by rewrite H1, H2.
Qed.

Lemma document_doc_count r a d st :
  doc_count st ≤ doc_count (document r a d st).2 ≤ doc_count st + 1.
Proof.
  unfold document, bind, get, ret, modify, lift. cbv zeta.
  destruct (docs_dir st !! r) as [doc_content|]; simpl; [|lia].
  destruct (doc_content !! a) as [old|]; simpl; [|lia].
  destruct (truthy old); simpl; lia.
Qed.

Ltac reflect_branches :=
  repeat match goal with
         | |- context [if ?b then _ else _] => destruct b eqn:?
         | |- context [match py_index ?l ?i with _ => _ end] =>
             destruct (py_index l i) eqn:?
         end; simpl.

Lemma reflect_doc_count e elems kind area st :
  doc_count st ≤ doc_count (reflect e elems kind area st).2
    ≤ doc_count st + 1.
Proof.
  unfold reflect, bind, ret, lift, modify.
  reflect_branches; try lia;
    match goal with
    | |- context [document ?r ?a ?d ?s] =>
        pose proof (document_doc_count r a d s) as H; by simpl in H
    end.
Qed.

(** A round adds at most one to the documentation counter. *)
Lemma round_doc_count e st :
  doc_count st ≤ doc_count (round_body e st).2 ≤ doc_count st + 1.
Proof.
  destruct (round_cases e st)
    as [(_ & _ & -> & _)|(kind & area & elem & Hacts)]; [lia|].
  destruct (round_acts_on e st kind area elem Hacts) as (last & _ & ->).
  cbv zeta. destruct (is_error (gesture_ret e)); simpl; [lia|].
  set (st1 := log _ _).
  pose proof (reflect_doc_count e
                (elem_list (useless_list st) (node_elems e)) kind area st1).
  by simpl in *.
Qed.

(** The reflection leaves the documentation alone unless its verdict is
    BACK, CONTINUE or SUCCESS. *)
Lemma reflect_untouched_or_verdict e elems kind area st :
  (docs_dir (reflect e elems kind area st).2 = docs_dir st ∧
   doc_count (reflect e elems kind area st).2 = doc_count st) ∨
  (reflect_status e = true ∧
   ∃ verdict,
     py_index (reflect_res e) 0 = Val (PStr verdict) ∧
     (verdict = "BACK" ∨ verdict = "CONTINUE" ∨ verdict = "SUCCESS")).
Proof.
  unfold reflect, bind, ret, lift, modify.
  destruct (reflect_status e); simpl; [|by left].
  destruct (py_index elems (area - 1)) as [elem|ex]; simpl; [|by left].
  destruct (py_index (reflect_res e) 0) as [decision|ex]; simpl; [|by left].
  destruct (py_eq decision (PStr "ERROR")); simpl; [by left|].
  destruct (py_eq decision (PStr "INEFFECTIVE")); simpl; [by left|].
  destruct (py_eq decision (PStr "BACK")) eqn:Hb.
  { right. apply py_eq_true in Hb as ->. eauto 6. }
  destruct (py_eq decision (PStr "CONTINUE")) eqn:Hc.
  { right. apply py_eq_true in Hc as ->. eauto 6. }
  destruct (py_eq decision (PStr "SUCCESS")) eqn:Hsu.
  { right. apply py_eq_true in Hsu as ->. eauto 6. }
  by left.
Qed.

(** The first documentation of an action, in [round_body]: when the
    verdict calls for it and the slot is free, the round writes the last
    entry of the reflection answer, adds one to the counter and goes on. *)
Lemma round_documents e st kind area elem verdict doc doc_content :
  acts_on e st kind area elem →
  judged e verdict →
  verdict = "CONTINUE" ∨ verdict = "SUCCESS" ∨
    (verdict = "BACK" ∧ is_error (back_ret e) = false) →
  py_index (reflect_res e) (-1) = Val doc →
  (docs_dir st !! uid elem = None ∧ doc_content = fresh_doc_content) ∨
    (docs_dir st !! uid elem = Some doc_content ∧
     ∃ old, doc_content !! kind = Some old ∧ truthy old = false) →
  (round_body e st).1 = Val LoopContinue ∧
  docs_dir (round_body e st).2 =
    <[uid elem := <[kind := doc]> doc_content]> (docs_dir st) ∧
  doc_count (round_body e st).2 = doc_count st + 1.
Proof.
  intros Hacts (Hok & Hstatus & Hverdict) Hv Hdoc Hfile.
  pose proof Hacts as (_ & _ & _ & Helem).
  destruct (round_acts_on e st kind area elem Hacts) as (last & _ & Hround).
  rewrite Hround, Hok. cbv zeta. set (st1 := log _ _).
  assert (Hwrite : ∀ s, docs_dir s = docs_dir st → doc_count s = doc_count st →
            (document (uid elem) kind doc s).1 = Val LoopContinue ∧
            docs_dir (document (uid elem) kind doc s).2 =
              <[uid elem := <[kind := doc]> doc_content]> (docs_dir st) ∧
            doc_count (document (uid elem) kind doc s).2 = doc_count st + 1).
  { intros s Hd Hc.
    destruct Hfile as [[Hnone ->]|(Hsome & old & Hkey & Hold)].
    - rewrite document_new by (by rewrite Hd). simpl. by rewrite Hd, Hc.
    - rewrite (document_fill _ _ _ _ doc_content old) by (by rewrite ?Hd).
      simpl. by rewrite Hd, Hc. }
  destruct Hv as [Hv|[Hv|[Hv Hback]]].
  - destruct (reflect_continue e _ kind area elem verdict Hstatus Helem
                Hverdict st1 Hv) as (doc' & Hdoc' & ->).
    assert (doc' = doc) as -> by congruence. by apply Hwrite.
  - destruct (reflect_success e _ kind area elem verdict Hstatus Helem
                Hverdict st1 Hv) as (doc' & Hdoc' & ->).
    assert (doc' = doc) as -> by congruence. by apply Hwrite.
  - destruct (reflect_back e _ kind area elem verdict Hstatus Helem
                Hverdict st1 Hv) as (doc' & Hdoc' & ->).
    assert (doc' = doc) as -> by congruence. cbv zeta. rewrite Hback.
    by apply Hwrite.
Qed.

(** With the texts taken by [re.sub] and the file opened, the round with
    its prompts and files is [round_body]. *)
Lemma round_io_accepted h e st kind area elem last :
  accepts h (task_desc h) → accepts h (last_act st) →
  acts_on e st kind area elem →
  explore_res e = [PStr kind; PInt area; last] →
  accepts h last →
  open_doc h (uid elem) = Val tt →
  round_io h e st = round_body e st.
Proof.
  intros Ht Hl Hacts Hres Hlast Hopen.
  pose proof Hacts as (_ & _ & _ & Helem).
  rewrite (round_io_acts_on h e st kind area elem last
             (render_accepts h st Ht Hl) Hacts Hres).
  destruct (round_acts_on e st kind area elem Hacts) as (last' & Hres' & ->).
  assert (last' = last) as -> by congruence.
  cbv zeta. destruct (is_error (gesture_ret e)); [done|].
  rewrite render_accepts by done.
  by apply reflect_io_accepts with elem.
Qed.

(** When the file cannot be opened, a reflection that would have written
    ends with the exception of [open], the documentation and its counter
    as they were. *)
Lemma reflect_io_refused h e elems kind area elem st ex :
  py_index elems (area - 1) = Val elem →
  open_doc h (uid elem) = Exc ex →
  doc_count (reflect e elems kind area st).2 ≠ doc_count st →
  (reflect_io h e elems kind area st).1 = Exc ex ∧
  docs_dir (reflect_io h e elems kind area st).2 = docs_dir st ∧
  doc_count (reflect_io h e elems kind area st).2 = doc_count st.
Proof.
  intros Helem Hopen. unfold reflect_io, reflect, bind, ret, lift, modify.
  rewrite Helem.
  destruct (reflect_status e); simpl; [|done].
  destruct (py_index (reflect_res e) 0) as [decision|ex0]; simpl; [|done].
  repeat match goal with
         | |- context [if ?b then _ else _] => destruct b eqn:?; simpl
         | |- context [match py_index ?l ?i with _ => _ end] =>
             destruct (py_index l i) eqn:?; simpl
         end; try done;
    rewrite (document_io_refused h _ _ _ _ ex Hopen); simpl;
    intros Hne;
    match goal with
    | |- context [?a =? ?b] => destruct (Z.eqb_spec a b); [done|]
    end; done.
Qed.

(** X6.  The first documentation of an action.  Take a round whose
    prompts [re.sub] fills (it takes the task description, the last action
    of the round before and the last-action text of the decision), that
    acts on an element, whose verdict is CONTINUE or SUCCESS, or BACK with
    a back navigation that went through, and whose element has no file yet
    or a file with an empty slot for the action kind.  (1) If the file of
    the element can be opened for writing, the round stores the last entry
    of the reflection answer in that slot (of a fresh dictionary with the
    five fixed keys if there was no file), adds one to the documentation
    counter and goes on to the next round.  (2) If [open] raises, the
    round ends with that exception, and the documentation and its counter
    are as they were. *)
Theorem documentation_is_written
    h e st kind area elem last verdict doc doc_content :
  accepts h (task_desc h) → accepts h (last_act st) →
  acts_on e st kind area elem →
  explore_res e = [PStr kind; PInt area; last] →
  accepts h last →
  judged e verdict →
  verdict = "CONTINUE" ∨ verdict = "SUCCESS" ∨
    (verdict = "BACK" ∧ is_error (back_ret e) = false) →
  py_index (reflect_res e) (-1) = Val doc →
  (docs_dir st !! uid elem = None ∧ doc_content = fresh_doc_content) ∨
    (docs_dir st !! uid elem = Some doc_content ∧
     ∃ old, doc_content !! kind = Some old ∧ truthy old = false) →
  (open_doc h (uid elem) = Val tt →
   (round_io h e st).1 = Val LoopContinue ∧
   docs_dir (round_io h e st).2 !! uid elem
     = Some (<[kind := doc]> doc_content) ∧
   doc_count (round_io h e st).2 = doc_count st + 1) ∧
  (∀ ex,
     open_doc h (uid elem) = Exc ex →
     (round_io h e st).1 = Exc ex ∧
     docs_dir (round_io h e st).2 = docs_dir st ∧
     doc_count (round_io h e st).2 = doc_count st).
Proof.
  intros Ht Hl Hacts Hres Hlast Hj Hv Hdoc Hfile.
  destruct (round_documents e st kind area elem verdict doc doc_content
              Hacts Hj Hv Hdoc Hfile) as (Hflow & Hdocs & Hcount).
  split.
  - intros Hopen.
    rewrite (round_io_accepted h e st kind area elem last) by done.
    split; [done|]. split; [|done].
    by rewrite Hdocs, lookup_insert_eq.
  - intros ex Hopen. pose proof Hacts as (_ & _ & _ & Helem).
    pose proof Hj as (Hok & _).
    rewrite (round_io_acts_on h e st kind area elem last
               (render_accepts h st Ht Hl) Hacts Hres).
    destruct (round_acts_on e st kind area elem Hacts)
      as (last' & Hres' & Hbody).
    assert (last' = last) as -> by congruence.
    rewrite Hbody in Hcount. cbv zeta in Hcount |- *.
    rewrite Hok in Hcount |- *.
    rewrite render_accepts by done.
    destruct (reflect_io_refused h e _ kind area elem
                (log (performed kind (center elem)) (decided last st))
                ex Helem Hopen) as (H1 & H2 & H3).
    { rewrite Hcount. simpl. lia. }
    by rewrite H1, H2, H3.
Qed.

(** X7.  Documentation is written after a verdict only.  A round that
    changes a documentation file or the documentation counter has acted on
    an element with a gesture that went through, and its reflection
    returned BACK, CONTINUE or SUCCESS. *)
Theorem documentation_needs_a_verdict e st :
  docs_dir (round_body e st).2 ≠ docs_dir st ∨
    doc_count (round_body e st).2 ≠ doc_count st →
  ∃ kind area elem verdict,
    acts_on e st kind area elem ∧ judged e verdict ∧
    (verdict = "BACK" ∨ verdict = "CONTINUE" ∨ verdict = "SUCCESS").
Proof.
  intros Hchanged.
  destruct (round_cases e st)
    as [(_ & Hd & Hc & _)|(kind & area & elem & Hacts)].
  { destruct Hchanged; congruence. }
  destruct (round_acts_on e st kind area elem Hacts) as (last & _ & Hround).
  rewrite Hround in Hchanged. cbv zeta in Hchanged.
  destruct (is_error (gesture_ret e)) eqn:Hok.
  { simpl in Hchanged. destruct Hchanged; congruence. }
  set (st1 := log _ _) in Hchanged.
  destruct (reflect_untouched_or_verdict e
              (elem_list (useless_list st) (node_elems e)) kind area st1)
    as [[Hd Hc]|(Hstatus & verdict & Hverdict & Hv)].
  - rewrite Hd, Hc in Hchanged. simpl in Hchanged.
    destruct Hchanged; congruence.
  - exists kind, area, elem, verdict.
    split; [exact Hacts|]. split; [|exact Hv]. by split.
Qed.

(** *** Invariants of the documentation *)

Lemma loop_invariant (P : state → Prop) E :
  (∀ st, P st → P (iteration E st).2) →
  ∀ fuel st, P st → P (loop fuel E st).2.
Proof.
  intros Hit fuel. induction fuel as [|fuel IH]; intros st HP; simpl; [done|].
  destruct (round_count st <? MAX_ROUNDS); [|done].
  specialize (Hit st HP).
  destruct (iteration E st) as [[[]|ex] st1]; simpl in *; auto.
Qed.

(** X8.  The documentation counter never exceeds the round counter: when
    the session ends, 0 <= doc_count <= round_count, so a result that
    reports them has docs_generated <= rounds. *)
Theorem docs_generated_at_most_rounds E docs :
  0 ≤ doc_count (session E docs).2 ≤ round_count (session E docs).2 ∧
  (∀ st, session E docs = (Val tt, st) →
         ∃ r d, dict_get "rounds" (run_exploration E docs) = Some (JInt r) ∧
                dict_get "docs_generated" (run_exploration E docs)
                  = Some (JInt d) ∧
                0 ≤ d ≤ r).
Proof.
  assert (H : 0 ≤ doc_count (session E docs).2 ≤ round_count (session E docs).2).
  { unfold session.
    apply (loop_invariant (λ st, 0 ≤ doc_count st ≤ round_count st));
      [|simpl; lia].
    intros st Hst.
    destruct (stop_set E (round_count st)) eqn:Hstop.
    - by rewrite iteration_stopped.
    - destruct (iteration_starts_round E st Hstop) as [Hit Hrc].
      rewrite Hrc, Hit.
      pose proof (round_doc_count (rounds E (next_round st)) (enter st)) as Hd.
      simpl in Hd. lia. }
  split; [exact H|].
  intros st Hs. rewrite Hs in H. simpl in H.
  exists (round_count st), (doc_count st).
  unfold run_exploration. rewrite Hs.
  unfold conclude, report, dict_get. simpl.
  split; [done|]. split; [done|]. exact H.
Qed.

#[local] Instance docs_grow_preorder : PreOrder docs_grow.
Proof.
  split.
  - intros st. split; [lia|]. intros r c H. exists c. by split.
  - intros s1 s2 s3 [Hc12 H12] [Hc23 H23]. split; [lia|].
    intros r c H. destruct (H12 r c H) as (c2 & H2 & Hd2).
    destruct (H23 r c2 H2) as (c3 & H3 & Hd3).
    exists c3. split; [done|]. set_solver.
Qed.

#[local] Instance well_formed_kept_preorder : PreOrder well_formed_kept.
Proof. split; unfold well_formed_kept; [intros ?|intros ? ? ?]; auto. Qed.

Lemma docs_grow_same st st' :
  docs_dir st' = docs_dir st → doc_count st' = doc_count st →
  docs_grow st st'.
Proof.
  intros Hd Hc. split; [lia|]. intros r c H. exists c. by rewrite Hd.
Qed.

Lemma docs_grow_written r a d c st :
  (docs_dir st !! r = None ∨ docs_dir st !! r = Some c) →
  docs_grow st (written r a d c st).
Proof.
  intros Hr. split; [simpl; lia|]. intros r' c' H. simpl.
  destruct (decide (r = r')) as [<-|Hne].
  - rewrite lookup_insert_eq. destruct Hr as [Hr|Hr]; [congruence|].
    assert (c' = c) as -> by congruence.
    eexists. split; [done|]. rewrite dom_insert_L. set_solver.
  - rewrite lookup_insert_ne by done. exists c'. by split.
Qed.

Lemma document_docs_grow r a d : keeps docs_grow (document r a d).
Proof.
  intros st.
  destruct (docs_dir st !! r) as [c|] eqn:Hr.
  - destruct (c !! a) as [old|] eqn:Ha.
    + destruct (truthy old) eqn:Hold.
      * rewrite (document_skip r a d st old); [reflexivity| |done].
        unfold doc_slot. by rewrite Hr.
      * rewrite (document_fill r a d st c old) by done.
        apply docs_grow_written. auto.
    + rewrite (document_missing_key r a d st c) by done. reflexivity.
  - rewrite document_new by done. apply docs_grow_written. auto.
Qed.

Lemma round_body_docs_grow e : keeps docs_grow (round_body e).
Proof.
  unfold round_body, explore, gesture, reflect_action, reflect.
  repeat first [ apply document_docs_grow | keeps_step ];
    by apply docs_grow_same.
Qed.

(** X9.  Documentation is never deleted.  Through any run of the loop,
    every documentation file that exists stays, every key of a file stays,
    and the documentation counter does not decrease. *)
Theorem documentation_only_grows E fuel st :
  doc_count st ≤ doc_count (loop fuel E st).2 ∧
  ∀ r doc_content,
    docs_dir st !! r = Some doc_content →
    ∃ doc_content',
      docs_dir (loop fuel E st).2 !! r = Some doc_content' ∧
      dom doc_content ⊆ dom doc_content'.
Proof.
  apply (loop_keeps docs_grow), (iteration_keeps docs_grow);
    [intros; by apply docs_grow_same | apply round_body_docs_grow].
Qed.

Lemma fresh_doc_content_keys k :
  k ∈ fixed_keys → is_Some (fresh_doc_content !! k).
Proof.
  unfold fixed_keys, fresh_doc_content. intros Hk.
  repeat (apply elem_of_cons in Hk as [->|Hk]; [by eexists|]).
  by apply elem_of_nil in Hk.
Qed.

Lemma well_formed_written r a d c st :
  well_formed (docs_dir st) →
  (∀ k, k ∈ fixed_keys → is_Some (c !! k)) →
  well_formed (docs_dir (written r a d c st)).
Proof.
  intros Hwf Hc r' c' H k Hk. simpl in H.
  destruct (decide (r = r')) as [<-|Hne].
  - rewrite lookup_insert_eq in H. injection H as <-.
    destruct (decide (a = k)) as [<-|Hak].
    + rewrite lookup_insert_eq. by eexists.
    + rewrite lookup_insert_ne by done. by apply Hc.
  - rewrite lookup_insert_ne in H by done. by apply (Hwf r' c').
Qed.

Lemma document_well_formed r a d : keeps well_formed_kept (document r a d).
Proof.
  intros st Hwf.
  destruct (docs_dir st !! r) as [c|] eqn:Hr.
  - destruct (c !! a) as [old|] eqn:Ha.
    + destruct (truthy old) eqn:Hold.
      * rewrite (document_skip r a d st old); [done| |done].
        unfold doc_slot. by rewrite Hr.
      * rewrite (document_fill r a d st c old) by done.
        apply well_formed_written; [done|]. by apply (Hwf r c).
    + by rewrite (document_missing_key r a d st c).
  - rewrite document_new by done.
    apply well_formed_written; [done|]. apply fresh_doc_content_keys.
Qed.

Lemma round_body_well_formed e : keeps well_formed_kept (round_body e).
Proof.
  unfold round_body, explore, gesture, reflect_action, reflect.
  repeat first [ apply document_well_formed | keeps_step ];
    unfold well_formed_kept; simpl; auto.
Qed.

Lemma document_no_key_error r a d st :
  well_formed (docs_dir st) → a ∈ fixed_keys →
  ∀ k, (document r a d st).1 ≠ Exc (KeyError k).
Proof.
  intros Hwf Ha k.
  destruct (docs_dir st !! r) as [c|] eqn:Hr.
  - destruct (Hwf r c Hr a Ha) as [old Hold].
    destruct (truthy old) eqn:Ht.
    + rewrite (document_skip r a d st old); [done| |done].
      unfold doc_slot. by rewrite Hr.
    + by rewrite (document_fill r a d st c old).
  - by rewrite document_new.
Qed.

Lemma reflect_no_key_error e elems kind area st :
  well_formed (docs_dir st) → kind ∈ fixed_keys →
  ∀ k, (reflect e elems kind area st).1 ≠ Exc (KeyError k).
Proof.
  intros Hwf Hkind k.
  unfold reflect, bind, ret, lift, modify.
  reflect_branches; try done;
    try (match goal with
         | H : py_index _ _ = Exc _ |- _ =>
             apply py_index_raises in H as ->; done
         end);
    match goal with
    | |- context [document ?r ?a ?d ?s] =>
        by apply (document_no_key_error r a d s)
    end.
Qed.

Lemma round_no_key_error e st :
  well_formed (docs_dir st) →
  ∀ k, (round_body e st).1 ≠ Exc (KeyError k).
Proof.
  intros Hwf k.
  destruct (round_cases e st)
    as [(_ & _ & _ & _ & H)|(kind & area & elem & Hacts)]; [done|].
  destruct (round_acts_on e st kind area elem Hacts) as (last & _ & ->).
  cbv zeta. destruct (is_error (gesture_ret e)); [done|].
  apply reflect_no_key_error; [done|].
  destruct Hacts as (_ & [-> | ->] & _); unfold fixed_keys; set_solver.
Qed.

(** X10.  Files written by this program never make it fail.  If every
    documentation file present at the start has the five fixed keys (as
    every file written by [run_exploration] has; in particular if there is
    no file), then so has every file at the end of the session, and the
    session never ends on a [KeyError]. *)
Theorem well_formed_store_never_raises E docs :
  well_formed docs →
  well_formed (docs_dir (session E docs).2) ∧
  ∀ k, (session E docs).1 ≠ Exc (KeyError k).
Proof.
  intros Hwf. unfold session.
  assert (H : ∀ fuel st, well_formed (docs_dir st) →
            well_formed (docs_dir (loop fuel E st).2) ∧
            ∀ k, (loop fuel E st).1 ≠ Exc (KeyError k)).
  { induction fuel as [|fuel IH]; intros st Hst; simpl; [done|].
    destruct (round_count st <? MAX_ROUNDS); [|done].
    assert (Hit : well_formed (docs_dir (iteration E st).2) ∧
                  ∀ k, (iteration E st).1 ≠ Exc (KeyError k)).
    { destruct (stop_set E (round_count st)) eqn:Hstop.
      - by rewrite iteration_stopped.
      - destruct (iteration_starts_round E st Hstop) as [-> _]. split.
        + by apply (round_body_well_formed _ (enter st)).
        + by apply round_no_key_error. }
    destruct (iteration E st) as [[[]|ex] st1]; simpl in *.
    - apply IH. tauto.
    - split; [tauto|done].
    - destruct Hit as [H1 H2]. split; [done|].
      intros k [= ->]. by destruct (H2 k). }
  by apply H.
Qed.

(** X11.  A documentation file that lacks the key of the action is
    fatal.  When the element acted on has a file without the key of the
    action kind (a file not written by this program) and the verdict calls
    for documentation, line 479 raises [KeyError]: the session ends with
    the status "error" and the files are left as they were. *)
Theorem missing_key_is_an_error E docs st kind area elem verdict doc_content :
  reach E (init_state docs) st →
  round_count st < MAX_ROUNDS →
  stop_set E (round_count st) = false →
  acts_on (rounds E (next_round st)) (enter st) kind area elem →
  judged (rounds E (next_round st)) verdict →
  verdict = "CONTINUE" ∨ verdict = "SUCCESS" ∨
    (verdict = "BACK" ∧ is_error (back_ret (rounds E (next_round st))) = false) →
  docs_dir st !! uid elem = Some doc_content →
  doc_content !! kind = None →
  ∃ st',
    session E docs = (Exc (KeyError kind), st') ∧
    docs_dir st' = docs_dir st ∧
    run_exploration E docs =
      [("status", JStr "error"); ("message", JError (KeyError kind))].
Proof.
  intros Hreach Hlt Hstop Hacts (Hok & Hstatus & Hverdict) Hv Hfile Hkey.
  pose proof (session_last_round E docs st Hreach Hlt Hstop) as Hlast.
  set (e := rounds E (next_round st)) in *.
  pose proof Hacts as (_ & _ & _ & Helem).
  destruct (round_acts_on e (enter st) kind area elem Hacts)
    as (last & _ & Hround).
  rewrite Hok in Hround. cbv zeta in Hround.
  set (st1 := log _ _) in Hround.
  assert (Hraise : ∀ d s, docs_dir s = docs_dir st →
            document (uid elem) kind d s = (Exc (KeyError kind), s)).
  { intros d s Hd. apply (document_missing_key _ _ _ _ doc_content);
      [by rewrite Hd|done]. }
  destruct Hv as [Hv|[Hv|[Hv Hback]]].
  - destruct (reflect_continue e _ kind area elem verdict Hstatus Helem
                Hverdict st1 Hv) as (d & _ & Hr).
    rewrite Hr, Hraise in Hround by done. rewrite Hround in Hlast.
    eexists. split; [exact Hlast|]. split; [done|].
    by rewrite (run_exploration_error _ _ _ _ Hlast).
  - destruct (reflect_success e _ kind area elem verdict Hstatus Helem
                Hverdict st1 Hv) as (d & _ & Hr).
    rewrite Hr, Hraise in Hround by done. rewrite Hround in Hlast.
    eexists. split; [exact Hlast|]. split; [done|].
    by rewrite (run_exploration_error _ _ _ _ Hlast).
  - destruct (reflect_back e _ kind area elem verdict Hstatus Helem
                Hverdict st1 Hv) as (d & _ & Hr).
    cbv zeta in Hr. rewrite Hback in Hr.
    rewrite Hr, Hraise in Hround by done. rewrite Hround in Hlast.
    eexists. split; [exact Hlast|]. split; [done|].
    by rewrite (run_exploration_error _ _ _ _ Hlast).
Qed.

(** *** Sessions without a round, and rounds without an element *)

(** X12.  No budget, no round.  With a maximum of zero rounds or less, or
    with a stop request already set when the loop is first entered, no
    collaborator is called, and the result reports status "incomplete",
    zero rounds and zero documents. *)
Theorem no_round_is_run E docs :
  MAX_ROUNDS ≤ 0 ∨ stop_set E 0 = true →
  session E docs = (Val tt, init_state docs) ∧
  calls (session E docs).2 = [] ∧
  run_exploration E docs =
    [("status", JStr "incomplete"); ("task_complete", JBool false);
     ("rounds", JInt 0); ("docs_generated", JInt 0)].
Proof.
  intros H.
  assert (Hs : session E docs = (Val tt, init_state docs)).
  { unfold session.
    destruct (Z.to_nat MAX_ROUNDS) as [|n] eqn:Hn; simpl; [done|].
    destruct H as [H|H]; [lia|].
    replace (0 <? MAX_ROUNDS) with true by (symmetry; apply Z.ltb_lt; lia).
    rewrite iteration_stopped; done. }
  split; [done|]. rewrite (run_exploration_report _ _ _ Hs), Hs. done.
Qed.

(** X13.  A screen with nothing left to act on.  When every element of the
    snapshot is in [useless_list] (or the snapshot is empty), the element
    list of the round is empty, and a tap, long_press or swipe decision,
    whatever its index, ends the session with the status "error". *)
Theorem exhausted_screen_is_an_error E docs st kind area rest :
  reach E (init_state docs) st →
  round_count st < MAX_ROUNDS →
  stop_set E (round_count st) = false →
  explore_status (rounds E (next_round st)) = true →
  explore_res (rounds E (next_round st)) = PStr kind :: PInt area :: rest →
  kind = "tap" ∨ kind = "long_press" ∨ kind = "swipe" →
  (∀ elem, elem ∈ node_elems (rounds E (next_round st)) →
           uid elem ∈ useless_list st) →
  elem_list (useless_list st) (node_elems (rounds E (next_round st))) = [] ∧
  ∃ ex st',
    session E docs = (Exc ex, st') ∧
    calls st' = (calls st ++ [Decide])%list ∧
    run_exploration E docs =
      [("status", JStr "error"); ("message", JError ex)].
Proof.
  intros Hreach Hlt Hstop Hs Hres Hkind Hall.
  assert (Hnil : elem_list (useless_list st)
                   (node_elems (rounds E (next_round st))) = []).
  { unfold elem_list.
    destruct (filter _ _) as [|elem l] eqn:Hf; [done|].
    assert (Hin : elem ∈ filter (λ elem, uid elem ∉ useless_list st)
                    (node_elems (rounds E (next_round st)))).
    { rewrite Hf. by left. }
    apply list_elem_of_filter in Hin as [Hnot Hin]. by apply Hall in Hin. }
  split; [done|].
  pose proof (session_last_round E docs st Hreach Hlt Hstop) as Hlast.
  destruct (round_index_out_of_range _ (enter st) kind area rest Hs Hres Hkind)
    as (ex & last & Hround).
  { simpl. rewrite Hnil. simpl. lia. }
  rewrite Hround in Hlast. exists ex. eexists. split; [exact Hlast|].
  split; [done|]. by rewrite (run_exploration_error _ _ _ _ Hlast).
Qed.

(** *** Decisions that are not well formed *)

Lemma round_empty_decision e st :
  explore_status e = true → explore_res e = [] →
  round_body e st = (Exc IndexError, log Decide st).
Proof. intros Hs Hres. run_round. by rewrite Hs, Hres. Qed.

Lemma round_wrong_arity e st kind rest :
  explore_status e = true →
  explore_res e = PStr kind :: rest →
  kind = "tap" ∨ kind = "long_press" ∨ kind = "swipe" →
  length rest ≠ 2%nat →
  ∃ last, round_body e st = (Exc ValueError, decided last st).
Proof.
  intros Hs Hres Hkind Hlen.
  destruct (py_index_nonempty_last (PStr kind) rest) as [last Hlast].
  exists last.
  unfold round_body, explore, bind, ret, lift, get, modify.
  rewrite Hs, Hres, py_index_head, Hlast.
  assert (Hact : py_eq (PStr kind) (PStr "FINISH") = false).
  { apply py_eq_false. destruct Hkind as [->|[->| ->]]; congruence. }
  assert (Hin : py_eq (PStr kind) (PStr "tap")
                || py_eq (PStr kind) (PStr "long_press")
                || py_eq (PStr kind) (PStr "swipe") = true).
  { destruct Hkind as [->|[->| ->]]; py_eq_eval; reflexivity. }
  rewrite Hact, Hin.
  destruct rest as [|a [|b [|c rest]]]; simpl in *; done.
Qed.

Lemma round_string_index e st kind s last :
  explore_status e = true →
  explore_res e = [PStr kind; PStr s; last] →
  kind = "tap" ∨ kind = "long_press" ∨ kind = "swipe" →
  round_body e st = (Exc TypeError, decided last st).
Proof.
  intros Hs Hres Hkind.
  unfold round_body, explore, bind, ret, lift, get, modify.
  rewrite Hs, Hres, py_index_head.
  change [PStr kind; PStr s; last] with ([PStr kind; PStr s] ++ [last])%list.
  rewrite py_index_last.
  assert (Hact : py_eq (PStr kind) (PStr "FINISH") = false).
  { apply py_eq_false. destruct Hkind as [->|[->| ->]]; congruence. }
  assert (Hin : py_eq (PStr kind) (PStr "tap")
                || py_eq (PStr kind) (PStr "long_press")
                || py_eq (PStr kind) (PStr "swipe") = true).
  { destruct Hkind as [->|[->| ->]]; py_eq_eval; reflexivity. }
  by rewrite Hact, Hin.
Qed.

(** X14.  A decision that is not well formed ends the session with the
    status "error" before any gesture: (1) an empty list raises
    [IndexError] at [res[0]]; (2) a tap, long_press or swipe that does not
    come with exactly two more entries (the index and the last-action
    text) raises [ValueError] at the unpacking of line 320; (3) an index
    that is a string raises [TypeError] at [area - 1]. *)
Theorem malformed_decision_is_an_error E docs st :
  reach E (init_state docs) st →
  round_count st < MAX_ROUNDS →
  stop_set E (round_count st) = false →
  explore_status (rounds E (next_round st)) = true →
  let ends_with ex :=
    ∃ st', session E docs = (Exc ex, st') ∧
           calls st' = (calls st ++ [Decide])%list ∧
           run_exploration E docs =
             [("status", JStr "error"); ("message", JError ex)] in
  (explore_res (rounds E (next_round st)) = [] → ends_with IndexError) ∧
  (∀ kind rest,
     explore_res (rounds E (next_round st)) = PStr kind :: rest →
     kind = "tap" ∨ kind = "long_press" ∨ kind = "swipe" →
     length rest ≠ 2%nat → ends_with ValueError) ∧
  (∀ kind s last,
     explore_res (rounds E (next_round st)) = [PStr kind; PStr s; last] →
     kind = "tap" ∨ kind = "long_press" ∨ kind = "swipe" →
     ends_with TypeError).
Proof.
  intros Hreach Hlt Hstop Hs ends_with.
  pose proof (session_last_round E docs st Hreach Hlt Hstop) as Hlast.
  split; [|split].
  - intros Hres.
    rewrite (round_empty_decision _ (enter st) Hs Hres) in Hlast.
    eexists. split; [exact Hlast|]. split; [done|].
    by rewrite (run_exploration_error _ _ _ _ Hlast).
  - intros kind rest Hres Hkind Hlen.
    destruct (round_wrong_arity _ (enter st) kind rest Hs Hres Hkind Hlen)
      as (last & Hround).
    rewrite Hround in Hlast.
    eexists. split; [exact Hlast|]. split; [done|].
    by rewrite (run_exploration_error _ _ _ _ Hlast).
  - intros kind s last Hres Hkind.
    rewrite (round_string_index _ (enter st) kind s last Hs Hres Hkind)
      in Hlast.
    eexists. split; [exact Hlast|]. split; [done|].
    by rewrite (run_exploration_error _ _ _ _ Hlast).
Qed.

(** X15.  Success is reported after a FINISH only.  If no round's decision
    is FINISH, [task_complete] is false when the session ends and the
    status of the result is not "success", however the loop ends. *)
Theorem success_needs_finish E docs :
  (∀ k, py_index (explore_res (rounds E k)) 0 ≠ Val (PStr "FINISH")) →
  task_complete (session E docs).2 = false ∧
  dict_get "status" (run_exploration E docs) ≠ Some (JStr "success").
Proof.
  intros Hno.
  pose proof (loop_no_finish E (Z.to_nat MAX_ROUNDS) (init_state docs) Hno
                eq_refl) as Htc.
  split; [exact Htc|].
  unfold run_exploration, session in *.
  destruct (loop _ E _) as [[[]|ex] st]; simpl in *.
  - unfold report, dict_get. simpl. by rewrite Htc.
  - done.
Qed.

(** *** Counting the calls *)

Lemma round_calls_app e st :
  calls (round_body e st).2 = (calls st ++ round_calls e st)%list.
Proof.
  destruct (round_body_calls_extended e st) as [k Hk].
  unfold round_calls. by rewrite Hk, drop_app_length.
Qed.

Lemma count_calls_app p l1 l2 :
  count_calls p (l1 ++ l2) = (count_calls p l1 + count_calls p l2)%nat.
Proof. unfold count_calls. by rewrite List.filter_app, length_app. Qed.

(** In a round: one prompt, at most one gesture, a reflection only after
    the gesture, a back navigation only after the reflection. *)
Lemma round_calls_counts e st :
  count_calls is_decide (round_calls e st) = 1%nat ∧
  (count_calls is_back (round_calls e st)
   ≤ count_calls is_reflect (round_calls e st))%nat ∧
  (count_calls is_reflect (round_calls e st)
   ≤ count_calls is_gesture (round_calls e st))%nat ∧
  (count_calls is_gesture (round_calls e st) ≤ 1)%nat.
Proof.
  destruct (round_cases e st) as [(-> & _)|(kind & area & elem & Hacts)].
  - unfold count_calls. simpl. lia.
  - rewrite (round_calls_exact e st kind area elem Hacts).
    destruct Hacts as (_ & Hkind & _).
    unfold calls_after_gesture, count_calls.
    destruct Hkind as [-> | ->];
      destruct (is_error (gesture_ret e)), (answers_back e); simpl; lia.
Qed.

Lemma document_io_same_round h r a d : keeps same_round (document_io h r a d).
Proof.
  unfold document_io. cbv zeta.
  repeat keeps_step; reflexivity.
Qed.

Lemma round_io_same_round h e : keeps same_round (round_io h e).
Proof.
  unfold round_io, render, explore, gesture, reflect_action, reflect_io.
  repeat first [ apply document_io_same_round | keeps_step ]; reflexivity.
Qed.

Lemma document_io_calls_extended h r a d :
  keeps calls_extended (document_io h r a d).
Proof.
  unfold document_io. cbv zeta.
  repeat keeps_step; unfold calls_extended; simpl; reflexivity.
Qed.

Lemma round_io_calls_extended h e : keeps calls_extended (round_io h e).
Proof.
  unfold round_io, render, explore, gesture, reflect_action, reflect_io.
  repeat first [ apply document_io_calls_extended | keeps_step ];
    unfold calls_extended; simpl; first [ reflexivity | by apply prefix_app_r ].
Qed.

Lemma round_calls_io_app h e st :
  calls (round_io h e st).2 = (calls st ++ round_calls_io h e st)%list.
Proof.
  destruct (round_io_calls_extended h e st) as [k Hk].
  unfold round_calls_io. by rewrite Hk, drop_app_length.
Qed.

(** In a round: no call at all if the prompt cannot be filled, else one
    prompt, at most one gesture, a reflection only after the gesture, a
    back navigation only after the reflection. *)
Lemma round_io_counts h e st :
  (count_calls is_back (round_calls_io h e st)
   ≤ count_calls is_reflect (round_calls_io h e st))%nat ∧
  (count_calls is_reflect (round_calls_io h e st)
   ≤ count_calls is_gesture (round_calls_io h e st))%nat ∧
  (count_calls is_gesture (round_calls_io h e st)
   ≤ count_calls is_decide (round_calls_io h e st))%nat ∧
  (count_calls is_decide (round_calls_io h e st) = 1%nat ∨
   (count_calls is_decide (round_calls_io h e st) = 0%nat ∧
    ∃ ex, round_io h e st = (Exc ex, st) ∧
          (re_sub h (task_desc h) = Exc ex ∨
           re_sub h (last_act st) = Exc ex))).
Proof.
  destruct (round_calls_io_cases h e st)
    as [(ex & Hre & Hround & ->)
       |[(_ & _ & _ & ->)
        |(_ & _ & kind & area & elem & last & Hacts & _ & ->)]].
  - unfold count_calls. simpl. repeat split; [lia..|].
    right. split; [done|]. exists ex. split; [done|]. tauto.
  - unfold count_calls. simpl. repeat split; [lia..|]. by left.
  - destruct Hacts as (_ & Hkind & _).
    unfold calls_after_gesture, count_calls.
    destruct Hkind as [-> | ->];
      destruct (re_sub h last), (is_error (gesture_ret e)),
               (answers_back e); simpl; repeat split; first [lia | by left].
Qed.

Lemma iteration_io_stopped h E st :
  stop_set E (round_count st) = true →
  iteration_io h E st = (Val LoopBreak, st).
Proof.
  intros Hstop. unfold iteration_io, bind, get, ret. simpl. by rewrite Hstop.
Qed.

Lemma iteration_io_starts_round h E st :
  stop_set E (round_count st) = false →
  iteration_io h E st = round_io h (rounds E (next_round st)) (enter st) ∧
  round_count (iteration_io h E st).2 = round_count st + 1.
Proof.
  intros Hstop.
  assert (Hit : iteration_io h E st =
                round_io h (rounds E (next_round st)) (enter st)).
  { unfold iteration_io, bind, get, modify. simpl. by rewrite Hstop. }
  split; [done|]. rewrite Hit.
  apply (round_io_same_round h (rounds E (next_round st)) (enter st)).
Qed.

(** What holds at every head of the loop and is handed on by a round that
    continues, gives what holds when the loop ends. *)
Lemma loop_io_ends h E (I : state → Prop)
    (P : result unit * state → Prop) :
  (∀ st, I st → P (Val tt, st)) →
  (∀ st, I st →
         match iteration_io h E st with
         | (Val LoopContinue, st') => I st'
         | (Val LoopBreak, st') => P (Val tt, st')
         | (Exc ex, st') => P (Exc ex, st')
         end) →
  ∀ fuel st, I st → P (loop_io h fuel E st).
Proof.
  intros Hend Hit fuel.
  induction fuel as [|fuel IH]; intros st HI; simpl; [by apply Hend|].
  destruct (round_count st <? MAX_ROUNDS); [|by apply Hend].
  specialize (Hit st HI).
  destruct (iteration_io h E st) as [[[]|ex] st1]; auto.
Qed.

(** X16.  The calls of a session are counted by its rounds.  When the
    session ends, there are at most as many gestures as exploration
    prompts, as many reflections as gestures, and as many back navigations
    as reflections.  The exploration prompt has been sent exactly
    [round_count] times, with one exception: if the session ended on the
    exception that [re.sub] raised on the task description or on the last
    action while the prompt of a round was filled (lines 290-295), that
    round was counted at line 236 and its prompt was never sent, so
    [round_count] is one more. *)
Theorem calls_are_counted_by_rounds h E docs :
  let o := session_io h E docs in
  (count_calls is_back (calls o.2)
   ≤ count_calls is_reflect (calls o.2))%nat ∧
  (count_calls is_reflect (calls o.2)
   ≤ count_calls is_gesture (calls o.2))%nat ∧
  (count_calls is_gesture (calls o.2)
   ≤ count_calls is_decide (calls o.2))%nat ∧
  (Z.of_nat (count_calls is_decide (calls o.2)) = round_count o.2 ∨
   (Z.of_nat (count_calls is_decide (calls o.2)) + 1 = round_count o.2 ∧
    ∃ ex, o.1 = Exc ex ∧
          (re_sub h (task_desc h) = Exc ex ∨
           re_sub h (last_act o.2) = Exc ex))).
Proof.
  cbv zeta. unfold session_io.
  apply (loop_io_ends h E calls_counted
           (λ o,
              (count_calls is_back (calls o.2)
               ≤ count_calls is_reflect (calls o.2))%nat ∧
              (count_calls is_reflect (calls o.2)
               ≤ count_calls is_gesture (calls o.2))%nat ∧
              (count_calls is_gesture (calls o.2)
               ≤ count_calls is_decide (calls o.2))%nat ∧
              (Z.of_nat (count_calls is_decide (calls o.2)) = round_count o.2 ∨
               (Z.of_nat (count_calls is_decide (calls o.2)) + 1
                  = round_count o.2 ∧
                ∃ ex, o.1 = Exc ex ∧
                      (re_sub h (task_desc h) = Exc ex ∨
                       re_sub h (last_act o.2) = Exc ex)))));
    [| |by unfold calls_counted].
  - intros st (Hd & Hb & Hr & Hg). simpl. auto.
  - intros st (Hd & Hb & Hr & Hg).
    destruct (stop_set E (round_count st)) eqn:Hstop.
    { rewrite iteration_io_stopped by done. simpl. auto. }
    destruct (iteration_io_starts_round h E st Hstop) as [Hit Hrc].
    pose proof (round_calls_io_app h (rounds E (next_round st)) (enter st))
      as Happ.
    destruct (round_io_counts h (rounds E (next_round st)) (enter st))
      as (H1 & H2 & H3 & H4).
    rewrite <- Hit in Happ. change (calls (enter st)) with (calls st) in Happ.
    assert (Hcounted :
      count_calls is_decide
        (round_calls_io h (rounds E (next_round st)) (enter st)) = 1%nat →
      calls_counted (iteration_io h E st).2).
    { intros H. unfold calls_counted.
      rewrite Hrc, Happ, !count_calls_app. lia. }
    destruct H4 as [H4|(H4 & ex & Hround & Hre)].
    + specialize (Hcounted H4).
      destruct (iteration_io h E st) as [[[]|ex] st1]; simpl in *;
        [done|..]; destruct Hcounted as (? & ? & ? & ?); auto.
    + rewrite Hit, Hround. simpl.
      change (calls (enter st)) with (calls st).
      change (last_act (enter st)) with (last_act st).
      split; [done|]. split; [done|]. split; [done|].
      right. split; [unfold next_round; lia|].
      exists ex. split; [done|]. exact Hre.
Qed.

End Session.


(** ** The design-file cache *)

Section FigmaFile.
Context {json : Type}.
Implicit Types (service : figma_service json) (d : disk json).

Lemma append_inv_l (a b c : string) :
  String.append a b = String.append a c → b = c.
Proof. induction a as [|ch a IH]; cbn; [done|]. intros [= H]. auto. Qed.

Lemma length_append (a b : string) :
  String.length (String.append a b)
  = (String.length a + String.length b)%nat.
Proof.
  induction a as [|ch a IH]; [done|].
  change (S (String.length (String.append a b))
          = S (String.length a + String.length b)).
  by rewrite IH.
Qed.

Lemma append_inv_r (a b c : string) :
  String.append a c = String.append b c → a = b.
Proof.
  revert b. induction a as [|ch a IH]; intros [|ch' b] H; [done| | |].
  - apply (f_equal String.length) in H. rewrite !length_append in H.
    cbn in H. lia.
  - apply (f_equal String.length) in H. rewrite !length_append in H.
    cbn in H. lia.
  - cbn in H. injection H as -> H. f_equal. auto.
Qed.

Lemma prefix_slash_append (k s : string) :
  String.prefix "/" k = false → String.prefix "/" s = false →
  String.prefix "/" (String.append k s) = false.
Proof.
  destruct k as [|ch k]; [done|]. intros H _.
  change (String.prefix "/" (String ch (String.append k s)) = false).
  unfold String.prefix in H |- *.
  destruct (Ascii.ascii_dec "/"%char ch); [|done]. by destruct k.
Qed.

Lemma data_path_inj (root_dir k1 k2 : string) :
  String.prefix "/" k1 = false → String.prefix "/" k2 = false →
  data_path root_dir k1 = data_path root_dir k2 → k1 = k2.
Proof.
  intros H1 H2. unfold data_path, path_join.
  rewrite !prefix_slash_append by done.
  destruct (_ || _); intros H.
  - apply append_inv_l in H. by apply append_inv_r in H.
  - apply append_inv_l, append_inv_l in H. by apply append_inv_r in H.
Qed.

Lemma get_figma_file_data_cases service file_key token root_dir d :
  let o := get_figma_file_data service file_key token root_dir d in
  (files d !! data_path root_dir file_key ≠ None ∧ o.2 = d
     ∧ (∀ file, o.1 = Returned file →
          files d !! data_path root_dir file_key = Some (JsonText file))
     ∧ (∀ c, o.1 ≠ Exited c))
  ∨ (files d !! data_path root_dir file_key = None
     ∧ requests o.2 = (requests d ++ [(figma_url file_key, token)])%list
     ∧ ((files o.2 = files d ∧ ∀ file, o.1 ≠ Returned file)
        ∨ ∃ file, o.1 = Returned file
            ∧ files o.2
              = <[data_path root_dir file_key := JsonText file]> (files d))
     ∧ (∀ c, o.1 = Exited c → c = 1)).
Proof.
  unfold get_figma_file_data.
  destruct (files d !! _) as [[file|]|] eqn:Hf; cbn.
  - left. split; [done|]. split; [done|]. split; [|done].
    by intros ? [= ->].
  - left. by repeat split.
  - right. split; [done|].
    destruct (http_get _ _ _) as [r|]; cbn; [|by split; [|split; [left|]]].
    destruct (status_code r =? 200); cbn;
      [|split; [done|]; split; [by left|]; by intros ? [= <-]].
    destruct (body r) as [file|]; cbn; [|by split; [|split; [left|]]].
    destruct (can_write _ _); cbn; [|by split; [|split; [left|]]].
    split; [done|]. split; [|done]. right. by exists file.
Qed.

(** X17. Once a call has returned the file data, every later call for the
    same key and root returns the same data from the disk: whatever the
    service would answer and whatever the token, no request is sent and
    the disk stays as it is. *)
Theorem fetched_file_is_served_from_disk
    service service' file_key token token' root_dir d d1 file :
  get_figma_file_data service file_key token root_dir d
    = (Returned file, d1) →
  get_figma_file_data service' file_key token' root_dir d1
    = (Returned file, d1).
Proof.
  intros H.
  assert (files d1 !! data_path root_dir file_key = Some (JsonText file))
    as Hf.
  { pose proof (get_figma_file_data_cases service file_key token root_dir d)
      as Hc. cbn in Hc. rewrite H in Hc. cbn in Hc.
    destruct Hc as [(_ & -> & Hr & _)|(_ & _ & [[_ Hn]|(f & [= <-] & ->)] & _)].
    - by apply Hr.
    - by destruct (Hn file).
    - by rewrite lookup_insert_eq. }
  unfold get_figma_file_data. fold (data_path root_dir file_key).
  by rewrite Hf.
Qed.

(** X18. What a call does to the outside.  It sends a request exactly
    when no file is at the data path, and then one request, for the key's
    url with the caller's token.  It never changes a file that exists:
    the only write is the fetched data at the data path, after a miss
    that returns.  The process is only ever exited with code 1, and
    never after a hit. *)
Theorem cache_never_overwrites service file_key token root_dir d :
  let o := get_figma_file_data service file_key token root_dir d in
  (requests o.2 = requests d
     ↔ files d !! data_path root_dir file_key ≠ None)
  ∧ (requests o.2 = requests d
     ∨ requests o.2 = (requests d ++ [(figma_url file_key, token)])%list)
  ∧ (∀ p c, files d !! p = Some c → files o.2 !! p = Some c)
  ∧ (∀ p, p ≠ data_path root_dir file_key →
       files o.2 !! p = files d !! p)
  ∧ ((∀ file, o.1 ≠ Returned file) → files o.2 = files d)
  ∧ (∀ c, o.1 = Exited c →
       c = 1 ∧ files d !! data_path root_dir file_key = None).
Proof.
  pose proof (get_figma_file_data_cases service file_key token root_dir d)
    as Hc. cbn in Hc |- *.
  destruct Hc as [(Hf & -> & _ & Hx)|(Hf & Hq & Hw & Hx)].
  - split; [done|]. split; [by left|]. split; [done|]. split; [done|].
    split; [done|]. intros c Hc. by destruct (Hx c).
  - split.
    { rewrite Hq, Hf. split; [|done]. intros Heq.
      apply (f_equal length) in Heq. rewrite length_app in Heq.
      cbn in Heq. lia. }
    split; [by right|].
    destruct Hw as [[-> Hn]|(file & Hr & ->)].
    + split; [done|]. split; [done|]. split; [done|].
      intros c Hc. split; [by apply Hx|done].
    + split.
      { intros p c Hp. rewrite lookup_insert_ne; [done|]. congruence. }
      split.
      { intros p Hp. by rewrite lookup_insert_ne. }
      split.
      { intros Hn. by destruct (Hn file). }
      intros c Hc. split; [by apply Hx|done].
Qed.

(** X19. A failure is not cached.  A call on a miss that does not return
    the data (the service refused, the connection or the answer was
    broken, the file could not be written) leaves the data path empty, so
    the next call asks the service again and, answered with status 200,
    returns and stores what it gets. *)
Theorem failed_fetch_is_asked_again
    service service' file_key token token' root_dir d response file :
  files d !! data_path root_dir file_key = None →
  (∀ f, (get_figma_file_data service file_key token root_dir d).1
          ≠ Returned f) →
  http_get service' (figma_url file_key) token' = Some response →
  status_code response = 200 →
  body response = Some file →
  can_write service' (data_path root_dir file_key) = true →
  let d1 := (get_figma_file_data service file_key token root_dir d).2 in
  let o := get_figma_file_data service' file_key token' root_dir d1 in
  o.1 = Returned file
  ∧ files o.2 = <[data_path root_dir file_key := JsonText file]> (files d)
  ∧ requests o.2
    = (requests d ++ [(figma_url file_key, token);
                      (figma_url file_key, token')])%list.
Proof.
  intros Hf Hn Hg Hs Hb Hw.
  pose proof (get_figma_file_data_cases service file_key token root_dir d)
    as Hc.
  destruct (get_figma_file_data service file_key token root_dir d)
    as [o1 d1]. cbn in Hc, Hn |- *.
  destruct Hc as [(Hf' & _)|(_ & Hq & Hfiles & _)]; [done|].
  destruct Hfiles as [[Hfiles _]|(f & Hr & _)]; [|by destruct (Hn f)].
  unfold get_figma_file_data.
  rewrite Hfiles, Hf, Hg, Hs, Hb, Hw. cbn.
  split; [done|]. split; [done|].
  by rewrite Hq, <- app_assoc.
Qed.

Lemma no_slash_prefix (k : string) :
  no_slash k = true → String.prefix "/" k = false.
Proof.
  destruct k as [|c k]; [done|]. cbn [no_slash].
  intros [Hc _]%andb_true_iff. unfold String.prefix.
  destruct (Ascii.ascii_dec "/"%char c) as [<-|]; [|done].
  by rewrite Ascii.eqb_refl in Hc.
Qed.

(** X20. The data of one design file is never served for another.  Two
    file keys without a slash (as line 105 cuts them out of the URL, up to
    the next slash) that differ are the names of two different entries of
    the root directory, so a call for one key neither creates nor changes
    the entry of the other: after it, the call for the other key finds
    its data path as it was. *)
Theorem keys_do_not_share_a_file
    service file_key file_key' token root_dir d :
  no_slash file_key = true →
  no_slash file_key' = true →
  file_key ≠ file_key' →
  data_path root_dir file_key ≠ data_path root_dir file_key'
  ∧ files (get_figma_file_data service file_key token root_dir d).2
      !! data_path root_dir file_key'
    = files d !! data_path root_dir file_key'.
Proof.
  intros H1%no_slash_prefix H2%no_slash_prefix Hne.
  assert (data_path root_dir file_key ≠ data_path root_dir file_key') as Hp.
  { intros H. by apply Hne, (data_path_inj root_dir). }
  split; [done|].
  pose proof (get_figma_file_data_cases service file_key token root_dir d)
    as Hc. cbn in Hc.
  destruct Hc as [(_ & -> & _)|(_ & _ & [[-> _]|(f & _ & ->)] & _)];
    [done|done|].
  by rewrite lookup_insert_ne.
Qed.

End FigmaFile.

(** ** The control surface *)

(** [run_exploration] as the thread of the server calls it, on the
    dictionary that [/init] stored.  Lines 171-185 read the keys of the
    dictionary inside the [try]; the error dictionary has no key [app].
    Then the session runs at the canvas offset of the dictionary. *)
Definition run_exploration_on (MAX_ROUNDS : Z) (v : init_value) (E : env)
    (docs : gmap string (gmap string pyval)) : list (string * jval) :=
  match v with
  | InitError _ => conclude (Exc (KeyError "app"), init_state docs)
  | InitData _ _ x y => run_exploration MAX_ROUNDS x y E docs
  end.

Lemma handle_invariant (r : request) (s : server) :
  server_invariant s → server_invariant (handle r s).2.
Proof.
  intros [Hlast Hinit]. unfold server_invariant.
  destruct r as [init data|data alive|alive aj has|alive|read]; cbn.
  - unfold initialize.
    destruct (data !! "app"); [|done].
    destruct (data !! "url"); [|done].
    by destruct (init _ _ _ _).
  - unfold explore_request.
    destruct (_ && _); [done|].
    destruct (init_data s) as [v|] eqn:Hv; cbn; [|by rewrite Hv].
    destruct (data !! "task_desc"); cbn; [|by rewrite Hv].
    split; [right; by rewrite last_snoc|done].
  - unfold stop_exploration.
    destruct (_ && _ && _); cbn; [done|]. split; [by left|].
    by intros [? [=]].
  - unfold exploration_status. by destruct (_ && _).
  - unfold get_report.
    destruct (init_data s) as [[? p ? ?|]|] eqn:Hv; cbn;
      [|by rewrite Hv..].
    destruct (read p); cbn; by rewrite Hv.
Qed.

Lemma serve_cons (r : request) (rs : list request) (s : server) :
  (serve (r :: rs) s).2 = (serve rs (handle r s).2).2.
Proof.
  cbn. destruct (handle r s) as [h s1]. cbn. by destruct (serve rs s1).
Qed.

(** X21. Whatever requests the server has handled since the module was
    loaded, and whatever the outside answered: the registered thread, if
    there is one, is the thread started last, and a thread is registered
    only while an [/init] result is stored. *)
Theorem registered_thread_is_the_last_started (rs : list request) :
  server_invariant (serve rs server_start).2.
Proof.
  assert (∀ s, server_invariant s → server_invariant (serve rs s).2) as H.
  { induction rs as [|r rs IH]; intros s Hs; [done|].
    rewrite serve_cons. by apply IH, handle_invariant. }
  apply H. split; [by left|]. by intros [? [=]].
Qed.

(** X22. No request makes the server forget a session that may still run.
    The registered thread changes only if there was none or the handler
    was told by [is_alive()] that it has ended.  A thread is started only
    by [/explore], one at a time, on the stored [/init] result, with the
    stop event cleared and the thread registered. *)
Theorem running_session_is_never_dropped (r : request) (s : server) :
  (exploration_thread (handle r s).2 ≠ exploration_thread s →
   exploration_thread s = None ∨ saw_thread_ended r = true)
  ∧ (started (handle r s).2 = started s
     ∨ ∃ data alive t,
         r = PostExplore data alive
         ∧ started (handle r s).2 = (started s ++ [t])%list
         ∧ exploration_thread (handle r s).2 = Some t
         ∧ init_data s = Some (thread_init_data t)
         ∧ data !! "task_desc" = Some (thread_task_desc t)
         ∧ stop_event (handle r s).2 = false).
Proof.
  destruct r as [init data|data alive|alive aj has|alive|read]; cbn.
  - unfold initialize.
    destruct (data !! "app"); [|by split; [|left]].
    destruct (data !! "url"); [|by split; [|left]].
    by destruct (init _ _ _ _); (split; [|left]).
  - unfold explore_request.
    destruct (exploration_thread s) as [t0|] eqn:Ht, alive; cbn;
      try (by split; [|left]);
      (destruct (init_data s) as [v|] eqn:Hv; [|by split; [auto|left]]);
      (destruct (data !! "task_desc") as [task|] eqn:Hd;
         [|by split; [auto|left]]); cbn;
      (split; [auto|right]);
      by eexists data, _, _.
  - unfold stop_exploration.
    destruct (exploration_thread s) as [t0|] eqn:Ht, alive, aj; cbn;
      by (split; [auto|left]).
  - unfold exploration_status. by destruct (_ && _); (split; [|left]).
  - unfold get_report.
    destruct (init_data s) as [[? p ? ?|]|]; [|by split; [|left]..].
    by destruct (read p); (split; [|left]).
Qed.

Lemma handle_browsers (r : request) (s : server) :
  (length (closed (handle r s).2) + holds_browser (handle r s).2
   ≤ length (closed s) + holds_browser s
     + (if opens_browser r then 1 else 0))%nat.
Proof.
  destruct r as [init data|data alive|alive aj has|alive|read]; cbn.
  - unfold initialize.
    destruct (data !! "app"); cbn; [|lia].
    destruct (data !! "url"); cbn; [|lia].
    destruct (init _ _ _ _); unfold holds_browser; cbn;
      destruct (init_data s) as [[]|]; lia.
  - unfold explore_request. destruct (_ && alive); cbn; [lia|].
    unfold holds_browser.
    destruct (init_data s) as [v|] eqn:Hv; cbn; [|rewrite ?Hv; lia].
    destruct (data !! "task_desc"); cbn; rewrite ?Hv; lia.
  - unfold stop_exploration, holds_browser.
    destruct (_ && _ && aj); cbn; [lia|].
    destruct (init_data s) as [[]|]; [destruct has|..];
      rewrite ?length_app; cbn; lia.
  - unfold exploration_status. destruct (_ && alive); cbn; lia.
  - unfold get_report, holds_browser.
    destruct (init_data s) as [[? p ? ?|]|] eqn:Hv; cbn;
      [|rewrite ?Hv; lia..].
    destruct (read p); cbn; rewrite ?Hv; lia.
Qed.

(** X23. The server tells a browser to quit at most as often as [/init]
    has opened one, and while it still holds a dictionary with a browser,
    strictly less often: over any requests since the module was loaded,
    the dictionaries closed plus the one held are at most the [/init]
    requests that returned a dictionary. *)
Theorem browsers_closed_at_most_opened (rs : list request) :
  (length (closed (serve rs server_start).2)
   + holds_browser (serve rs server_start).2
   ≤ browsers_opened rs)%nat.
Proof.
  assert (∀ s, (length (closed (serve rs s).2) + holds_browser (serve rs s).2
                ≤ length (closed s) + holds_browser s + browsers_opened rs)%nat)
    as H.
  { induction rs as [|r rs IH]; intros s; [cbn; lia|].
    rewrite serve_cons. specialize (IH (handle r s).2).
    pose proof (handle_browsers r s). cbn [browsers_opened]. lia. }
  apply (H server_start).
Qed.

(** X24. An [/init] that failed does not block [/explore].  The error
    dictionary is stored like a good one, so the next [/explore] answers
    that the exploration started and starts a thread on it; that thread's
    [run_exploration] ends at once with an error result, the key [app]
    missing, whatever the model would have answered. *)
Theorem explore_after_failed_init
    init (data data' : gmap string string) alive (s : server)
    app_name url task_desc message MAX_ROUNDS E docs :
  data !! "app" = Some app_name →
  data !! "url" = Some url →
  init (remove_spaces app_name) url (data !! "password")
       (default "./" (data !! "root_dir")) = InitError message →
  exploration_thread s = None ∨ alive = false →
  data' !! "task_desc" = Some task_desc →
  let t := mkThread (InitError message) task_desc
                    (default "" (data' !! "persona_desc")) in
  (initialize init data s).1 = Replied (status_reply 200 "error" message)
  ∧ explore_request data' alive (initialize init data s).2
    = (Replied (status_reply 200 "success" "Exploration started"),
       mkServer (Some t) false (Some (InitError message))
                (started s ++ [t]) (closed s))
  ∧ run_exploration_on MAX_ROUNDS (thread_init_data t) E docs
    = [("status", JStr "error"); ("message", JError (KeyError "app"))].
Proof.
  intros Ha Hu Hi Hth Hd. cbn.
  unfold initialize. rewrite Ha, Hu, Hi. cbn. split; [done|].
  split; [|done].
  unfold explore_request. cbn.
  assert (bool_decide (is_Some (exploration_thread s)) && alive = false)
    as ->.
  { destruct Hth as [->| ->]; [done|]. by rewrite andb_false_r. }
  by rewrite Hd.
Qed.

(** X25. After a stop that went through, a new [/init] is required.  The
    stop went through if no thread was registered or [is_alive()] answered
    that it had ended, at once or after the join.  Then, whatever the
    requests carry and whatever the outside answers: [/explore] is refused
    and changes nothing, the status is idle, no report is served, no
    thread has been started, and the stop event stays set. *)
Theorem stop_requires_new_init
    (alive alive_after_join has_driver : bool) (s : server) :
  exploration_thread s = None ∨ alive = false ∨ alive_after_join = false →
  let o := stop_exploration alive alive_after_join has_driver s in
  o.1 = Replied (status_reply 200 "success"
                   "Exploration stopped and resources cleaned up")
  ∧ (∀ data alive',
       explore_request data alive' o.2
       = (Replied (status_reply 200 "error" "Initialization not completed"),
          o.2))
  ∧ (∀ alive',
       exploration_status alive' o.2
       = (Replied (status_reply 200 "idle" "No exploration in progress"),
          o.2))
  ∧ (∀ read,
       get_report read o.2
       = (Replied (status_reply 404 "error" "Report not available"), o.2))
  ∧ stop_event o.2 = true
  ∧ started o.2 = started s.
Proof.
  intros H. cbn. unfold stop_exploration.
  assert (bool_decide (is_Some (exploration_thread s)) && alive
          && alive_after_join = false) as ->.
  { destruct H as [->|[->| ->]]; [done| |];
      by rewrite ?andb_false_r. }
  by repeat split.
Qed.

(** X26. A stop that times out gives nothing up.  If the registered thread
    is still alive after the join, the answer is the error with code 500;
    the thread stays registered, the [/init] result stays stored and no
    browser is told to quit; only the stop event is set.  While the thread
    lives, [/explore] is refused; once it has ended, [/explore] starts a
    new thread on the same [/init] result and clears the stop event. *)
Theorem stop_timeout_keeps_session (has_driver : bool) (s : server) t v :
  exploration_thread s = Some t →
  init_data s = Some v →
  let o := stop_exploration true true has_driver s in
  o.1 = Replied (status_reply 500 "error"
     "An unexpected error occurred: Exploration thread did not terminate in time")
  ∧ o.2 = mkServer (Some t) true (Some v) (started s) (closed s)
  ∧ (∀ data,
       explore_request data true o.2
       = (Replied (status_reply 200 "error" "Exploration already in progress"),
          o.2))
  ∧ (∀ data task_desc,
       data !! "task_desc" = Some task_desc →
       let t' := mkThread v task_desc (default "" (data !! "persona_desc")) in
       explore_request data false o.2
       = (Replied (status_reply 200 "success" "Exploration started"),
          mkServer (Some t') false (Some v) (started s ++ [t']) (closed s))).
Proof.
  intros Ht Hv. cbn. unfold stop_exploration. rewrite Ht, Hv. cbn.
  split; [done|]. split; [done|]. split; [done|].
  intros data task_desc Hd. unfold explore_request. cbn. by rewrite Hd.
Qed.

(** X27. [/init] does not look at what is stored.  A second [/init] that
    returns a dictionary replaces the stored one without closing its
    browser and without touching the registered thread; the stop that
    follows tells only the browser of the second dictionary to quit, so
    the first one is never closed by the server. *)
Theorem second_init_replaces_the_browser
    init (data : gmap string string) (s : server) app_name url
    task_dir report_log_path x y (alive alive_after_join : bool) :
  data !! "app" = Some app_name →
  data !! "url" = Some url →
  init (remove_spaces app_name) url (data !! "password")
       (default "./" (data !! "root_dir"))
    = InitData task_dir report_log_path x y →
  exploration_thread s = None ∨ alive = false ∨ alive_after_join = false →
  let s1 := (initialize init data s).2 in
  let s2 := (stop_exploration alive alive_after_join true s1).2 in
  exploration_thread s1 = exploration_thread s
  ∧ closed s1 = closed s
  ∧ closed s2 = (closed s ++ [InitData task_dir report_log_path x y])%list
  ∧ init_data s2 = None.
Proof.
  intros Ha Hu Hi H. cbn. unfold initialize. rewrite Ha, Hu, Hi. cbn.
  split; [done|]. split; [done|].
  unfold stop_exploration. cbn.
  assert (bool_decide (is_Some (exploration_thread s)) && alive
          && alive_after_join = false) as ->.
  { destruct H as [->|[->| ->]]; [done| |];
      by rewrite ?andb_false_r. }
  done.
Qed.

(** ** The properties on the sample sessions *)

Lemma C4_finish_witness :
  run_exploration 5 0 0 E_finish ∅ =
    [("status", JStr "success"); ("task_complete", JBool true);
     ("rounds", JInt 2); ("docs_generated", JInt 1)].
Proof.
  destruct (C4_finish_ends_session 5 0 0 E_finish ∅ (first_head 0 0 E_finish ∅) [])
    as (st' & _ & _ & _ & _ & _ & H).
  - apply reach_first_head; [done | vm_compute; reflexivity].
  - vm_compute. reflexivity.
  - reflexivity.
  - reflexivity.
  - reflexivity.
  - exact H.
Defined.

Lemma C1_text_witness :
  run_exploration 5 0 0 E_text ∅ =
    [("status", JStr "incomplete"); ("task_complete", JBool false);
     ("rounds", JInt 2); ("docs_generated", JInt 1)].
Proof.
  destruct (C1_text_decision_ends_session 5 0 0 E_text ∅
              (first_head 0 0 E_text ∅) [PStr "hello"; PStr "typed hello"])
    as (st' & _ & _ & _ & _ & _ & H).
  - apply reach_first_head; [done | vm_compute; reflexivity].
  - vm_compute. reflexivity.
  - reflexivity.
  - reflexivity.
  - reflexivity.
  - exact H.
Defined.

Lemma C5_out_of_range_witness :
  ∃ ex st',
    session 5 0 0 E_out_of_range ∅ = (Exc ex, st') ∧
    round_count st' = 2 ∧
    calls st' = (calls (first_head 0 0 E_out_of_range ∅) ++ [Decide])%list ∧
    run_exploration 5 0 0 E_out_of_range ∅ =
      [("status", JStr "error"); ("message", JError ex)].
Proof.
  destruct (C5_unresolved_index_is_error 5 0 0 E_out_of_range ∅
              (first_head 0 0 E_out_of_range ∅) "tap" 4
              [PStr "tapped element 4"])
    as (ex & st' & Hs & Hrc & Hcalls & Hr).
  - apply reach_first_head; [done | vm_compute; reflexivity].
  - vm_compute. reflexivity.
  - reflexivity.
  - reflexivity.
  - reflexivity.
  - left. reflexivity.
  - left. vm_compute. reflexivity.
  - exists ex, st'. repeat split; [exact Hs | exact Hrc | exact Hcalls | exact Hr].
Defined.

Lemma tap_settings_acts_on (verdict : list pyval)
    (docs : gmap string (gmap string pyval)) :
  acts_on (sample_round tap_settings verdict) (init_state docs) "tap" 2
          settings_elem.
Proof.
  split; [reflexivity|]. split; [by left|]. split; [by eexists|].
  vm_compute. reflexivity.
Qed.

Lemma C2_documented_witness :
  let e := sample_round tap_settings
             [PStr "SUCCESS"; PStr "a dialog opened"; PStr "opens a dialog"] in
  docs_dir (round_body 0 0 e (init_state docs_settings)).2 = docs_settings ∧
  doc_count (round_body 0 0 e (init_state docs_settings)).2 = 0.
Proof.
  intros e.
  destruct (C2_documented_slot_is_not_rewritten 5 0 0 "settings" "tap"
              (PStr "opens settings panel") (init_state docs_settings))
    as (_ & H & _).
  - vm_compute. reflexivity.
  - reflexivity.
  - apply (H e 2 settings_elem); [apply tap_settings_acts_on | reflexivity].
Defined.

Lemma C3_ineffective_witness :
  "settings" ∈ useless_list (round_body 0 0 round_ineffective (init_state ∅)).2.
Proof.
  apply (proj1 (C3_useless_list_is_append_only_and_filters 5 0 0 E_tap)
           round_ineffective (init_state ∅) "tap" 2 settings_elem
           "INEFFECTIVE").
  - apply tap_settings_acts_on.
  - split; [reflexivity|]. split; reflexivity.
  - by left.
Defined.



Lemma C7_stop_witness :
  dict_get "rounds" (run_exploration 5 0 0 E_stop ∅) = Some (JInt 2).
Proof.
  destruct (C7_stop_waits_for_the_round 5 0 0 E_stop ∅ (first_head 0 0 E_stop ∅))
    as (_ & _ & H).
  - apply reach_first_head; [done | vm_compute; reflexivity].
  - vm_compute. reflexivity.
  - reflexivity.
  - reflexivity.
  - apply (H LoopContinue). vm_compute. reflexivity.
Defined.

Lemma C8_max_rounds_witness :
  run_exploration 2 0 0 E_tap ∅ =
    [("status", JStr "incomplete"); ("task_complete", JBool false);
     ("rounds", JInt 2); ("docs_generated", JInt 1)].
Proof.
  destruct (C8_round_counter 2 0 0 E_tap ∅) as (_ & _ & _ & _ & _ & H);
    [lia|].
  assert (Hr := H (session 2 0 0 E_tap ∅).2).
  clear H. exact (Hr ltac:(vm_compute; reflexivity)
                     ltac:(vm_compute; reflexivity)
                     ltac:(intros k; simpl; discriminate)).
Defined.

Lemma C9_tap_settings_witness :
  ∃ l,
    round_calls 100 50 (sample_round tap_settings verdict_success)
      (init_state ∅) =
      Decide :: performed "tap" (center 100 50 settings_elem) :: l ∧
    gesture_point (performed "tap" (center 100 50 settings_elem)) =
      Some (center 100 50 settings_elem) ∧
    Forall (λ c, gesture_point c = None) l.
Proof.
  apply (proj1 (proj2 (C9_interaction_point_is_offset_center 100 50
                         (sample_round tap_settings verdict_success)
                         (init_state ∅))) "tap" 2 settings_elem).
  apply tap_settings_acts_on.
Defined.

(** C10 at a swipe.  A swipe decision with index 0 on the three elements of
    the sample screen raises a [ValueError] at the unpacking of line 320:
    the index is never looked up, no gesture is sent, and the session ends
    in its first round with the status "error". *)
Theorem C10_swipe_index_zero_raises :
  elem_list ∅ (node_elems (rounds E_swipe_zero 1)) = settings_screen ∧
  session 5 0 0 E_swipe_zero ∅ =
    (Exc ValueError,
     decided (PStr "swiped up") (enter (init_state ∅))) ∧
  calls (session 5 0 0 E_swipe_zero ∅).2 = [Decide] ∧
  run_exploration 5 0 0 E_swipe_zero ∅ =
    [("status", JStr "error"); ("message", JError ValueError)].
Proof. vm_compute. repeat split. Qed.

Lemma round_swipe_raises_witness :
  ∃ ex last,
    round_body 0 0 (sample_round swipe_zero verdict_success) (init_state ∅) =
      (Exc ex, decided last (init_state ∅)).
Proof.
  apply (round_swipe_raises 0 0 (sample_round swipe_zero verdict_success)
           (init_state ∅)
           [PInt 0; PStr "up"; PStr "medium"; PStr "swiped up"]);
    reflexivity.
Defined.

Lemma round_index_zero_witness :
  let e := sample_round [PStr "tap"; PInt 0; PStr "tapped"] verdict_success in
  (calls (init_state ∅) ++
     [Decide; performed "tap" (center 0 0 (mkElem "help" ((40, 10), (60, 30))))])%list
    `prefix_of` calls (round_body 0 0 e (init_state ∅)).2.
Proof.
  intros e.
  apply (round_index_zero 0 0 e (init_state ∅) "tap"
           [mkElem "menu" ((0, 0), (8, 8)); settings_elem]
           (mkElem "help" ((40, 10), (60, 30))) (PStr "tapped")).
  - reflexivity.
  - by left.
  - reflexivity.
  - vm_compute. reflexivity.
Defined.

Lemma loop_fuel_witness :
  loop 2 0 0 7 E_tap (init_state ∅) =
  loop 2 0 0 (Z.to_nat (2 - round_count (init_state ∅))) E_tap (init_state ∅).
Proof.
  apply (loop_fuel 2 0 0 E_tap 7 (init_state ∅)). simpl. lia.
Defined.

Lemma last_act_after_verdict_witness :
  py_index tap_settings (-1) =
    Val (last_act (round_body 0 0 (sample_round tap_settings verdict_success)
                     (init_state ∅)).2).
Proof.
  apply (proj2 (last_act_after_verdict 0 0
                  (sample_round tap_settings verdict_success) (init_state ∅)
                  "tap" 2 settings_elem "SUCCESS"
                  (tap_settings_acts_on verdict_success ∅)
                  ltac:(split; [reflexivity|]; split; reflexivity))).
  reflexivity.
Defined.

Lemma round_call_protocol_witness :
  round_calls_io 0 0 host_plain (sample_round tap_path verdict_success)
                 (init_state ∅)
  = [Decide; performed "tap" (center 0 0 settings_elem)].
Proof.
  destruct (round_call_protocol 0 0 host_plain
              (sample_round tap_path verdict_success) (init_state ∅))
    as (_ & H & _).
  destruct (H eq_refl eq_refl) as [_ Hcalls].
  apply (Hcalls "tap" 2 settings_elem (PStr "typed C:\dir")).
  - split; [reflexivity|]. split; [by left|]. split; [by eexists|].
    vm_compute. reflexivity.
  - reflexivity.
Defined.

Lemma documentation_is_written_witness :
  let o := round_io 0 0 host_plain (sample_round tap_settings verdict_success)
             (init_state ∅) in
  o.1 = Val LoopContinue ∧
  docs_dir o.2 !! "settings"
    = Some (<["tap" := PStr "opens settings panel"]> fresh_doc_content) ∧
  doc_count o.2 = 0 + 1.
Proof.
  apply (documentation_is_written 0 0 host_plain
           (sample_round tap_settings verdict_success) (init_state ∅)
           "tap" 2 settings_elem (PStr "tapped the settings icon")
           "SUCCESS" (PStr "opens settings panel") fresh_doc_content).
  - reflexivity.
  - reflexivity.
  - apply tap_settings_acts_on.
  - reflexivity.
  - reflexivity.
  - split; [reflexivity|]. split; reflexivity.
  - right. by left.
  - reflexivity.
  - left. split; reflexivity.
  - reflexivity.
Defined.

Lemma documentation_needs_a_verdict_witness :
  ∃ kind area elem verdict,
    acts_on (sample_round tap_settings verdict_success) (init_state ∅)
            kind area elem ∧
    judged (sample_round tap_settings verdict_success) verdict ∧
    (verdict = "BACK" ∨ verdict = "CONTINUE" ∨ verdict = "SUCCESS").
Proof.
  apply (documentation_needs_a_verdict 0 0).
  right. vm_compute. discriminate.
Defined.

Lemma well_formed_store_never_raises_witness :
  well_formed (docs_dir (session 5 0 0 E_tap docs_settings).2) ∧
  ∀ k, (session 5 0 0 E_tap docs_settings).1 ≠ Exc (KeyError k).
Proof.
  apply (well_formed_store_never_raises 5 0 0 E_tap docs_settings).
  intros r doc_content Hr k Hk. unfold docs_settings in Hr.
  apply lookup_singleton_Some in Hr as [_ <-].
  unfold fixed_keys in Hk.
  decompose_list_elem_of; subst; eexists; vm_compute; reflexivity.
Defined.

Lemma missing_key_is_an_error_witness :
  ∃ st',
    session 5 0 0 E_tap docs_foreign = (Exc (KeyError "tap"), st') ∧
    docs_dir st' = docs_foreign ∧
    run_exploration 5 0 0 E_tap docs_foreign =
      [("status", JStr "error"); ("message", JError (KeyError "tap"))].
Proof.
  apply (missing_key_is_an_error 5 0 0 E_tap docs_foreign
           (init_state docs_foreign) "tap" 2 settings_elem "SUCCESS" ∅).
  - apply reach_refl.
  - vm_compute. reflexivity.
  - reflexivity.
  - split; [reflexivity|]. split; [by left|]. split; [by eexists|].
    vm_compute. reflexivity.
  - split; [reflexivity|]. split; reflexivity.
  - right. by left.
  - vm_compute. reflexivity.
  - reflexivity.
Defined.

Lemma no_round_is_run_witness :
  session 0 0 0 E_tap ∅ = (Val tt, init_state ∅) ∧
  calls (session 0 0 0 E_tap ∅).2 = [] ∧
  run_exploration 0 0 0 E_tap ∅ =
    [("status", JStr "incomplete"); ("task_complete", JBool false);
     ("rounds", JInt 0); ("docs_generated", JInt 0)].
Proof.
  apply (no_round_is_run 0 0 0 E_tap ∅). left. lia.
Defined.

Lemma exhausted_screen_is_an_error_witness :
  elem_list ∅ [] = [] ∧
  ∃ ex st',
    session 5 0 0 E_empty_screen ∅ = (Exc ex, st') ∧
    calls st' = [Decide] ∧
    run_exploration 5 0 0 E_empty_screen ∅ =
      [("status", JStr "error"); ("message", JError ex)].
Proof.
  apply (exhausted_screen_is_an_error 5 0 0 E_empty_screen ∅ (init_state ∅)
           "tap" 2 [PStr "tapped the settings icon"]).
  - apply reach_refl.
  - vm_compute. reflexivity.
  - reflexivity.
  - reflexivity.
  - reflexivity.
  - by left.
  - intros elem Helem. cbn in Helem. by apply elem_of_nil in Helem.
Defined.

Lemma malformed_decision_is_an_error_witness :
  ∃ st',
    session 5 0 0 E_empty_decision ∅ = (Exc IndexError, st') ∧
    calls st' = [Decide] ∧
    run_exploration 5 0 0 E_empty_decision ∅ =
      [("status", JStr "error"); ("message", JError IndexError)].
Proof.
  destruct (malformed_decision_is_an_error 5 0 0 E_empty_decision ∅
              (init_state ∅)) as (H & _ & _).
  - apply reach_refl.
  - vm_compute. reflexivity.
  - reflexivity.
  - reflexivity.
  - apply H. reflexivity.
Defined.

Lemma success_needs_finish_witness :
  task_complete (session 5 0 0 E_tap ∅).2 = false ∧
  dict_get "status" (run_exploration 5 0 0 E_tap ∅) ≠ Some (JStr "success").
Proof.
  apply (success_needs_finish 5 0 0 E_tap ∅).
  intros k. simpl. discriminate.
Defined.

Lemma fetched_file_is_served_from_disk_witness :
  let d1 := (get_figma_file_data service_ok "abc" "token" "./" empty_disk).2 in
  get_figma_file_data service_down "abc" "" "./" d1
    = (Returned "design document", d1).
Proof.
  intros d1.
  apply (fetched_file_is_served_from_disk service_ok service_down
           "abc" "token" "" "./" empty_disk d1 "design document").
  vm_compute. reflexivity.
Defined.

Lemma failed_fetch_is_asked_again_witness :
  let d1 := (get_figma_file_data service_refuses "abc" "old" "./"
               empty_disk).2 in
  let o := get_figma_file_data service_ok "abc" "new" "./" d1 in
  o.1 = Returned "design document"
  ∧ files o.2 = <[data_path "./" "abc" := JsonText "design document"]> ∅
  ∧ requests o.2
    = [(figma_url "abc", "old"); (figma_url "abc", "new")].
Proof.
  apply (failed_fetch_is_asked_again service_refuses service_ok
           "abc" "old" "new" "./" empty_disk
           (mkResponse 200 (Some "design document")) "design document").
  - vm_compute. reflexivity.
  - intros f. vm_compute. discriminate.
  - reflexivity.
  - reflexivity.
  - reflexivity.
  - reflexivity.
Defined.

Lemma keys_do_not_share_a_file_witness :
  data_path "./" "abc" ≠ data_path "./" "abd"
  ∧ files (get_figma_file_data service_ok "abc" "token" "./" empty_disk).2
      !! data_path "./" "abd"
    = files empty_disk !! data_path "./" "abd".
Proof.
  apply (keys_do_not_share_a_file service_ok "abc" "abd" "token" "./"
           empty_disk); [reflexivity | reflexivity | discriminate].
Defined.

Lemma explore_after_failed_init_witness :
  let t := mkThread (InitError "Error during initialization: no such window")
                    "open the settings" "" in
  (initialize init_fails init_body server_start).1
    = Replied (status_reply 200 "error"
                 "Error during initialization: no such window")
  ∧ explore_request explore_body false
      (initialize init_fails init_body server_start).2
    = (Replied (status_reply 200 "success" "Exploration started"),
       mkServer (Some t) false
                (Some (InitError "Error during initialization: no such window"))
                [t] [])
  ∧ run_exploration_on 5 (thread_init_data t) E_tap ∅
    = [("status", JStr "error"); ("message", JError (KeyError "app"))].
Proof.
  apply (explore_after_failed_init init_fails init_body explore_body false
           server_start "My App" "https://www.figma.com/proto/abc/App"
           "open the settings" "Error during initialization: no such window"
           5 E_tap ∅).
  - vm_compute. reflexivity.
  - vm_compute. reflexivity.
  - reflexivity.
  - by left.
  - vm_compute. reflexivity.
Defined.

Lemma stop_requires_new_init_witness :
  let o := stop_exploration true false true server_running in
  explore_request explore_body false o.2
  = (Replied (status_reply 200 "error" "Initialization not completed"), o.2).
Proof.
  intros o.
  destruct (stop_requires_new_init true false true server_running)
    as (_ & H & _).
  - right. by right.
  - apply H.
Defined.

Lemma stop_timeout_keeps_session_witness :
  (stop_exploration true true true server_running).2
  = mkServer (Some sample_thread) true (Some sample_init) [sample_thread] [].
Proof.
  destruct (stop_timeout_keeps_session true server_running sample_thread
              sample_init) as (_ & H & _).
  - reflexivity.
  - reflexivity.
  - exact H.
Defined.

Lemma second_init_replaces_the_browser_witness :
  let s1 := (initialize init_returns init_body
               (mkServer None false (Some (InitData "a" "b" 0 0)) [] [])).2 in
  closed (stop_exploration false false true s1).2 = [sample_init].
Proof.
  intros s1.
  destruct (second_init_replaces_the_browser init_returns init_body
              (mkServer None false (Some (InitData "a" "b" 0 0)) [] [])
              "My App" "https://www.figma.com/proto/abc/App"
              "./apps/MyApp/demos/t" "./apps/MyApp/demos/t/log_report_t.md"
              100 50 false false) as (_ & _ & H & _).
  - vm_compute. reflexivity.
  - vm_compute. reflexivity.
  - reflexivity.
  - by left.
  - exact H.
Defined.

Lemma calls_are_counted_by_rounds_witness :
  let o := session_io 5 0 0 host_path_task E_tap ∅ in
  Z.of_nat (count_calls is_decide (calls o.2)) + 1 = round_count o.2 ∧
  ∃ ex, o.1 = Exc ex ∧
        (re_sub host_path_task (task_desc host_path_task) = Exc ex ∨
         re_sub host_path_task (last_act o.2) = Exc ex).
Proof.
  destruct (calls_are_counted_by_rounds 5 0 0 host_path_task E_tap ∅)
    as (_ & _ & _ & [H|H]).
  - vm_compute in H. discriminate H.
  - exact H.
Defined.
